(** * Outspark IMAP ingestion control plane: a shallow embedding

    The development follows the TypeScript sources of the ingestion
    service:

    - [Scheduler]   : services/polling-scheduler.service.ts (PollingScheduler)
    - [WorkerPool]  : services/worker-pool.service.ts       (WorkerPool)
    - [ImapWorker]  : services/imap-worker.service.ts       (ImapWorker)
    - [Sqs]         : services/aws-sqs.ts                   (sendMessage, sendMessageBatch)
    - [StatusStore] : services/supabase-database.service.ts and
                      services/imap-service.ts (getAccountsNeedingReconnection)
    - [Dispatch]    : the scheduler's [executePoll] with the pool's [addTask]
    - [WorkerPoolRun] : services/worker-pool.service.ts (how a task ends,
                      retries, the event loop around the pool)
    - [MemoryStorage] : services/memory-storage.ts (checkRateLimit)
    - [Orchestrator] : services/orchestrator.service.ts (account registry)
    - [ImapService] : services/imap-service.ts (status records, healthCheck)
    - [ConnectionManager] : services/connection-manager.service.ts (getServerHost)
    - [Monitoring]  : services/monitoring.ts (getHealthStatus) and
                      services/aws-sqs.ts (healthCheck)

    Conventions.  JavaScript numbers that hold millisecond clocks, counters
    and intervals are integers far below 2^53 and are modelled in [Z];
    the rolling success rate is a genuine fraction and is kept as an IEEE
    binary64 [float], which is what a JavaScript number is.  Each operation
    receives the clock reading [now] (the value of [Date.now()]) as an
    argument.  A JavaScript [Map] that is only read and written by key is a
    [gmap]; one that is iterated in insertion order is an association
    list.  Objects stored in a map are shared by reference in the source,
    so a field assignment is modelled by writing the updated record back
    under the same key. *)

From Stdlib Require Import ZArith String Ascii List Bool Lia Floats.
From Stdlib Require Import Sorted.
From stdpp Require Import base gmap strings list pretty.

Set Warnings "-inexact-float".

Local Open Scope string_scope.
Local Open Scope Z_scope.

(** ** JavaScript helpers *)

Module Js.

(** [String.prototype.toLowerCase], on the ASCII range used by host names. *)
Definition lower_ascii (c : ascii) : ascii :=
  let n := nat_of_ascii c in
  if Nat.leb 65 n && Nat.leb n 90 then ascii_of_nat (n + 32) else c.

Fixpoint toLowerCase (s : string) : string :=
  match s with
  | EmptyString => EmptyString
  | String c r => String (lower_ascii c) (toLowerCase r)
  end.

(** [hay.includes(needle)] *)
Fixpoint includes (hay needle : string) : bool :=
  String.prefix needle hay ||
  match hay with
  | EmptyString => false
  | String _ r => includes r needle
  end.

(** Truthiness of a string: only the empty string is falsy. *)
Definition truthy (s : string) : bool :=
  match s with EmptyString => false | String _ _ => true end.

(** [s.length]: the number of UTF-16 code units of a text, which a
    [string] holds as its UTF-8 bytes.  A byte [10xxxxxx] continues a
    character and adds nothing; a character of four bytes (lead byte
    [11110xxx]) lies outside the basic plane and takes two code units;
    every other character takes one. *)
Definition utf16_units (c : ascii) : nat :=
  let n := nat_of_ascii c in
  if Nat.leb 128 n && Nat.ltb n 192 then 0%nat
  else if Nat.leb 240 n then 2%nat
  else 1%nat.

Fixpoint String_length (s : string) : nat :=
  match s with
  | EmptyString => 0%nat
  | String c r => (utf16_units c + String_length r)%nat
  end.

(** [x || d] on an optional string: [undefined] and [''] both yield [d]. *)
Definition or_default (x : option string) (d : string) : string :=
  match x with
  | Some s => if truthy s then s else d
  | None => d
  end.

(** [Math.max] and [Math.min] on two numbers: NaN is contagious and
    [+0] is larger than [-0]. *)
Definition is_neg_zero (x : float) : bool :=
  PrimFloat.is_zero x && PrimFloat.get_sign x.

Definition Math_max (a b : float) : float :=
  if PrimFloat.is_nan a || PrimFloat.is_nan b then PrimFloat.nan
  else if PrimFloat.eqb a b then (if is_neg_zero a then b else a)
  else if PrimFloat.ltb a b then b else a.

Definition Math_min (a b : float) : float :=
  if PrimFloat.is_nan a || PrimFloat.is_nan b then PrimFloat.nan
  else if PrimFloat.eqb a b then (if is_neg_zero a then a else b)
  else if PrimFloat.ltb a b then a else b.

(** [Date.prototype.toISOString] of the instant [ms] (milliseconds since
    the epoch, UTC): the proleptic Gregorian date by the days-to-civil
    computation, years outside 0..9999 in the signed six-digit form. *)
Fixpoint zeros (n : nat) : string :=
  match n with
  | O => ""
  | S k => "0" ++ zeros k
  end.

Definition pad (width : nat) (n : Z) : string :=
  let s := pretty n in zeros (width - String.length s) ++ s.

Definition toISOString (ms : Z) : string :=
  let days := ms / 86400000 in
  let rem := ms mod 86400000 in
  let z := days + 719468 in
  let era := z / 146097 in
  let doe := z mod 146097 in
  let yoe := (doe - doe / 1460 + doe / 36524 - doe / 146096) / 365 in
  let y := yoe + era * 400 in
  let doy := doe - (365 * yoe + yoe / 4 - yoe / 100) in
  let mp := (5 * doy + 2) / 153 in
  let d := doy - (153 * mp + 2) / 5 + 1 in
  let m := if mp <? 10 then mp + 3 else mp - 9 in
  let year := if m <=? 2 then y + 1 else y in
  let yearText :=
    if (0 <=? year) && (year <=? 9999) then pad 4 year
    else (if year <? 0 then "-" else "+") ++ pad 6 (Z.abs year) in
  yearText ++ "-" ++ pad 2 m ++ "-" ++ pad 2 d ++ "T"
  ++ pad 2 (rem / 3600000) ++ ":" ++ pad 2 (rem / 60000 mod 60) ++ ":"
  ++ pad 2 (rem / 1000 mod 60) ++ "." ++ pad 3 (rem mod 1000) ++ "Z".

End Js.

(** ** Shared types (types/index.ts) *)

Inductive Priority := high | medium | low.
Inductive TaskType := poll | idle | health_check.

#[global] Instance Priority_eq_dec : EqDecision Priority.
Proof. solve_decision. Defined.
#[global] Instance TaskType_eq_dec : EqDecision TaskType.
Proof. solve_decision. Defined.

(** The fields of [EmailAccountsCredentials] the control plane reads. *)
Record EmailAccountsCredentials := mkAccount {
  id : string;
  email : string;
  imapHost : string;
  imapPort : Z;
  dailyLimit : option Z;
  acc_isActive : bool
}.

(** ** The polling scheduler *)

Module Scheduler.

Inductive Volume := highVolume | mediumVolume | lowVolume.

#[global] Instance Volume_eq_dec : EqDecision Volume.
Proof. solve_decision. Defined.

Record PollingSchedule := mkSchedule {
  accountId : string;
  account : EmailAccountsCredentials;
  priority : Priority;
  interval : Z;
  lastPolled : Z;
  nextPoll : Z;
  emailVolume : Volume;
  successRate : float;
  consecutiveFailures : Z;
  maxFailures : Z;
  isActive : bool;
  supportsIdle : bool;
  idleEnabled : bool;
  lastIdleAttempt : Z;
  idleFailures : Z;
  maxIdleFailures : Z
}.

(** Field assignments [schedule.f = v]. *)
Definition set_priority (v : Priority) (s : PollingSchedule) :=
  let 'mkSchedule a b _ d e f g h i j k l m n o p := s in
  mkSchedule a b v d e f g h i j k l m n o p.
Definition set_interval (v : Z) (s : PollingSchedule) :=
  let 'mkSchedule a b c _ e f g h i j k l m n o p := s in
  mkSchedule a b c v e f g h i j k l m n o p.
Definition set_lastPolled (v : Z) (s : PollingSchedule) :=
  let 'mkSchedule a b c d _ f g h i j k l m n o p := s in
  mkSchedule a b c d v f g h i j k l m n o p.
Definition set_nextPoll (v : Z) (s : PollingSchedule) :=
  let 'mkSchedule a b c d e _ g h i j k l m n o p := s in
  mkSchedule a b c d e v g h i j k l m n o p.
Definition set_emailVolume (v : Volume) (s : PollingSchedule) :=
  let 'mkSchedule a b c d e f _ h i j k l m n o p := s in
  mkSchedule a b c d e f v h i j k l m n o p.
Definition set_successRate (v : float) (s : PollingSchedule) :=
  let 'mkSchedule a b c d e f g _ i j k l m n o p := s in
  mkSchedule a b c d e f g v i j k l m n o p.
Definition set_consecutiveFailures (v : Z) (s : PollingSchedule) :=
  let 'mkSchedule a b c d e f g h _ j k l m n o p := s in
  mkSchedule a b c d e f g h v j k l m n o p.
Definition set_isActive (v : bool) (s : PollingSchedule) :=
  let 'mkSchedule a b c d e f g h i j _ l m n o p := s in
  mkSchedule a b c d e f g h i j v l m n o p.
Definition set_idleEnabled (v : bool) (s : PollingSchedule) :=
  let 'mkSchedule a b c d e f g h i j k l _ n o p := s in
  mkSchedule a b c d e f g h i j k l v n o p.
Definition set_lastIdleAttempt (v : Z) (s : PollingSchedule) :=
  let 'mkSchedule a b c d e f g h i j k l m _ o p := s in
  mkSchedule a b c d e f g h i j k l m v o p.
Definition set_idleFailures (v : Z) (s : PollingSchedule) :=
  let 'mkSchedule a b c d e f g h i j k l m n _ p := s in
  mkSchedule a b c d e f g h i j k l m n v p.

(** The scheduler object: [schedules] and [pollingTimers].  A timer is
    represented by the instant at which its callback [executePoll] is due. *)
Record State := mkState {
  schedules : gmap string PollingSchedule;
  pollingTimers : gmap string Z
}.

Definition empty : State := mkState ∅ ∅.

Definition baseIntervals (p : Priority) : Z :=
  match p with
  | high => 60000
  | medium => 300000
  | low => 900000
  end.

Definition adaptiveIntervals (v : Volume) : Z :=
  match v with
  | highVolume => 60000
  | mediumVolume => 300000
  | lowVolume => 900000
  end.

Definition idleSupportingProviders : list string :=
  ["gmail.com"; "outlook.office365.com"; "imap.mail.yahoo.com";
   "zoho.com"; "protonmail.com"].

Definition nonIdleProviders : list string :=
  ["mailscale.com"; "shared-hosting.com"; "cpanel.com"].

(** [detectIdleSupport]: the deny-list is consulted first; a host on
    neither list is treated as supporting IDLE. *)
Definition detectIdleSupport (acct : EmailAccountsCredentials) : bool :=
  let host := Js.toLowerCase (imapHost acct) in
  if existsb (Js.includes host) nonIdleProviders then false
  else if existsb (Js.includes host) idleSupportingProviders then true
  else true.

(** [removeAccount]: clear the timer, delete the schedule. *)
Definition removeAccount (aid : string) (st : State) : State :=
  mkState (delete aid (schedules st)) (delete aid (pollingTimers st)).

(** [scheduleNextPoll]: arm the per-account timer, unless the schedule is
    missing or paused. *)
Definition scheduleNextPoll (now : Z) (aid : string) (st : State) : State :=
  match schedules st !! aid with
  | None => st
  | Some schedule =>
      if negb (isActive schedule) then st
      else
        let delay := Z.max 0 (nextPoll schedule - now) in
        mkState (schedules st) (<[aid := now + delay]> (pollingTimers st))
  end.

(** Writing a mutated schedule object back under its key. *)
Definition store (aid : string) (s : PollingSchedule) (st : State) : State :=
  mkState (<[aid := s]> (schedules st)) (pollingTimers st).

Definition addAccount (now : Z) (acct : EmailAccountsCredentials)
    (prio : Priority) (st : State) : State :=
  let aid := id acct in
  let st := removeAccount aid st in
  let baseInterval := baseIntervals prio in
  let supports := detectIdleSupport acct in
  let schedule :=
    {| accountId := aid;
       account := acct;
       priority := prio;
       interval := baseInterval;
       lastPolled := 0;
       nextPoll := now + baseInterval;
       emailVolume := lowVolume;
       successRate := 1.0%float;
       consecutiveFailures := 0;
       maxFailures := 3;
       isActive := true;
       supportsIdle := supports;
       idleEnabled := supports;
       lastIdleAttempt := 0;
       idleFailures := 0;
       maxIdleFailures := 3 |} in
  scheduleNextPoll now aid (store aid schedule st).

(** [handleAccountFailure]: quarantine of a repeatedly failing account. *)
Definition handleAccountFailure (now : Z) (aid : string) (st : State) : State :=
  match schedules st !! aid with
  | None => st
  | Some schedule =>
      let schedule := set_interval (Z.min (interval schedule * 2) 3600000) schedule in
      let schedule := set_nextPoll (now + interval schedule) schedule in
      let schedule := set_priority low schedule in
      scheduleNextPoll now aid (store aid schedule st)
  end.

(** What the call [workerPool.addTask(...)] inside the [try] block of
    [executePoll] did: it returned a task id, or an exception escaped. *)
Inductive Enqueue := Enqueued (taskId : string) | Threw.

(** The [catch] block of [executePoll]. *)
Definition executePoll_catch (now : Z) (aid : string)
    (schedule : PollingSchedule) (st : State) : State :=
  let schedule := set_consecutiveFailures (consecutiveFailures schedule + 1) schedule in
  let schedule :=
    set_successRate (Js.Math_max 0.0 (successRate schedule - 0.2)%float) schedule in
  let schedule :=
    if idleEnabled schedule && supportsIdle schedule then
      let schedule := set_idleFailures (idleFailures schedule + 1) schedule in
      if idleFailures schedule >=? maxIdleFailures schedule
      then set_idleEnabled false schedule
      else schedule
    else schedule in
  if consecutiveFailures schedule >=? maxFailures schedule then
    handleAccountFailure now aid (store aid schedule st)
  else
    let backoffDelay :=
      Z.min (interval schedule * 2 ^ consecutiveFailures schedule) 300000 in
    let schedule := set_nextPoll (now + backoffDelay) schedule in
    scheduleNextPoll now aid (store aid schedule st).

(** [executePoll]: choose the task kind, enqueue, then book-keep. *)
Definition chooseTaskType (now : Z) (schedule : PollingSchedule) : TaskType :=
  if idleEnabled schedule && supportsIdle schedule then
    let timeSinceLastIdle := now - lastIdleAttempt schedule in
    let idleRetryInterval := 300000 in
    if timeSinceLastIdle >? idleRetryInterval then idle else poll
  else poll.

Definition executePoll (now : Z) (outcome : Enqueue) (aid : string)
    (st : State) : State :=
  match schedules st !! aid with
  | None => st
  | Some schedule =>
      if negb (isActive schedule) then st
      else
        let taskType := chooseTaskType now schedule in
        let schedule :=
          match taskType with
          | idle => set_lastIdleAttempt now schedule
          | _ => schedule
          end in
        match outcome with
        | Enqueued _ =>
            match taskType with
            | idle => store aid schedule st
            | _ =>
                let schedule := set_lastPolled now schedule in
                let schedule := set_nextPoll (now + interval schedule) schedule in
                let schedule := set_consecutiveFailures 0 schedule in
                let schedule :=
                  set_successRate
                    (Js.Math_min 1.0 (successRate schedule + 0.1)%float) schedule in
                scheduleNextPoll now aid (store aid schedule st)
            end
        | Threw => executePoll_catch now aid schedule st
        end
  end.

(** [updateAccountVolume]: reclassify the volume tier from a message count. *)
Definition classifyVolume (emailCount : Z) : Volume :=
  if emailCount >? 100 then highVolume
  else if emailCount >? 10 then mediumVolume
  else lowVolume.

Definition updateAccountVolume (now : Z) (aid : string) (emailCount : Z)
    (st : State) : State :=
  match schedules st !! aid with
  | None => st
  | Some schedule =>
      let newVolume := classifyVolume emailCount in
      let newInterval := adaptiveIntervals newVolume in
      if decide (newVolume = emailVolume schedule) then st
      else
        let schedule := set_emailVolume newVolume schedule in
        let schedule := set_interval newInterval schedule in
        let timeUntilNext := nextPoll schedule - now in
        if timeUntilNext >? 0 then
          let schedule :=
            set_nextPoll (now + Z.min timeUntilNext newInterval) schedule in
          scheduleNextPoll now aid (store aid schedule st)
        else store aid schedule st
  end.

Definition updateAccountPriority (now : Z) (aid : string)
    (newPriority : Priority) (st : State) : State :=
  match schedules st !! aid with
  | None => st
  | Some schedule =>
      let schedule := set_priority newPriority schedule in
      let schedule := set_interval (baseIntervals newPriority) schedule in
      let schedule := set_nextPoll (now + interval schedule) schedule in
      scheduleNextPoll now aid (store aid schedule st)
  end.

Definition pauseAccount (aid : string) (st : State) : State :=
  match schedules st !! aid with
  | None => st
  | Some schedule =>
      let schedule := set_isActive false schedule in
      mkState (<[aid := schedule]> (schedules st)) (delete aid (pollingTimers st))
  end.

Definition resumeAccount (now : Z) (aid : string) (st : State) : State :=
  match schedules st !! aid with
  | None => st
  | Some schedule =>
      let schedule := set_isActive true schedule in
      let schedule := set_nextPoll (now + interval schedule) schedule in
      scheduleNextPoll now aid (store aid schedule st)
  end.

(** [handleIdleTaskCompletion]: the worker's report on an IDLE task. *)
Definition handleIdleTaskCompletion (now : Z) (aid : string) (success : bool)
    (st : State) : State :=
  match schedules st !! aid with
  | None => st
  | Some schedule =>
      if success then
        let schedule := set_idleFailures 0 schedule in
        let schedule := set_idleEnabled true schedule in
        let nextIdleDelay := 60000 in
        let schedule := set_nextPoll (now + nextIdleDelay) schedule in
        scheduleNextPoll now aid (store aid schedule st)
      else
        let schedule := set_idleFailures (idleFailures schedule + 1) schedule in
        if idleFailures schedule >=? maxIdleFailures schedule then
          let schedule := set_idleEnabled false schedule in
          let schedule := set_nextPoll (now + 30000) schedule in
          scheduleNextPoll now aid (store aid schedule st)
        else
          let retryDelay := Z.min (60000 * 2 ^ idleFailures schedule) 300000 in
          let schedule := set_nextPoll (now + retryDelay) schedule in
          scheduleNextPoll now aid (store aid schedule st)
  end.

(** [setIdleEnabled]: the operator's switch; refused when the account does
    not support IDLE. *)
Definition setIdleEnabled (now : Z) (aid : string) (enabled : bool)
    (st : State) : State :=
  match schedules st !! aid with
  | None => st
  | Some schedule =>
      if negb (supportsIdle schedule) then st
      else
        let oldEnabled := idleEnabled schedule in
        let schedule := set_idleEnabled enabled schedule in
        let schedule :=
          if enabled then set_idleFailures 0 schedule else schedule in
        if enabled && negb oldEnabled then
          let schedule := set_nextPoll (now + 30000) schedule in
          scheduleNextPoll now aid (store aid schedule st)
        else store aid schedule st
  end.

Definition shutdown (st : State) : State := empty.

(** The scheduler's entry points, as commands.  [OpExecutePoll] stands for
    a firing timer or a due entry found by [processSchedules]. *)
Inductive Op :=
| OpAddAccount (acct : EmailAccountsCredentials) (prio : Priority)
| OpRemoveAccount (aid : string)
| OpExecutePoll (aid : string) (outcome : Enqueue)
| OpUpdateAccountVolume (aid : string) (emailCount : Z)
| OpUpdateAccountPriority (aid : string) (newPriority : Priority)
| OpPauseAccount (aid : string)
| OpResumeAccount (aid : string)
| OpHandleIdleTaskCompletion (aid : string) (success : bool)
| OpSetIdleEnabled (aid : string) (enabled : bool)
| OpShutdown.

Definition step (now : Z) (op : Op) (st : State) : State :=
  match op with
  | OpAddAccount acct prio => addAccount now acct prio st
  | OpRemoveAccount aid => removeAccount aid st
  | OpExecutePoll aid outcome => executePoll now outcome aid st
  | OpUpdateAccountVolume aid n => updateAccountVolume now aid n st
  | OpUpdateAccountPriority aid p => updateAccountPriority now aid p st
  | OpPauseAccount aid => pauseAccount aid st
  | OpResumeAccount aid => resumeAccount now aid st
  | OpHandleIdleTaskCompletion aid ok => handleIdleTaskCompletion now aid ok st
  | OpSetIdleEnabled aid en => setIdleEnabled now aid en st
  | OpShutdown => shutdown st
  end.

(** A run is a list of timestamped commands applied to the fresh scheduler. *)
Fixpoint run (trace : list (Z * Op)) (st : State) : State :=
  match trace with
  | [] => st
  | (now, op) :: rest => run rest (step now op st)
  end.

Inductive reachable : State -> Prop :=
| reachable_empty : reachable empty
| reachable_step now op st : reachable st -> reachable (step now op st).

(** The four operations named by the IDLE-gating invariant. *)
Definition idle_gating_op (op : Op) : bool :=
  match op with
  | OpAddAccount _ _ | OpSetIdleEnabled _ _
  | OpHandleIdleTaskCompletion _ _ | OpExecutePoll _ _ => true
  | _ => false
  end.

Inductive reachable_by_idle_ops : State -> Prop :=
| idle_ops_empty : reachable_by_idle_ops empty
| idle_ops_step now op st :
    idle_gating_op op = true ->
    reachable_by_idle_ops st -> reachable_by_idle_ops (step now op st).

End Scheduler.

(** ** The worker pool *)

(** Defaults of [config.workerPool] (config/index.ts). *)
Module Config.

Record WorkerPoolConfig := mkWorkerPoolConfig {
  maxWorkers : Z;
  workerTimeout : Z;
  taskQueueSize : Z
}.

Definition workerPool : WorkerPoolConfig :=
  {| maxWorkers := 50; workerTimeout := 300000; taskQueueSize := 10000 |}.

End Config.

Module WorkerPool.

(** [Omit<WorkerTask, 'id' | 'createdAt' | 'retryCount'>] *)
Record TaskRequest := mkRequest {
  req_accountId : string;
  req_account : EmailAccountsCredentials;
  req_priority : Priority;
  req_type : TaskType;
  req_maxRetries : Z
}.

Record WorkerTask := mkTask {
  task_id : string;
  accountId : string;
  account : EmailAccountsCredentials;
  priority : Priority;
  type : TaskType;
  createdAt : Z;
  retryCount : Z;
  maxRetries : Z
}.

Inductive WorkerStatus := st_idle | st_busy | st_error.

Record WorkerStats := mkWorker {
  workerId : string;
  status : WorkerStatus;
  tasksProcessed : Z;
  tasksFailed : Z;
  currentTask : option WorkerTask;
  lastActivity : Z;
  memoryUsage : Z;
  cpuUsage : Z
}.

Definition set_status (v : WorkerStatus) (w : WorkerStats) :=
  let 'mkWorker a _ c d e f g h := w in mkWorker a v c d e f g h.
Definition set_currentTask (v : option WorkerTask) (w : WorkerStats) :=
  let 'mkWorker a b c d _ f g h := w in mkWorker a b c d v f g h.
Definition set_lastActivity (v : Z) (w : WorkerStats) :=
  let 'mkWorker a b c d e _ g h := w in mkWorker a b c d e v g h.

(** The pool object.  [workers] is iterated in insertion order, so it is
    kept as an association list with distinct keys. *)
Record Pool := mkPool {
  workers : list (string * WorkerStats);
  taskQueue : list WorkerTask;
  activeWorkers : Z;
  maxWorkers : Z;
  workerTimeout : Z
}.

Definition set_workers (v : list (string * WorkerStats)) (p : Pool) :=
  let 'mkPool _ b c d e := p in mkPool v b c d e.
Definition set_taskQueue (v : list WorkerTask) (p : Pool) :=
  let 'mkPool a _ c d e := p in mkPool a v c d e.
Definition set_activeWorkers (v : Z) (p : Pool) :=
  let 'mkPool a b _ d e := p in mkPool a b v d e.

(** [new WorkerPool(maxWorkers, workerTimeout)] *)
Definition create (maxW timeout : Z) : Pool := mkPool [] [] 0 maxW timeout.

Definition getPriorityWeight (p : Priority) : Z :=
  match p with
  | high => 3
  | medium => 2
  | low => 1
  end.

(** [Array.prototype.findIndex]; [None] stands for [-1]. *)
Fixpoint findIndex {A} (p : A -> bool) (l : list A) : option nat :=
  match l with
  | [] => None
  | x :: r => if p x then Some O else S <$> findIndex p r
  end.

(** [arr.splice(i, 0, x)] *)
Definition splice_in {A} (i : nat) (x : A) (l : list A) : list A :=
  take i l ++ x :: drop i l.

(** Replacing the object stored under [wid] in [workers]. *)
Fixpoint put_worker (wid : string) (w : WorkerStats)
    (ws : list (string * WorkerStats)) : list (string * WorkerStats) :=
  match ws with
  | [] => []
  | (k, v) :: r =>
      if String.eqb k wid then (k, w) :: r else (k, v) :: put_worker wid w r
  end.

Fixpoint get_worker (wid : string) (ws : list (string * WorkerStats))
    : option WorkerStats :=
  match ws with
  | [] => None
  | (k, v) :: r => if String.eqb k wid then Some v else get_worker wid r
  end.

Definition is_idle (s : WorkerStatus) : bool :=
  match s with st_idle => true | _ => false end.
Definition is_busy (s : WorkerStatus) : bool :=
  match s with st_busy => true | _ => false end.

Fixpoint findAvailableWorker (ws : list (string * WorkerStats)) : option string :=
  match ws with
  | [] => None
  | (wid, stats) :: r =>
      if is_idle (status stats) then Some wid else findAvailableWorker r
  end.

(** [executeTask], up to its first [await]: the worker is marked busy and
    takes the task. *)
Definition executeTask_start (now : Z) (wid : string) (task : WorkerTask)
    (pool : Pool) : Pool :=
  match get_worker wid (workers pool) with
  | None => pool
  | Some worker =>
      let worker := set_status st_busy worker in
      let worker := set_currentTask (Some task) worker in
      let worker := set_lastActivity now worker in
      let pool := set_workers (put_worker wid worker (workers pool)) pool in
      set_activeWorkers (activeWorkers pool + 1) pool
  end.

Definition processNextTask (now : Z) (pool : Pool) : Pool :=
  if (Nat.eqb (length (taskQueue pool)) 0) || (activeWorkers pool >=? maxWorkers pool)
  then pool
  else
    match taskQueue pool with
    | [] => pool
    | task :: rest =>
        let pool := set_taskQueue rest pool in
        match findAvailableWorker (workers pool) with
        | None => set_taskQueue (task :: taskQueue pool) pool
        | Some wid => executeTask_start now wid task pool
        end
    end.

(** The queue insertion of [addTask]: before the first queued task of
    strictly lower priority, or at the end. *)
Definition enqueue (fullTask : WorkerTask) (queue : list WorkerTask)
    : list WorkerTask :=
  match findIndex
          (fun t => (getPriorityWeight (priority t) <? getPriorityWeight (priority fullTask))%Z)
          queue with
  | None => queue ++ [fullTask]
  | Some insertIndex => splice_in insertIndex fullTask queue
  end.

Definition newTask (now : Z) (rnd : string) (task : TaskRequest) : WorkerTask :=
  let taskId := req_accountId task ++ "_" ++ pretty now ++ "_" ++ rnd in
  {| task_id := taskId;
     accountId := req_accountId task;
     account := req_account task;
     priority := req_priority task;
     type := req_type task;
     createdAt := now;
     retryCount := 0;
     maxRetries := req_maxRetries task |}.

(** [addTask]; [rnd] is the base-36 suffix drawn from [Math.random()].
    The method has one exit, the [return taskId] at its end. *)
Definition addTask (now : Z) (rnd : string) (task : TaskRequest) (pool : Pool)
    : string * Pool :=
  let fullTask := newTask now rnd task in
  let pool := set_taskQueue (enqueue fullTask (taskQueue pool)) pool in
  let pool := processNextTask now pool in
  (task_id fullTask, pool).

(** The body of the loop of [performHealthCheck] for one worker. *)
Definition resetIfStuck (now : Z) (pool : Pool) (entry : string * WorkerStats)
    : Pool :=
  let '(wid, worker) := entry in
  let timeSinceLastActivity := now - lastActivity worker in
  if (timeSinceLastActivity >? workerTimeout pool) && is_busy (status worker) then
    let worker := set_status st_idle worker in
    let worker := set_currentTask None worker in
    let pool := set_workers (put_worker wid worker (workers pool)) pool in
    let pool := set_activeWorkers (activeWorkers pool - 1) pool in
    match currentTask worker with
    | Some task => set_taskQueue (task :: taskQueue pool) pool
    | None => pool
    end
  else pool.

Definition performHealthCheck (now : Z) (pool : Pool) : Pool :=
  fold_left (resetIfStuck now) (workers pool) pool.

End WorkerPool.

(** ** The queue sink (aws-sqs.ts) *)

(** A settled promise: the value it resolved with, or the error thrown. *)
Inductive Settled (A : Type) :=
| Resolved (a : A)
| Rejected (err : string).
Arguments Resolved {A} a.
Arguments Rejected {A} err.

Module Sqs.

Record PayloadData := mkData {
  accountId : string;
  messageId : string;
  internalMessageId : string;
  threadId : option string;
  inReplyTo : option string;
  references : option (list string);
  timestamp : string;
  from : string;
  to : list string;
  subject : string;
  text : string;
  isReply : bool;
  receivedAt : string
}.

Record QueuePayload := mkPayload {
  type : string;
  data : PayloadData
}.

(** The text produced by [JSON.stringify(payload)], represented by the
    payload it serializes. *)
Inductive JsonText := JSON_stringify (payload : QueuePayload).

Record MessageAttributeValue := mkAttr {
  StringValue : string;
  DataType : string
}.

(** [SendMessageRequest] and [SendMessageBatchRequestEntry] of the SQS
    client; the FIFO keys are optional members of both. *)
Record SendMessageCommand := mkSend {
  QueueUrl : string;
  MessageBody : JsonText;
  MessageGroupId : option string;
  MessageDeduplicationId : option string;
  MessageAttributes : list (string * MessageAttributeValue);
  DelaySeconds : Z
}.

Record BatchEntry := mkEntry {
  Id : string;
  entry_MessageBody : JsonText;
  entry_MessageGroupId : option string;
  entry_MessageDeduplicationId : option string;
  entry_MessageAttributes : list (string * MessageAttributeValue);
  entry_DelaySeconds : Z
}.

Record SendMessageBatchCommand := mkSendBatch {
  batch_QueueUrl : string;
  Entries : list BatchEntry
}.

Record SendMessageOutput := mkOutput { MessageId : option string }.

Record SendMessageBatchOutput := mkBatchOutput {
  Successful : option (list string);
  Failed : option (list string)
}.

(** The SQS client: what [sqsClient.send(command)] settles with. *)
Record Client := mkClient {
  send : SendMessageCommand -> Settled SendMessageOutput;
  sendBatch : SendMessageBatchCommand -> Settled SendMessageBatchOutput
}.

Definition bool_toString (b : bool) : string := if b then "true" else "false".

(** The [MessageAttributes] object literal; [sendMessage] and
    [sendMessageBatch] spell out the same nine members. *)
Definition messageAttributes (payload : QueuePayload)
    : list (string * MessageAttributeValue) :=
  let d := data payload in
  [ ("MessageType", mkAttr (type payload) "String");
    ("AccountId", mkAttr (accountId d) "String");
    ("OriginalMessageId", mkAttr (messageId d) "String");
    ("InternalMessageId", mkAttr (internalMessageId d) "String");
    ("ThreadId", mkAttr (Js.or_default (threadId d) "") "String");
    ("IsReply", mkAttr (bool_toString (isReply d)) "String");
    ("HasTextContent",
       mkAttr (if Js.truthy (text d)
               then bool_toString (0 <? Js.String_length (text d))%nat
               else text d) "String");
    ("TextLength", mkAttr (pretty (Z.of_nat (Js.String_length (text d)))) "String");
    ("Timestamp", mkAttr (timestamp d) "String") ].

(** The command built by [sendMessage]. *)
Definition sendMessage_command (now : Z) (queueUrl : string)
    (payload : QueuePayload) : SendMessageCommand :=
  {| QueueUrl := queueUrl;
     MessageBody := JSON_stringify payload;
     MessageGroupId :=
       Some (if Js.truthy (accountId (data payload))
             then accountId (data payload) else "default");
     MessageDeduplicationId :=
       Some (accountId (data payload) ++ "_" ++ pretty now);
     MessageAttributes := messageAttributes payload;
     DelaySeconds := 0 |}.

(** [sendMessage]: the command handed to the client and how the call
    settles. *)
Definition sendMessage (now : Z) (queueUrl : string) (client : Client)
    (payload : QueuePayload) : SendMessageCommand * Settled string :=
  let command := sendMessage_command now queueUrl payload in
  (command,
   match send client command with
   | Resolved response =>
       match MessageId response with
       | Some mid =>
           if Js.truthy mid then Resolved mid
           else Rejected "No message ID returned from SQS"
       | None => Rejected "No message ID returned from SQS"
       end
   | Rejected err => Rejected err
   end).

(** The entries built by [sendMessageBatch]. *)
Definition sendMessageBatch_entry (now : Z) (index : nat)
    (payload : QueuePayload) : BatchEntry :=
  {| Id := "msg_" ++ pretty (Z.of_nat index) ++ "_" ++ pretty now;
     entry_MessageBody := JSON_stringify payload;
     entry_MessageGroupId := None;
     entry_MessageDeduplicationId := None;
     entry_MessageAttributes := messageAttributes payload;
     entry_DelaySeconds := 0 |}.

Definition sendMessageBatch_command (now : Z) (queueUrl : string)
    (payloads : list QueuePayload) : SendMessageBatchCommand :=
  {| batch_QueueUrl := queueUrl;
     Entries := imap (sendMessageBatch_entry now) payloads |}.

(** [sendMessageBatch]: the commands handed to the client (none for an
    empty or oversize batch) and how the call settles. *)
Definition sendMessageBatch (now : Z) (queueUrl : string) (client : Client)
    (payloads : list QueuePayload)
    : list SendMessageBatchCommand * Settled (list string) :=
  if Nat.eqb (length payloads) 0 then ([], Resolved [])
  else if (10 <? length payloads)%nat
  then ([], Rejected "Batch size cannot exceed 10 messages")
  else
    let command := sendMessageBatch_command now queueUrl payloads in
    ([command],
     match sendBatch client command with
     | Resolved response =>
         match Successful response with
         | Some (m :: ms) => Resolved (m :: ms)
         | _ => Rejected "No successful messages in batch"
         end
     | Rejected err => Rejected err
     end).

End Sqs.

(** ** The IMAP worker (imap-worker.service.ts) *)

Module ImapWorker.

(** What imapflow hands over for one fetched message. *)
Record Address := mkAddress {
  name : option string;
  address : option string
}.

Record MessageEnvelope := mkEnvelope {
  env_date : option Z;
  env_subject : option string;
  env_from : option (list Address);
  env_to : option (list Address);
  env_messageId : option string;
  env_inReplyTo : option string;
  env_references : option (list string)
}.

Record FetchMessageObject := mkFetched {
  uid : Z;
  envelope : option MessageEnvelope;
  source : option string
}.

(** The object returned by [parseEmail]. *)
Record EmailData := mkEmailData {
  accountId : string;
  messageId : string;
  internalMessageId : string;
  threadId : string;
  inReplyTo : string;
  references : list string;
  from : string;
  to : list string;
  subject : string;
  text : string;
  receivedAt : Z;
  timestamp : string;
  isReply : bool
}.

(** [envelope.from?.[0]?.address || ''] *)
Definition firstAddress (l : option (list Address)) : string :=
  match l with
  | Some (a :: _) => Js.or_default (address a) ""
  | _ => ""
  end.

(** [envelope.to?.map(addr => addr.address).filter(Boolean) || []] *)
Definition allAddresses (l : option (list Address)) : list string :=
  match l with
  | Some addrs =>
      List.map (fun o => Js.or_default o "")
        (List.filter (fun o : option string => Js.truthy (Js.or_default o ""))
           (List.map address addrs))
  | None => []
  end.

Definition parseEmail (now : Z) (message : FetchMessageObject)
    (aid : string) : EmailData :=
  match envelope message with
  | None =>
      {| accountId := aid;
         messageId := "";
         internalMessageId := aid ++ "_" ++ pretty (uid message) ++ "_" ++ pretty now;
         threadId := "";
         inReplyTo := "";
         references := [];
         from := "";
         to := [];
         subject := "";
         text := Js.or_default (source message) "";
         receivedAt := now;
         timestamp := Js.toISOString now;
         isReply := false |}
  | Some envelope =>
      let fromAddress := firstAddress (env_from envelope) in
      let toAddresses := allAddresses (env_to envelope) in
      let originalMessageId := Js.or_default (env_messageId envelope) "" in
      let inReplyTo_ := Js.or_default (env_inReplyTo envelope) "" in
      let references_ := default [] (env_references envelope) in
      let isReply_ := Js.truthy inReplyTo_ || (0 <? length references_)%nat in
      let internalMessageId_ :=
        aid ++ "_" ++ pretty (uid message) ++ "_" ++ pretty now in
      {| accountId := aid;
         messageId := originalMessageId;
         internalMessageId := internalMessageId_;
         threadId := inReplyTo_;
         inReplyTo := inReplyTo_;
         references := references_;
         from := fromAddress;
         to := toAddresses;
         subject := Js.or_default (env_subject envelope) "";
         text := Js.or_default (source message) "";
         receivedAt := default now (env_date envelope);
         timestamp := Js.toISOString (default now (env_date envelope));
         isReply := isReply_ |}
  end.

(** A [Date] object: a time value in milliseconds, or the invalid date
    (what [new Date(text)] gives for a text it cannot read). *)
Inductive JsDate := TimeValue (ms : Z) | InvalidDate.

(** A message as the fetch iterator yields it: the date of its envelope
    is a [Date] object, which may be the invalid date. *)
Record FetchedEnvelope := mkFetchedEnvelope {
  fe_date : option JsDate;
  fe_subject : option string;
  fe_from : option (list Address);
  fe_to : option (list Address);
  fe_messageId : option string;
  fe_inReplyTo : option string;
  fe_references : option (list string)
}.

Record FetchedMessage := mkFetchedMessage {
  fm_uid : Z;
  fm_envelope : option FetchedEnvelope;
  fm_source : option string
}.

(** The message with the time value of its date in place of the [Date]
    object; there is none when the date is the invalid one. *)
Definition readable (message : FetchedMessage) : option FetchMessageObject :=
  match fm_envelope message with
  | None => Some (mkFetched (fm_uid message) None (fm_source message))
  | Some e =>
      let withDate d :=
        mkFetched (fm_uid message)
          (Some (mkEnvelope d (fe_subject e) (fe_from e) (fe_to e)
                   (fe_messageId e) (fe_inReplyTo e) (fe_references e)))
          (fm_source message) in
      match fe_date e with
      | None => Some (withDate None)
      | Some (TimeValue ms) => Some (withDate (Some ms))
      | Some InvalidDate => None
      end
  end.

(** [parseEmail] as it runs on a yielded message.  On an envelope whose
    date is the invalid date, [(envelope.date || new Date()).toISOString()]
    throws a RangeError (an object is truthy, so the invalid date is the
    one taken); in every other case the call returns what [parseEmail]
    above computes from the time value. *)
Definition tryParseEmail (now : Z) (message : FetchedMessage) (aid : string)
    : Settled EmailData :=
  match readable message with
  | Some message => Resolved (parseEmail now message aid)
  | None => Rejected "RangeError: Invalid time value"
  end.

Record Stats := mkStats {
  emailsProcessed : Z;
  emailsFailed : Z
}.

(** The borrowed IMAP connection, as far as a poll exercises it.  A
    [false] or [None] answer stands for a rejected promise. *)
Record Connection := mkConnection {
  isConnectionValid : bool;
  noop : bool;
  connect : bool;
  getMailboxLock : bool;
  mailboxOpen : option Z;
  fetch : Z -> Z -> option (list FetchedMessage)
}.

Definition batchSize : Z := 10.

(** The SQS payload assembled from the parsed message. *)
Definition sqsPayload (emailData : EmailData) : Sqs.QueuePayload :=
  {| Sqs.type := "email_reply";
     Sqs.data :=
       {| Sqs.accountId := accountId emailData;
          Sqs.messageId := messageId emailData;
          Sqs.internalMessageId := internalMessageId emailData;
          Sqs.threadId := Some (threadId emailData);
          Sqs.inReplyTo := Some (inReplyTo emailData);
          Sqs.references := Some (references emailData);
          Sqs.timestamp := timestamp emailData;
          Sqs.from := from emailData;
          Sqs.to := to emailData;
          Sqs.subject := subject emailData;
          Sqs.text := text emailData;
          Sqs.isReply := isReply emailData;
          Sqs.receivedAt := Js.toISOString (receivedAt emailData) |} |}.

(** The body of the inner [for await] loop: parse, validate, collect;
    when parsing throws, the [catch] counts the message as failed. *)
Definition processMessage (now : Z) (aid : string)
    (acc : list Sqs.QueuePayload * Stats) (message : FetchedMessage)
    : list Sqs.QueuePayload * Stats :=
  let '(messages, stats) := acc in
  match tryParseEmail now message aid with
  | Resolved emailData =>
      if negb (Js.truthy (messageId emailData))
         || negb (Js.truthy (internalMessageId emailData))
      then (messages, stats)
      else
        ((messages ++ [sqsPayload emailData])%list,
         mkStats (emailsProcessed stats + 1) (emailsFailed stats))
  | Rejected parseError =>
      (messages, mkStats (emailsProcessed stats) (emailsFailed stats + 1))
  end.

(** The values taken by the counter of
    [for (let i = startMessage; i <= endMessage; i += batchSize)]. *)
Definition batchStarts (startMessage endMessage : Z) : list Z :=
  if startMessage <=? endMessage then
    List.map (fun k => startMessage + batchSize * Z.of_nat k)
      (seq 0 (Z.to_nat ((endMessage - startMessage) / batchSize + 1)))
  else [].

(** One turn of the outer loop: fetch [i:batchEnd]; a failed fetch is
    logged and the loop moves on. *)
Definition processBatch (now : Z) (connection : Connection) (aid : string)
    (endMessage : Z) (acc : list Sqs.QueuePayload * Stats) (i : Z)
    : list Sqs.QueuePayload * Stats :=
  let batchEnd := Z.min (i + batchSize - 1) endMessage in
  match fetch connection i batchEnd with
  | Some messageBatch => fold_left (processMessage now aid) messageBatch acc
  | None => acc
  end.

Definition collectMessages (now : Z) (connection : Connection) (aid : string)
    (startMessage endMessage : Z) (stats : Stats)
    : list Sqs.QueuePayload * Stats :=
  fold_left (processBatch now connection aid endMessage)
    (batchStarts startMessage endMessage) ([], stats).

(** The values taken by the counter of
    [for (let i = 0; i < messages.length; i += 10)]. *)
Definition sliceStarts (len : nat) : list nat :=
  List.map (fun k => (10 * k)%nat) (seq 0 ((len + 9) / 10)%nat).

(** [messages.slice(i, i + 10)] *)
Definition slice10 {A} (i : nat) (l : list A) : list A := take 10 (drop i l).

(** Sending slice after slice; the first rejection is rethrown. *)
Fixpoint sendSlices (now : Z) (queueUrl : string) (client : Sqs.Client)
    (messages : list Sqs.QueuePayload) (starts : list nat)
    (submitted : list Sqs.SendMessageBatchCommand)
    : list Sqs.SendMessageBatchCommand * Settled unit :=
  match starts with
  | [] => (submitted, Resolved tt)
  | i :: rest =>
      let batch := slice10 i messages in
      let '(commands, outcome) := Sqs.sendMessageBatch now queueUrl client batch in
      match outcome with
      | Resolved _ =>
          sendSlices now queueUrl client messages rest (submitted ++ commands)%list
      | Rejected err => ((submitted ++ commands)%list, Rejected err)
      end
  end.

Definition sendCollected (now : Z) (queueUrl : string) (client : Sqs.Client)
    (messages : list Sqs.QueuePayload)
    : list Sqs.SendMessageBatchCommand * Settled unit :=
  if (0 <? length messages)%nat then
    if (length messages <=? 10)%nat then
      let '(commands, outcome) :=
        Sqs.sendMessageBatch now queueUrl client messages in
      (commands,
       match outcome with
       | Resolved _ => Resolved tt
       | Rejected err => Rejected err
       end)
    else sendSlices now queueUrl client messages (sliceStarts (length messages)) []
  else ([], Resolved tt).

(** What a run of the worker leaves behind: its counters, the commands
    submitted to the sink, and how the call settled. *)
Record Run := mkRun {
  stats_after : Stats;
  submitted : list Sqs.SendMessageBatchCommand;
  outcome : Settled unit
}.

Definition processNewMessages (now : Z) (queueUrl : string)
    (client : Sqs.Client) (connection : Connection) (aid : string)
    (startMessage endMessage : Z) (stats : Stats) : Run :=
  let '(messages, stats) :=
    collectMessages now connection aid startMessage endMessage stats in
  let '(commands, outcome) := sendCollected now queueUrl client messages in
  mkRun stats commands outcome.

(** The two watermark placeholders. *)
Definition getLastProcessedCount (aid : string) : Z := 0.

Definition updateLastProcessedCount (aid : string) (count : Z) : unit := tt.

(** [executePollTask]; [acquired] is what [imapService.getConnection]
    settled with. *)
Definition executePollTask (now : Z) (queueUrl : string) (client : Sqs.Client)
    (acquired : Settled Connection) (aid : string) (stats : Stats) : Run :=
  match acquired with
  | Rejected err => mkRun stats [] (Rejected err)
  | Resolved connection =>
      if negb (isConnectionValid connection)
      then mkRun stats [] (Rejected "Connection is not valid or ready")
      else if negb (noop connection) && negb (connect connection)
      then mkRun stats [] (Rejected "connect failed")
      else if negb (getMailboxLock connection)
      then mkRun stats [] (Rejected "getMailboxLock failed")
      else
        match mailboxOpen connection with
        | None => mkRun stats [] (Rejected "mailboxOpen failed")
        | Some currentMessageCount =>
            let lastProcessedCount := getLastProcessedCount aid in
            if currentMessageCount >? lastProcessedCount then
              let run :=
                processNewMessages now queueUrl client connection aid
                  (lastProcessedCount + 1) currentMessageCount stats in
              match outcome run with
              | Resolved _ =>
                  let _ := updateLastProcessedCount aid currentMessageCount in
                  run
              | Rejected err => run
              end
            else mkRun stats [] (Resolved tt)
        end
  end.

(** The worker object: its message counters, its task counters and the
    shutdown flag. *)
Record Worker := mkImapWorker {
  worker_stats : Stats;
  tasksProcessed : Z;
  tasksFailed : Z;
  isShutdown : bool
}.

(** [new ImapWorker(workerId)] *)
Definition create : Worker := mkImapWorker (mkStats 0 0) 0 0 false.

(** [executeTask] on a task of type ['poll']: the poll runs, and the
    worker counts the task as processed or, when the poll throws, as
    failed before it rethrows. *)
Definition executeTask_poll (now : Z) (queueUrl : string) (client : Sqs.Client)
    (acquired : Settled Connection) (aid : string) (worker : Worker)
    : Worker * Run :=
  if isShutdown worker
  then (worker, mkRun (worker_stats worker) [] (Rejected "Worker is shutdown"))
  else
    let run :=
      executePollTask now queueUrl client acquired aid (worker_stats worker) in
    match outcome run with
    | Resolved _ =>
        (mkImapWorker (stats_after run) (tasksProcessed worker + 1)
           (tasksFailed worker) false, run)
    | Rejected error =>
        (mkImapWorker (stats_after run) (tasksProcessed worker)
           (tasksFailed worker + 1) false, run)
    end.

End ImapWorker.

(** ** The status store (supabase-database.service.ts, imap-service.ts) *)

Module StatusStore.

Inductive ConnectionStatus :=
| CONNECTING | CONNECTED | IDLE | DISCONNECTED | ERROR | RECONNECTING.

#[global] Instance ConnectionStatus_eq_dec : EqDecision ConnectionStatus.
Proof. solve_decision. Defined.

(** A row of [imap_connection_status]. *)
Record ImapConnectionStatus := mkStatus {
  emailAccountId : string;
  email : string;
  status : ConnectionStatus;
  connectionAttempts : Z;
  successfulConnections : Z;
  failedConnections : Z;
  emailsProcessed : Z;
  isActive : bool
}.

(** The store: its table, and the error (if any) its queries answer with. *)
Record Supabase := mkSupabase {
  imap_connection_status : list ImapConnectionStatus;
  failure : option string
}.

(** Query builder filters [.eq('isActive', v)] and [.in('status', vs)]. *)
Definition eq_isActive (v : bool) (rows : list ImapConnectionStatus) :=
  List.filter (fun r => Bool.eqb (isActive r) v) rows.

Definition in_status (vs : list ConnectionStatus) (rows : list ImapConnectionStatus) :=
  List.filter (fun r => bool_decide (status r ∈ vs)) rows.

(** [SupabaseDatabaseService.getAccountsNeedingReconnection] *)
Definition getAccountsNeedingReconnection (db : Supabase) : Settled (list string) :=
  match failure db with
  | Some err => Rejected err
  | None =>
      let data :=
        in_status [ERROR; DISCONNECTED]
          (eq_isActive true (imap_connection_status db)) in
      Resolved (List.map emailAccountId data)
  end.

(** [IMAPService.getAccountsNeedingReconnection]: the in-memory statuses,
    then the clients whose NOOP fails ([false]), then the store's answer
    without repeating an id.  A store error is only logged. *)
Definition inMemoryNeedingReconnection
    (connectionStatuses : list (string * ImapConnectionStatus)) : list string :=
  List.map fst
    (List.filter
       (fun e : string * ImapConnectionStatus =>
          (bool_decide (status e.2 = DISCONNECTED)
           || bool_decide (status e.2 = ERROR)) && isActive e.2)
       connectionStatuses).

Definition pushIfAbsent (acc : list string) (aid : string) : list string :=
  if bool_decide (aid ∈ acc) then acc else (acc ++ [aid])%list.

Definition IMAPService_getAccountsNeedingReconnection
    (connectionStatuses : list (string * ImapConnectionStatus))
    (clients : list (string * bool)) (db : Supabase) : list string :=
  let accountsToReconnect := inMemoryNeedingReconnection connectionStatuses in
  let accountsToReconnect :=
    (accountsToReconnect
     ++ List.map fst (List.filter (fun c : string * bool => negb c.2) clients))%list in
  match getAccountsNeedingReconnection db with
  | Resolved dbAccountIds => fold_left pushIfAbsent dbAccountIds accountsToReconnect
  | Rejected _ => accountsToReconnect
  end.

End StatusStore.

(** ** The scheduler's hand-over to the worker pool *)

Module Dispatch.

Import Scheduler.

(** The argument of [workerPool.addTask] in [executePoll]; [None] when
    [executePoll] returns before reaching the call. *)
Definition pollRequest (now : Z) (aid : string) (st : State)
    : option WorkerPool.TaskRequest :=
  match schedules st !! aid with
  | None => None
  | Some schedule =>
      if negb (isActive schedule) then None
      else
        Some {| WorkerPool.req_accountId := aid;
                WorkerPool.req_account := account schedule;
                WorkerPool.req_priority := priority schedule;
                WorkerPool.req_type := chooseTaskType now schedule;
                WorkerPool.req_maxRetries := 2 |}
  end.

(** [executePoll] run against the worker pool of the process: the task is
    enqueued by [WorkerPool.addTask], whose returned id is the outcome of
    the [try] block. *)
Definition executePoll (now : Z) (rnd : string) (aid : string)
    (sys : State * WorkerPool.Pool) : State * WorkerPool.Pool :=
  match pollRequest now aid sys.1 with
  | None => sys
  | Some request =>
      let '(taskId, pool) := WorkerPool.addTask now rnd request sys.2 in
      (Scheduler.executePoll now (Enqueued taskId) aid sys.1, pool)
  end.

Definition is_poll (op : Op) : bool :=
  match op with
  | OpExecutePoll _ _ => true
  | _ => false
  end.

(** The states of the scheduler with its worker pool attached: polls go
    through the pool, every other command acts on the scheduler alone,
    and the pool may change in between by its own operations. *)
Inductive reachable : State * WorkerPool.Pool -> Prop :=
| reachable_start maxW timeout :
    reachable (Scheduler.empty, WorkerPool.create maxW timeout)
| reachable_poll now rnd aid sys :
    reachable sys -> reachable (executePoll now rnd aid sys)
| reachable_control now op sys :
    is_poll op = false ->
    reachable sys -> reachable (Scheduler.step now op sys.1, sys.2)
| reachable_pool sys pool :
    reachable sys -> reachable (sys.1, pool).

End Dispatch.

(** ** The process: the scheduler, its worker pool and an IMAP worker *)

Module Process.

Record World := mkWorld {
  scheduler : Scheduler.State;
  workerPool : WorkerPool.Pool;
  imapWorker : ImapWorker.Worker
}.

(** What happens in the process.  A command is a call of one of the
    scheduler's public methods ([OpExecutePoll] stands for the private
    [executePoll] and does nothing as a command); a tick is a firing timer
    or a due entry of the sweep, which runs [executePoll] against the
    worker pool; the pool changes by its own operations; and the worker
    executes a poll task.
    The worker module imports the scheduler, and of its three kinds of
    task only the IDLE task calls it ([handleIdleTaskCompletion], a
    command here): nothing on the path of a poll task does, and the
    events that the pool emits when a task ends have no listener.  So
    the poll task acts on the worker alone. *)
Inductive Event :=
| Command (op : Scheduler.Op)
| Tick (rnd : string) (aid : string)
| PoolTurn (pool : WorkerPool.Pool)
| PollTask (queueUrl : string) (client : Sqs.Client)
    (acquired : Settled ImapWorker.Connection) (aid : string).

Definition step (now : Z) (ev : Event) (w : World) : World :=
  match ev with
  | Command op =>
      if Dispatch.is_poll op then w
      else mkWorld (Scheduler.step now op (scheduler w)) (workerPool w) (imapWorker w)
  | Tick rnd aid =>
      let '(st, pool) :=
        Dispatch.executePoll now rnd aid (scheduler w, workerPool w) in
      mkWorld st pool (imapWorker w)
  | PoolTurn pool => mkWorld (scheduler w) pool (imapWorker w)
  | PollTask queueUrl client acquired aid =>
      mkWorld (scheduler w) (workerPool w)
        (ImapWorker.executeTask_poll now queueUrl client acquired aid
           (imapWorker w)).1
  end.

Fixpoint run (trace : list (Z * Event)) (w : World) : World :=
  match trace with
  | [] => w
  | (now, ev) :: rest => run rest (step now ev w)
  end.


End Process.

(** ** The worker pool: how a started task ends *)

Module WorkerPoolRun.

Import WorkerPool.

Definition set_tasksProcessed (v : Z) (w : WorkerStats) :=
  let 'mkWorker a b _ d e f g h := w in mkWorker a b v d e f g h.
Definition set_tasksFailed (v : Z) (w : WorkerStats) :=
  let 'mkWorker a b c _ e f g h := w in mkWorker a b c v e f g h.

Definition set_retryCount (v : Z) (t : WorkerTask) :=
  let 'mkTask a b c d e f _ h := t in mkTask a b c d e f v h.
Definition set_createdAt (v : Z) (t : WorkerTask) :=
  let 'mkTask a b c d e _ g h := t in mkTask a b c d e v g h.

(** The bookkeeping of [executeTask] once the awaited task has settled
    ([failed] tells the [catch] block from the [try] block).  [worker] is
    the object fetched when the task started; entries of [workers] are never
    replaced or deleted, so it is the one stored under [wid]. *)
Definition workerDone (failed : bool) (wid : string) (pool : Pool) : Pool :=
  match get_worker wid (workers pool) with
  | None => pool
  | Some worker =>
      let worker :=
        if failed then set_tasksFailed (tasksFailed worker + 1) worker
        else set_tasksProcessed (tasksProcessed worker + 1) worker in
      let worker := set_status st_idle worker in
      let worker := set_currentTask None worker in
      let pool := set_workers (put_worker wid worker (workers pool)) pool in
      set_activeWorkers (activeWorkers pool - 1) pool
  end.

(** The retry decision of the [catch] block: the delay of the timer to set
    and the task with its count raised, or nothing when the budget is
    spent. *)
Definition retryOf (now : Z) (task : WorkerTask) : option (Z * WorkerTask) :=
  if retryCount task <? maxRetries task then
    let task := set_retryCount (retryCount task + 1) task in
    let task := set_createdAt now task in
    let backoffDelay := Z.min (1000 * 2 ^ retryCount task) 30000 in
    Some (backoffDelay, task)
  else None.

(** The callback of the retry timer. *)
Definition retryTimerFired (now : Z) (task : WorkerTask) (pool : Pool) : Pool :=
  processNextTask now (set_taskQueue (task :: taskQueue pool) pool).

(** The call [executeTask(availableWorker, task)] that [processNextTask]
    makes on [pool], when it makes one that gets past [if (!worker) return]. *)
Definition dispatch (pool : Pool) : option (string * WorkerTask) :=
  if (Nat.eqb (length (taskQueue pool)) 0) || (activeWorkers pool >=? maxWorkers pool)
  then None
  else
    match taskQueue pool with
    | [] => None
    | task :: _ =>
        match findAvailableWorker (workers pool) with
        | None => None
        | Some wid =>
            match get_worker wid (workers pool) with
            | None => None
            | Some _ => Some (wid, task)
            end
        end
    end.

(** The pool together with what is pending outside it: the executions
    awaiting their task, and the retry timers (set at, delay, task). *)
Record Sys := mkSys {
  pool : Pool;
  running : list (string * WorkerTask);
  retryTimers : list (Z * Z * WorkerTask)
}.

Inductive Event :=
| EvAddTask (rnd : string) (request : TaskRequest)
| EvHealthCheck
| EvResolved (i : nat)
| EvRejected (i : nat)
| EvRetryTimer (i : nat).

Definition option_list {A} (o : option A) : list A :=
  match o with Some a => [a] | None => [] end.

(** [processNextTask], recording the execution it starts. *)
Definition next (now : Z) (p : Pool) (run : list (string * WorkerTask))
    (timers : list (Z * Z * WorkerTask)) : Sys :=
  mkSys (processNextTask now p) (run ++ option_list (dispatch p)) timers.

(** One turn of the event loop at time [now]. *)
Definition step (now : Z) (ev : Event) (sys : Sys) : Sys :=
  match ev with
  | EvAddTask rnd request =>
      let fullTask := newTask now rnd request in
      next now (set_taskQueue (enqueue fullTask (taskQueue (pool sys))) (pool sys))
        (running sys) (retryTimers sys)
  | EvHealthCheck =>
      mkSys (performHealthCheck now (pool sys)) (running sys) (retryTimers sys)
  | EvResolved i =>
      match running sys !! i with
      | None => sys
      | Some (wid, _) =>
          next now (workerDone false wid (pool sys)) (delete i (running sys))
            (retryTimers sys)
      end
  | EvRejected i =>
      match running sys !! i with
      | None => sys
      | Some (wid, task) =>
          let timers :=
            match retryOf now task with
            | Some (backoffDelay, task) =>
                (retryTimers sys ++ [(now, backoffDelay, task)])%list
            | None => retryTimers sys
            end in
          next now (workerDone true wid (pool sys)) (delete i (running sys)) timers
      end
  | EvRetryTimer i =>
      match retryTimers sys !! i with
      | None => sys
      | Some (setAt, backoffDelay, task) =>
          if now <? setAt + backoffDelay then sys
          else
            next now (set_taskQueue (task :: taskQueue (pool sys)) (pool sys))
              (running sys) (delete i (retryTimers sys))
      end
  end.

Fixpoint run (evs : list (Z * Event)) (sys : Sys) : Sys :=
  match evs with
  | [] => sys
  | (now, ev) :: rest => run rest (step now ev sys)
  end.

(** A pool right after construction, with [ws] as its workers. *)
Definition boot (ws : list (string * WorkerStats)) (maxW timeout : Z) : Sys :=
  mkSys (mkPool ws [] 0 maxW timeout) [] [].

End WorkerPoolRun.

(** ** The in-memory store (memory-storage.ts): rate limiting *)

Module MemoryStorage.

Record RateEntry := mkRate {
  count : Z;
  resetTime : Z
}.

Definition rateKey (accountId : string) : string := "ratelimit:" ++ accountId.

(** [checkRateLimit]: the answer and the store afterwards.  [window] is in
    seconds. *)
Definition checkRateLimit (now : Z) (accountId : string) (limit window : Z)
    (rateLimitStore : gmap string RateEntry) : bool * gmap string RateEntry :=
  let key := rateKey accountId in
  match rateLimitStore !! key with
  | None =>
      (true, <[key := mkRate 1 (now + window * 1000)]> rateLimitStore)
  | Some current =>
      if now >? resetTime current then
        (true, <[key := mkRate 1 (now + window * 1000)]> rateLimitStore)
      else if count current >=? limit then (false, rateLimitStore)
      else
        (true, <[key := mkRate (count current + 1) (resetTime current)]> rateLimitStore)
  end.

Definition getRateLimitCount (accountId : string)
    (rateLimitStore : gmap string RateEntry) : Z :=
  match rateLimitStore !! rateKey accountId with
  | Some current => count current
  | None => 0
  end.

(** Calls of [checkRateLimit] for one account at the instants [times]. *)
Fixpoint checkRateLimits (times : list Z) (accountId : string) (limit window : Z)
    (rateLimitStore : gmap string RateEntry) : list bool * gmap string RateEntry :=
  match times with
  | [] => ([], rateLimitStore)
  | now :: rest =>
      let '(ok, rateLimitStore) :=
        checkRateLimit now accountId limit window rateLimitStore in
      let '(oks, rateLimitStore) :=
        checkRateLimits rest accountId limit window rateLimitStore in
      (ok :: oks, rateLimitStore)
  end.

End MemoryStorage.

(** ** The orchestrator (orchestrator.service.ts)

    The account registry of [OrchestratorService] and the calls it makes on
    the polling scheduler.  [pauseAccount] and [resumeAccount], which
    assign to the account object shared with the scheduler, are left
    out. *)

Module Orchestrator.

Record State := mkOrchestrator {
  accounts : gmap string EmailAccountsCredentials;
  accountPriorities : gmap string Priority;
  pollingScheduler : Scheduler.State
}.

Definition empty : State := mkOrchestrator ∅ ∅ Scheduler.empty.

(** [account.dailyLimit && account.dailyLimit > n] *)
Definition dailyLimit_above (n : Z) (acct : EmailAccountsCredentials) : bool :=
  match dailyLimit acct with
  | Some d => negb (d =? 0) && (d >? n)
  | None => false
  end.

Definition determineAccountPriority (acct : EmailAccountsCredentials) : Priority :=
  if dailyLimit_above 1000 acct then high
  else if dailyLimit_above 100 acct then medium
  else low.

Definition updateAccountPriority (now : Z) (aid : string) (newPriority : Priority)
    (st : State) : State :=
  match accounts st !! aid with
  | None => st
  | Some _ =>
      mkOrchestrator (accounts st) (<[aid := newPriority]> (accountPriorities st))
        (Scheduler.updateAccountPriority now aid newPriority (pollingScheduler st))
  end.

Definition addAccount (now : Z) (acct : EmailAccountsCredentials) (st : State)
    : State :=
  let priority := determineAccountPriority acct in
  mkOrchestrator (<[id acct := acct]> (accounts st))
    (<[id acct := priority]> (accountPriorities st))
    (if acc_isActive acct
     then Scheduler.addAccount now acct priority (pollingScheduler st)
     else pollingScheduler st).

Definition removeAccount (aid : string) (st : State) : State :=
  match accounts st !! aid with
  | None => st
  | Some _ =>
      mkOrchestrator (delete aid (accounts st)) (delete aid (accountPriorities st))
        (Scheduler.removeAccount aid (pollingScheduler st))
  end.

(** The priority that [updateAccountVolume] derives from a message count. *)
Definition priorityOfVolume (emailCount : Z) : Priority :=
  if emailCount >? 1000 then high
  else if emailCount >? 100 then medium
  else low.

Definition updateAccountVolume (now : Z) (aid : string) (emailCount : Z)
    (st : State) : State :=
  match accounts st !! aid with
  | None => st
  | Some _ =>
      let st :=
        mkOrchestrator (accounts st) (accountPriorities st)
          (Scheduler.updateAccountVolume now aid emailCount (pollingScheduler st)) in
      let newPriority := priorityOfVolume emailCount in
      let currentPriority := accountPriorities st !! aid in
      if decide (Some newPriority = currentPriority) then st
      else updateAccountPriority now aid newPriority st
  end.

(** The account figures of [getStats]. *)
Record AccountStats := mkAccountStats {
  totalAccounts : Z;
  activeAccounts : Z;
  pausedAccounts : Z;
  failedAccounts : Z
}.

Definition getStats_accounts (st : State) : AccountStats :=
  let accounts := (map_to_list (accounts st)).*2 in
  let activeAccounts := List.filter acc_isActive accounts in
  let failedAccounts :=
    Z.of_nat (length (List.filter (fun a => negb (acc_isActive a)) accounts)) in
  {| totalAccounts := Z.of_nat (length accounts);
     activeAccounts := Z.of_nat (length activeAccounts);
     pausedAccounts :=
       Z.of_nat (length accounts) - Z.of_nat (length activeAccounts) - failedAccounts;
     failedAccounts := failedAccounts |}.

Inductive Op :=
| OpAddAccount (acct : EmailAccountsCredentials)
| OpRemoveAccount (aid : string)
| OpUpdateAccountPriority (aid : string) (newPriority : Priority)
| OpUpdateAccountVolume (aid : string) (emailCount : Z).

Definition step (now : Z) (op : Op) (st : State) : State :=
  match op with
  | OpAddAccount acct => addAccount now acct st
  | OpRemoveAccount aid => removeAccount aid st
  | OpUpdateAccountPriority aid p => updateAccountPriority now aid p st
  | OpUpdateAccountVolume aid n => updateAccountVolume now aid n st
  end.

Inductive reachable : State -> Prop :=
| reachable_empty : reachable empty
| reachable_step now op st : reachable st -> reachable (step now op st).

End Orchestrator.

(** ** The IMAP service (imap-service.ts): connection status records *)

Module ImapService.

Import StatusStore.

(** [ImapConnectionStatus] (types/index.ts); an absent optional member is
    [None]. *)
Record StatusRecord := mkRecord {
  rec_id : string;
  rec_emailAccountId : string;
  rec_email : string;
  rec_status : ConnectionStatus;
  lastConnectedAt : option Z;
  lastDisconnectedAt : option Z;
  lastErrorAt : option Z;
  lastErrorMessage : option string;
  rec_connectionAttempts : Z;
  rec_successfulConnections : Z;
  rec_failedConnections : Z;
  rec_emailsProcessed : Z;
  lastEmailProcessedAt : option Z;
  rec_isActive : bool;
  nextReconnectAttempt : option Z;
  createdAt : Z;
  updatedAt : Z
}.

(** A JavaScript [Map] in insertion order: [get] and [set]. *)
Fixpoint Map_get {A} (k : string) (m : list (string * A)) : option A :=
  match m with
  | [] => None
  | (k', v) :: r => if String.eqb k' k then Some v else Map_get k r
  end.

Fixpoint Map_set {A} (k : string) (v : A) (m : list (string * A))
    : list (string * A) :=
  match m with
  | [] => [(k, v)]
  | (k', v') :: r =>
      if String.eqb k' k then (k', v) :: r else (k', v') :: Map_set k v r
  end.

(** The status-specific assignments of the [switch]. *)
Definition applyStatus (now : Z) (status : ConnectionStatus)
    (errorMessage : option string) (r : StatusRecord) : StatusRecord :=
  let 'mkRecord i ea em st lc ld le lm att suc fl ep lep act nra cr up := r in
  match status with
  | CONNECTED =>
      mkRecord i ea em st (Some now) ld le lm (att + 1) (suc + 1) fl ep lep act nra cr up
  | DISCONNECTED =>
      mkRecord i ea em st lc (Some now) le lm att suc fl ep lep act nra cr up
  | ERROR =>
      mkRecord i ea em st lc ld (Some now) errorMessage (att + 1) suc (fl + 1) ep lep
        act nra cr up
  | IDLE => r
  | RECONNECTING =>
      mkRecord i ea em st lc ld le lm att suc fl ep lep act
        (Some (now + 5 * 60 * 1000)) cr up
  | CONNECTING => r
  end.

Definition set_status_updatedAt (now : Z) (status : ConnectionStatus)
    (r : StatusRecord) : StatusRecord :=
  let 'mkRecord i ea em _ lc ld le lm att suc fl ep lep act nra cr _ := r in
  mkRecord i ea em status lc ld le lm att suc fl ep lep act nra cr now.

(** [updateConnectionStatus], up to the write to the database (whose
    failure is only logged): the in-memory map afterwards and the record
    handed to the database. *)
Definition updateConnectionStatus (now : Z) (accountId : string)
    (status : ConnectionStatus) (email errorMessage : option string)
    (connectionStatuses : list (string * StatusRecord))
    : list (string * StatusRecord) * StatusRecord :=
  let statusRecord :=
    match Map_get accountId connectionStatuses with
    | Some statusRecord => statusRecord
    | None =>
        {| rec_id := accountId;
           rec_emailAccountId := accountId;
           rec_email := Js.or_default email "";
           rec_status := status;
           lastConnectedAt := None;
           lastDisconnectedAt := None;
           lastErrorAt := None;
           lastErrorMessage := None;
           rec_connectionAttempts := 0;
           rec_successfulConnections := 0;
           rec_failedConnections := 0;
           rec_emailsProcessed := 0;
           lastEmailProcessedAt := None;
           rec_isActive := true;
           nextReconnectAttempt := None;
           createdAt := now;
           updatedAt := now |}
    end in
  let statusRecord := set_status_updatedAt now status statusRecord in
  let statusRecord := applyStatus now status errorMessage statusRecord in
  (Map_set accountId statusRecord connectionStatuses, statusRecord).

(** [updateEmailProcessed] *)
Definition updateEmailProcessed (now : Z) (accountId : string)
    (connectionStatuses : list (string * StatusRecord))
    : list (string * StatusRecord) :=
  match Map_get accountId connectionStatuses with
  | Some statusRecord =>
      let 'mkRecord i ea em st lc ld le lm att suc fl ep lep act nra cr up :=
        statusRecord in
      let statusRecord :=
        mkRecord i ea em st lc ld le lm att suc fl (ep + 1) (Some now) act nra cr now in
      Map_set accountId statusRecord connectionStatuses
  | None => connectionStatuses
  end.

(** [healthCheck]: [clients] pairs each account with the outcome of its
    NOOP, [None] for success and [Some message] for the error thrown.  A
    failing client is marked [ERROR], the message going where the call
    puts it, in the [email] argument. *)
Definition noopSucceeds (client : string * option string) : bool :=
  match client.2 with None => true | Some _ => false end.

Definition markFailed (now : Z)
    (connectionStatuses : list (string * StatusRecord))
    (client : string * option string) : list (string * StatusRecord) :=
  match client.2 with
  | None => connectionStatuses
  | Some message =>
      (updateConnectionStatus now client.1 ERROR (Some message) None
         connectionStatuses).1
  end.

Definition healthCheck (now : Z) (clients : list (string * option string))
    (connectionStatuses : list (string * StatusRecord))
    : bool * list (string * StatusRecord) :=
  let totalConnections := length clients in
  if Nat.eqb totalConnections 0 then (false, connectionStatuses)
  else
    let healthyConnections := length (List.filter noopSucceeds clients) in
    ((0 <? healthyConnections)%nat,
     fold_left (markFailed now) clients connectionStatuses).

Inductive Op :=
| OpUpdateConnectionStatus (accountId : string) (status : ConnectionStatus)
    (email errorMessage : option string)
| OpUpdateEmailProcessed (accountId : string)
| OpHealthCheck (clients : list (string * option string)).

Definition step (now : Z) (op : Op)
    (connectionStatuses : list (string * StatusRecord))
    : list (string * StatusRecord) :=
  match op with
  | OpUpdateConnectionStatus accountId status email errorMessage =>
      (updateConnectionStatus now accountId status email errorMessage
         connectionStatuses).1
  | OpUpdateEmailProcessed accountId =>
      updateEmailProcessed now accountId connectionStatuses
  | OpHealthCheck clients =>
      (healthCheck now clients connectionStatuses).2
  end.

Inductive reachable : list (string * StatusRecord) -> Prop :=
| reachable_start : reachable []
| reachable_step now op m : reachable m -> reachable (step now op m).

End ImapService.

(** ** The connection manager (connection-manager.service.ts) *)

Module ConnectionManager.

(** [getServerHost]: the server group of an account. *)
Definition getServerHost (acct : EmailAccountsCredentials) : string :=
  let host := Js.toLowerCase (imapHost acct) in
  if Js.includes host "gmail.com" || Js.includes host "google" then "gmail.com"
  else if Js.includes host "outlook.com" || Js.includes host "office365.com"
  then "outlook.office365.com"
  else if Js.includes host "yahoo.com" then "imap.mail.yahoo.com"
  else if Js.includes host "mailscale" then "mailscale.com"
  else host.

End ConnectionManager.

(** ** The monitoring endpoint (monitoring.ts) and the queue's health check *)

Module Monitoring.

(** What [sqsClient.send(new GetQueueAttributesCommand(...))] settles
    with; [None] is a response without [Attributes]. *)
Definition AttributesResponse : Type := Settled (option (list (string * string))).

(** [getQueueAttributes] (aws-sqs.ts): an error is logged and answered
    with the empty object. *)
Definition getQueueAttributes (response : AttributesResponse)
    : Settled (list (string * string)) :=
  match response with
  | Resolved (Some attributes) => Resolved attributes
  | Resolved None => Resolved []
  | Rejected _ => Resolved []
  end.

(** [healthCheck] (aws-sqs.ts) *)
Definition sqsHealthCheck (response : AttributesResponse) : Settled bool :=
  match getQueueAttributes response with
  | Resolved _ => Resolved true
  | Rejected _ => Resolved false
  end.

Inductive Health := healthy | degraded | unhealthy.

(** A flag of [services]; [None] is [undefined]. *)
Record Services := mkServices {
  memory : option bool;
  sqs : option bool;
  imap : option bool;
  database : bool
}.

Record MetricFigures := mkFigures {
  activeConnections : Z;
  totalAccounts : Z;
  messagesProcessed : Z;
  queueDepth : Z;
  memoryUsage : Z;
  cpuUsage : Z
}.

Record HealthStatus := mkHealth {
  status : Health;
  timestamp : Z;
  services : Services;
  metrics : MetricFigures
}.

(** [check.status === 'fulfilled' && check.value] *)
Definition fulfilledValue (check : Settled bool) : bool :=
  match check with
  | Resolved value => value
  | Rejected _ => false
  end.

(** [!x] for a flag that may be [undefined] *)
Definition not_ (x : option bool) : bool :=
  match x with
  | Some b => negb b
  | None => true
  end.

(** [getHealthStatus]; [sqsCheck] and [imapCheck] are what
    [Promise.allSettled] gave for the two health checks, mapped and then
    destructured into three names; [figures] are the six numbers read from
    the services for [metrics]. *)
Definition getHealthStatus (now : Z) (sqsCheck imapCheck : Settled bool)
    (figures : MetricFigures) : HealthStatus :=
  let checks := List.map fulfilledValue [sqsCheck; imapCheck] in
  let memoryHealthy := checks !! 0%nat in
  let sqsHealthy := checks !! 1%nat in
  let imapHealthy := checks !! 2%nat in
  let status := healthy in
  let status :=
    if not_ memoryHealthy || not_ sqsHealthy || not_ imapHealthy
    then degraded else status in
  let status :=
    if not_ memoryHealthy && not_ sqsHealthy && not_ imapHealthy
    then unhealthy else status in
  {| status := status;
     timestamp := now;
     services :=
       {| memory := memoryHealthy; sqs := sqsHealthy; imap := imapHealthy;
          database := true |};
     metrics := figures |}.

(** The endpoint's status for given answers of the queue service and of
    the IMAP clients. *)
Definition reportedHealth (now : Z) (response : AttributesResponse)
    (clients : list (string * option string))
    (connectionStatuses : list (string * ImapService.StatusRecord))
    (figures : MetricFigures) : HealthStatus :=
  getHealthStatus now (sqsHealthCheck response)
    (Resolved (ImapService.healthCheck now clients connectionStatuses).1)
    figures.

End Monitoring.

(** * Properties of the scheduler *)

Module SchedulerFacts.

Import Scheduler.

(** ** Invariants of the schedule entries *)

Definition entries (P : PollingSchedule -> Prop) (st : State) : Prop :=
  map_Forall (fun _ s => P s) (schedules st).

Lemma schedules_scheduleNextPoll now aid st :
  schedules (scheduleNextPoll now aid st) = schedules st.
Proof.
  unfold scheduleNextPoll.
  destruct (schedules st !! aid) as [s|]; [|done].
  by destruct (isActive s).
Qed.

Section Entries.

Variable P : PollingSchedule -> Prop.

Lemma entries_empty : entries P Scheduler.empty.
Proof. unfold entries; simpl. apply map_Forall_empty. Qed.

Lemma entries_store aid s st :
  entries P st -> P s -> entries P (store aid s st).
Proof. intros Hst Hs. unfold entries, store; simpl. by apply map_Forall_insert_2. Qed.

Lemma entries_scheduleNextPoll now aid st :
  entries P st -> entries P (scheduleNextPoll now aid st).
Proof. unfold entries. by rewrite schedules_scheduleNextPoll. Qed.

Lemma entries_removeAccount aid st :
  entries P st -> entries P (removeAccount aid st).
Proof. intros Hst. unfold entries, removeAccount; simpl. by apply map_Forall_delete. Qed.

Lemma entries_lookup st aid s :
  entries P st -> schedules st !! aid = Some s -> P s.
Proof. intros Hst Hs. exact (Hst aid s Hs). Qed.

End Entries.

Ltac break_schedule :=
  repeat match goal with
  | s : PollingSchedule |- _ => destruct s
  end; simpl in *.

(** Walk through the body of an operation; [tac] settles the obligation
    on each rewritten entry. *)
Ltac entries_step tac :=
  repeat first
    [ assumption
    | apply entries_scheduleNextPoll
    | apply entries_store
    | match goal with
      | |- entries _ (if ?b then _ else _) => destruct b eqn:?
      | |- entries _ (match ?x with _ => _ end) => destruct x eqn:?
      | |- entries _ _ => fail 1
      | |- _ => tac
      end ].

Ltac open_entry P st aid Hst :=
  let s := fresh "s" in
  let Hs := fresh "Hs" in
  destruct (schedules st !! aid) as [s|] eqn:Hs; [|done];
  pose proof (entries_lookup P _ _ _ Hst Hs).

(** Every schedule is created by [addAccount] with both failure limits set
    to 3, and no operation assigns them afterwards; the two failure
    counters start at 0 and are only incremented or reset, so the powers of
    two in the backoff delays have natural exponents. *)
Definition limits_ok (s : PollingSchedule) : Prop :=
  maxFailures s = 3 /\ maxIdleFailures s = 3 /\
  0 <= consecutiveFailures s /\ 0 <= idleFailures s.

Ltac limits_tac :=
  break_schedule; unfold limits_ok in *; simpl in *;
  repeat case_match; simpl; lia.

Lemma limits_handleAccountFailure now aid st :
  entries limits_ok st -> entries limits_ok (handleAccountFailure now aid st).
Proof.
  intros Hst. unfold handleAccountFailure.
  open_entry limits_ok st aid Hst. entries_step limits_tac.
Qed.

Lemma limits_step now op st :
  entries limits_ok st -> entries limits_ok (step now op st).
Proof.
  intros Hst. destruct op; simpl.
  - unfold addAccount. apply entries_scheduleNextPoll, entries_store.
    + by apply entries_removeAccount.
    + unfold limits_ok; simpl. lia.
  - by apply entries_removeAccount.
  - unfold executePoll. open_entry limits_ok st aid Hst.
    destruct (negb (isActive s)); [done|].
    destruct outcome.
    + entries_step limits_tac.
    + unfold executePoll_catch.
      match goal with
      | |- entries _ (if ?b then _ else _) => destruct b
      end.
      * apply limits_handleAccountFailure. entries_step limits_tac.
      * entries_step limits_tac.
  - unfold updateAccountVolume. open_entry limits_ok st aid Hst.
    entries_step limits_tac.
  - unfold updateAccountPriority. open_entry limits_ok st aid Hst.
    entries_step limits_tac.
  - unfold pauseAccount. open_entry limits_ok st aid Hst.
    unfold entries; simpl. apply map_Forall_insert_2; [|done]. limits_tac.
  - unfold resumeAccount. open_entry limits_ok st aid Hst.
    entries_step limits_tac.
  - unfold handleIdleTaskCompletion. open_entry limits_ok st aid Hst.
    entries_step limits_tac.
  - unfold setIdleEnabled. open_entry limits_ok st aid Hst.
    entries_step limits_tac.
  - apply entries_empty.
Qed.

Lemma reachable_limits st : reachable st -> entries limits_ok st.
Proof.
  induction 1 as [|now op st _ IH].
  - apply entries_empty.
  - by apply limits_step.
Qed.

(** IDLE gating: [idleEnabled] only where [supportsIdle]. *)
Definition idle_gated (s : PollingSchedule) : Prop :=
  idleEnabled s = true -> supportsIdle s = true.

Ltac gated_tac :=
  break_schedule; unfold idle_gated in *; simpl in *;
  repeat case_match; simpl in *;
  repeat match goal with
  | b : bool |- _ => destruct b
  end; simpl in *; intuition congruence.

Lemma gated_handleAccountFailure now aid st :
  entries idle_gated st -> entries idle_gated (handleAccountFailure now aid st).
Proof.
  intros Hst. unfold handleAccountFailure.
  open_entry idle_gated st aid Hst. entries_step gated_tac.
Qed.

(** Every operation keeps the gating, with one exception: a success report
    from an IDLE task. *)
Lemma gated_step now op st :
  (forall aid, op <> OpHandleIdleTaskCompletion aid true) ->
  entries idle_gated st -> entries idle_gated (step now op st).
Proof.
  intros Hop Hst. destruct op; simpl.
  - unfold addAccount. apply entries_scheduleNextPoll, entries_store.
    + by apply entries_removeAccount.
    + unfold idle_gated; simpl. tauto.
  - by apply entries_removeAccount.
  - unfold executePoll. open_entry idle_gated st aid Hst.
    destruct (negb (isActive s)); [done|].
    destruct outcome.
    + entries_step gated_tac.
    + unfold executePoll_catch.
      match goal with
      | |- entries _ (if ?b then _ else _) => destruct b
      end.
      * apply gated_handleAccountFailure. entries_step gated_tac.
      * entries_step gated_tac.
  - unfold updateAccountVolume. open_entry idle_gated st aid Hst.
    entries_step gated_tac.
  - unfold updateAccountPriority. open_entry idle_gated st aid Hst.
    entries_step gated_tac.
  - unfold pauseAccount. open_entry idle_gated st aid Hst.
    unfold entries; simpl. apply map_Forall_insert_2; [|done]. gated_tac.
  - unfold resumeAccount. open_entry idle_gated st aid Hst.
    entries_step gated_tac.
  - destruct success; [by destruct (Hop aid)|].
    unfold handleIdleTaskCompletion. open_entry idle_gated st aid Hst.
    entries_step gated_tac.
  - unfold setIdleEnabled. open_entry idle_gated st aid Hst.
    entries_step gated_tac.
  - apply entries_empty.
Qed.

(** The state after an operation that rewrites the entry of [aid] and then
    calls [scheduleNextPoll]. *)
Lemma lookup_store aid s st : schedules (store aid s st) !! aid = Some s.
Proof. unfold store; simpl. apply lookup_insert_eq. Qed.

Lemma lookup_store_scheduleNextPoll now aid s st :
  schedules (scheduleNextPoll now aid (store aid s st)) !! aid = Some s.
Proof. rewrite schedules_scheduleNextPoll. unfold store; simpl. apply lookup_insert_eq. Qed.

Lemma timer_store_scheduleNextPoll now aid s st :
  isActive s = true ->
  pollingTimers (scheduleNextPoll now aid (store aid s st)) !! aid
  = Some (now + Z.max 0 (nextPoll s - now)).
Proof.
  intros Hact. unfold scheduleNextPoll, store; simpl.
  rewrite lookup_insert_eq, Hact; simpl. apply lookup_insert_eq.
Qed.

Definition sample_account : EmailAccountsCredentials :=
  mkAccount "acc-1" "ann@example.org" "imap.gmail.com" 993 (Some 2000) true.

Definition sample_state : State :=
  run [(1000, OpAddAccount sample_account high)] Scheduler.empty.

Lemma sample_state_reachable : reachable sample_state.
Proof. apply (reachable_step 1000 (OpAddAccount sample_account high)), reachable_empty. Qed.

(** The first five ticks of a mailbox added at 1 s with a 60 s interval:
    four polls, then, more than 300 s after the entry was created, an IDLE
    attempt. *)
Definition idle_attempt_trace : list (Z * Op) :=
  [(1000, OpAddAccount sample_account high);
   (61000, OpExecutePoll "acc-1" (Enqueued "acc-1_61000_a"));
   (121000, OpExecutePoll "acc-1" (Enqueued "acc-1_121000_b"));
   (181000, OpExecutePoll "acc-1" (Enqueued "acc-1_181000_c"));
   (241000, OpExecutePoll "acc-1" (Enqueued "acc-1_241000_d"));
   (301000, OpExecutePoll "acc-1" (Enqueued "acc-1_301000_e"))].

(** C4 as stated fails: the IDLE attempt of 301 s is reported as failed at
    305 s.  The next service is set for 425 s, and the task chosen then is
    a poll, not an IDLE attempt: fewer than 300 s have passed since the
    last one. *)
Lemma idle_retry_is_a_poll :
  let attempted := run idle_attempt_trace Scheduler.empty in
  let reported := handleIdleTaskCompletion 305000 "acc-1" false attempted in
  (exists s,
     schedules attempted !! "acc-1" = Some s /\
     lastIdleAttempt s = 301000 /\ idleEnabled s = true /\ idleFailures s = 0) /\
  (exists s,
     schedules reported !! "acc-1" = Some s /\
     idleFailures s = 1 /\ idleEnabled s = true /\
     nextPoll s = 305000 + Z.min (60000 * 2 ^ 1) 300000) /\
  pollingTimers reported !! "acc-1" = Some 425000 /\
  option_map WorkerPool.req_type (Dispatch.pollRequest 425000 "acc-1" reported)
  = Some poll.
Proof.
  cbv zeta. split; [|split; [|split]].
  - eexists. split; [vm_compute; reflexivity|]. by repeat split.
  - eexists. split; [vm_compute; reflexivity|]. by repeat split.
  - vm_compute. reflexivity.
  - vm_compute. reflexivity.
Qed.

(** C4, amended: on an [idle_failed] report for a scheduled mailbox,
    [idleFailures] grows by one.  When it has then reached 3, IDLE is
    switched off and the next service is due 30 s later; it is a poll.
    Otherwise [idleEnabled] is left alone and the next service is due
    after [min (60 s * 2^idleFailures, 300 s)]; the task chosen for a
    service at instant [t] is an IDLE attempt when IDLE is enabled and
    supported and more than 300 s lie between [t] and the last IDLE
    attempt, and a poll otherwise -- right after the report, and in
    whatever state the scheduler is when the service comes.  For an
    active entry the per-account timer is armed for the due instant. *)
Theorem idle_failed_backoff now aid st s :
  reachable st ->
  schedules st !! aid = Some s ->
  let st' := handleIdleTaskCompletion now aid false st in
  (exists s',
    schedules st' !! aid = Some s' /\
    idleFailures s' = idleFailures s + 1 /\
    0 < idleFailures s' /\
    (3 <= idleFailures s' ->
       idleEnabled s' = false /\
       nextPoll s' = now + 30000 /\
       (isActive s = true ->
        pollingTimers st' !! aid = Some (now + 30000) /\
        forall t,
          option_map WorkerPool.req_type (Dispatch.pollRequest t aid st')
          = Some poll)) /\
    (idleFailures s' < 3 ->
       idleEnabled s' = idleEnabled s /\
       nextPoll s' = now + Z.min (60000 * 2 ^ idleFailures s') 300000 /\
       (isActive s = true ->
        pollingTimers st' !! aid
        = Some (now + Z.min (60000 * 2 ^ idleFailures s') 300000) /\
        forall t,
          option_map WorkerPool.req_type (Dispatch.pollRequest t aid st')
          = Some (if idleEnabled s && supportsIdle s
                     && (t - lastIdleAttempt s >? 300000)
                  then idle else poll)))) /\
  (forall t later entry,
     schedules later !! aid = Some entry ->
     isActive entry = true ->
     option_map WorkerPool.req_type (Dispatch.pollRequest t aid later)
     = Some (if idleEnabled entry && supportsIdle entry
                && (t - lastIdleAttempt entry >? 300000)
             then idle else poll)).
Proof.
  intros Hreach Hs. cbv zeta. split; cycle 1.
  { intros t later entry Hentry Hact. unfold Dispatch.pollRequest.
    rewrite Hentry, Hact. simpl. unfold chooseTaskType.
    destruct (idleEnabled entry && supportsIdle entry); simpl; [|done].
    by destruct (t - lastIdleAttempt entry >? 300000). }
  destruct (entries_lookup _ _ _ _ (reachable_limits _ Hreach) Hs)
    as (_ & Hmax & _ & Hfails).
  unfold Dispatch.pollRequest, handleIdleTaskCompletion. rewrite Hs.
  destruct s as [a b c d e f g h i j act sup en att fails mx]; simpl in *. subst mx.
  destruct (fails + 1 >=? 3) eqn:Hcmp.
  - eexists. split; [apply lookup_store_scheduleNextPoll|]. simpl.
    split; [done|]. split; [lia|]. split; [|lia].
    intros _. split; [done|]. split; [done|].
    intros ->. rewrite timer_store_scheduleNextPoll by done. simpl.
    split; [f_equal; lia|].
    intros t. rewrite lookup_store_scheduleNextPoll. reflexivity.
  - eexists. split; [apply lookup_store_scheduleNextPoll|]. simpl.
    split; [done|]. split; [lia|]. split; [lia|].
    intros _. split; [done|]. split; [done|].
    intros ->. rewrite timer_store_scheduleNextPoll by done. simpl.
    split.
    + f_equal.
      assert (0 <= 2 ^ (fails + 1)) by apply Z.pow_nonneg, Z.le_0_2. lia.
    + intros t. rewrite lookup_store_scheduleNextPoll. simpl.
      unfold chooseTaskType; simpl.
      destruct (en && sup); simpl; [|done].
      by destruct (t - att >? 300000).
Qed.

Lemma idle_failed_backoff_witness :
  exists s',
    schedules (handleIdleTaskCompletion 5000 "acc-1" false sample_state) !! "acc-1"
    = Some s' /\ idleFailures s' = 1 /\ nextPoll s' = 5000 + 120000 /\
    option_map WorkerPool.req_type
      (Dispatch.pollRequest 125000 "acc-1"
         (handleIdleTaskCompletion 5000 "acc-1" false sample_state))
    = Some poll /\
    option_map WorkerPool.req_type
      (Dispatch.pollRequest 425000 "acc-1"
         (handleIdleTaskCompletion 5000 "acc-1" false sample_state))
    = Some idle.
Proof.
  destruct (idle_failed_backoff 5000 "acc-1" sample_state
              (mkSchedule "acc-1" sample_account high 60000 0 61000 lowVolume
                 1.0%float 0 3 true true true 0 0 3)
              sample_state_reachable)
    as [(s' & Hs' & Hf & _ & _ & Hlt) _].
  - reflexivity.
  - exists s'. split; [exact Hs'|]. split; [exact Hf|].
    destruct Hlt as (_ & Hn & Htick); [rewrite Hf; simpl; lia|].
    split; [rewrite Hn, Hf; reflexivity|].
    destruct (Htick eq_refl) as [_ Htype].
    split; rewrite Htype; reflexivity.
Defined.




(** A mailbox on a deny-listed host, and the run that breaks the gating. *)
Definition denied_account : EmailAccountsCredentials :=
  mkAccount "acc-2" "bob@example.org" "imap.mailscale.com" 993 None true.

Definition ungated_trace : list (Z * Op) :=
  [(1000, OpAddAccount denied_account medium);
   (2000, OpHandleIdleTaskCompletion "acc-2" true)].

(** C8 (the code departs from it): after [addAccount] for a host without
    IDLE support, a success report through [handleIdleTaskCompletion] sets
    [idleEnabled] although [supportsIdle] is false. *)
Theorem idle_enabled_without_support :
  reachable_by_idle_ops (run ungated_trace Scheduler.empty) /\
  exists s,
    schedules (run ungated_trace Scheduler.empty) !! "acc-2" = Some s /\
    idleEnabled s = true /\ supportsIdle s = false.
Proof.
  split.
  - unfold ungated_trace; simpl.
    apply (idle_ops_step 2000 (OpHandleIdleTaskCompletion "acc-2" true)); [done|].
    apply (idle_ops_step 1000 (OpAddAccount denied_account medium)); [done|].
    apply idle_ops_empty.
  - eexists. split; [vm_compute; reflexivity|]. split; reflexivity.
Qed.

End SchedulerFacts.

(** * Properties of the worker pool *)

Module WorkerPoolFacts.

Import WorkerPool.

Lemma findIndex_None {A} (p : A -> bool) l :
  findIndex p l = None -> Forall (fun x => p x = false) l.
Proof.
  induction l as [|x l IH]; simpl; [constructor|].
  destruct (p x) eqn:Hp; [discriminate|].
  destruct (findIndex p l); [discriminate|].
  intros _. constructor; auto.
Qed.

Lemma findIndex_Some {A} (p : A -> bool) l i :
  findIndex p l = Some i ->
  Forall (fun x => p x = false) (take i l) /\
  exists x, drop i l = x :: drop (S i) l /\ p x = true.
Proof.
  revert i. induction l as [|x l IH]; simpl; [discriminate|].
  intros i. destruct (p x) eqn:Hp.
  - intros [= <-]. simpl. split; [constructor|]. exists x. by rewrite drop_0.
  - destruct (findIndex p l) as [j|]; [|discriminate].
    intros [= <-]. destruct (IH j eq_refl) as (Hpre & y & Hy & Hpy).
    simpl. split; [by constructor|]. by exists y.
Qed.

(** Where [enqueue] puts the task: behind every queued task whose priority
    is at least its own, in front of the first one of lower priority. *)
Lemma enqueue_position t queue :
  exists before after,
    queue = (before ++ after)%list /\
    enqueue t queue = (before ++ t :: after)%list /\
    Forall (fun x => getPriorityWeight (priority t) <= getPriorityWeight (priority x))
      before /\
    match after with
    | [] => True
    | x :: _ => getPriorityWeight (priority x) < getPriorityWeight (priority t)
    end.
Proof.
  unfold enqueue.
  destruct (findIndex _ queue) as [i|] eqn:Hidx.
  - apply findIndex_Some in Hidx as (Hpre & x & Hx & Hpx).
    exists (take i queue), (drop i queue).
    split; [by rewrite take_drop|]. split; [done|]. split.
    + eapply Forall_impl; [exact Hpre|]. simpl. intros y Hy. lia.
    + rewrite Hx. lia.
  - apply findIndex_None in Hidx.
    exists queue, []. split; [by rewrite app_nil_r|]. split; [done|]. split; [|done].
    eapply Forall_impl; [exact Hidx|]. simpl. intros y Hy. lia.
Qed.

Lemma enqueue_length t queue : length (enqueue t queue) = S (length queue).
Proof.
  destruct (enqueue_position t queue) as (b & a & -> & -> & _).
  rewrite !length_app. simpl. lia.
Qed.

Lemma enqueue_elem t queue : t ∈ enqueue t queue.
Proof.
  destruct (enqueue_position t queue) as (b & a & _ & -> & _).
  apply elem_of_app. right. apply elem_of_cons. by left.
Qed.

Lemma findAvailableWorker_get ws wid :
  findAvailableWorker ws = Some wid -> exists w, get_worker wid ws = Some w.
Proof.
  induction ws as [|[k v] ws IH]; simpl; [discriminate|].
  destruct (is_idle (status v)).
  - intros [= ->]. rewrite String.eqb_refl. by exists v.
  - intros H. destruct (String.eqb k wid); [by exists v|]. by apply IH.
Qed.

Lemma get_put_worker wid w ws v :
  get_worker wid ws = Some v -> get_worker wid (put_worker wid w ws) = Some w.
Proof.
  induction ws as [|[k u] ws IH]; simpl; [discriminate|].
  destruct (String.eqb k wid) eqn:Hk; simpl; rewrite Hk; auto.
Qed.

(** What [processNextTask] does to the queue: nothing, or its head goes to
    a worker. *)
Lemma processNextTask_queue now pool :
  taskQueue (processNextTask now pool) = taskQueue pool \/
  exists task rest wid w,
    taskQueue pool = task :: rest /\
    taskQueue (processNextTask now pool) = rest /\
    get_worker wid (workers (processNextTask now pool)) = Some w /\
    currentTask w = Some task /\ status w = st_busy /\
    activeWorkers (processNextTask now pool) = activeWorkers pool + 1.
Proof.
  unfold processNextTask.
  destruct (_ || _); [by left|].
  destruct pool as [ws q act mx tmo]; simpl.
  destruct q as [|task rest]; [by left|]. simpl.
  destruct (findAvailableWorker ws) as [wid|] eqn:Hfind; [|by left].
  destruct (findAvailableWorker_get _ _ Hfind) as [w Hw].
  right. exists task, rest, wid.
  unfold executeTask_start; simpl. rewrite Hw; simpl.
  eexists. split; [done|]. split; [done|].
  split; [eapply get_put_worker; exact Hw|].
  destruct w; simpl. done.
Qed.

Definition sample_request : TaskRequest :=
  mkRequest "acc-1"
    (mkAccount "acc-1" "ann@example.org" "imap.gmail.com" 993 (Some 2000) true)
    medium poll 2.

Definition queued_task : WorkerTask := newTask 1 "k3j9x0q2a" sample_request.

(** A pool whose queue holds [taskQueueSize] tasks. *)
Definition full_pool : Pool :=
  set_taskQueue
    (repeat queued_task (Z.to_nat (Config.taskQueueSize Config.workerPool)))
    (create (Config.maxWorkers Config.workerPool)
            (Config.workerTimeout Config.workerPool)).

(** C6 as stated fails: with [taskQueueSize] tasks queued, [addTask] still
    returns a task id and the queue holds one task more. *)
Lemma addTask_on_full_queue :
  Z.of_nat (length (taskQueue full_pool)) = Config.taskQueueSize Config.workerPool /\
  (addTask 2 "p0o9i8u7y" sample_request full_pool).1 = "acc-1_2_p0o9i8u7y" /\
  Z.of_nat (length (taskQueue (addTask 2 "p0o9i8u7y" sample_request full_pool).2))
  = Config.taskQueueSize Config.workerPool + 1.
Proof. vm_compute. done. Qed.

(** C6, amended: [addTask] never rejects.  Whatever the queue length it
    returns the id of the new task and inserts the task directly in front
    of the first queued task of strictly lower priority, at the end when
    there is none; every task in front of the new one has the same or a
    higher priority, and the queue grows by one.  Afterwards the queue is
    the enlarged one, or its tail when a free worker took the head at
    once. *)
Theorem addTask_always_enqueues now rnd task pool :
  let t := newTask now rnd task in
  let queue := enqueue t (taskQueue pool) in
  let result := addTask now rnd task pool in
  result.1 = task_id t /\
  (exists before after,
     taskQueue pool = (before ++ after)%list /\
     queue = (before ++ t :: after)%list /\
     Forall (fun x => getPriorityWeight (priority t) <= getPriorityWeight (priority x))
       before /\
     match after with
     | [] => True
     | x :: _ => getPriorityWeight (priority x) < getPriorityWeight (priority t)
     end) /\
  t ∈ queue /\
  length queue = S (length (taskQueue pool)) /\
  (taskQueue result.2 = queue \/
   exists head rest wid w,
     queue = head :: rest /\ taskQueue result.2 = rest /\
     get_worker wid (workers result.2) = Some w /\ currentTask w = Some head).
Proof.
  intros t queue result. unfold result, addTask. simpl.
  split; [done|]. split; [apply enqueue_position|].
  split; [apply enqueue_elem|]. split; [apply enqueue_length|].
  fold t. fold queue.
  destruct (processNextTask_queue now (set_taskQueue queue pool))
    as [Hsame | (head & rest & wid & w & Hq & Hrest & Hw & Hcur & _)].
  - left. rewrite Hsame. by destruct pool.
  - right. exists head, rest, wid, w. split; [|done].
    rewrite <- Hq. by destruct pool.
Qed.

(** [performHealthCheck] never touches the queue: the reset clears
    [currentTask] before it is tested. *)
Lemma resetIfStuck_taskQueue now pool entry :
  taskQueue (resetIfStuck now pool entry) = taskQueue pool.
Proof.
  unfold resetIfStuck. destruct entry as [wid worker].
  destruct (_ && _); [|done].
  destruct worker; simpl. by destruct pool.
Qed.

Lemma performHealthCheck_taskQueue now pool :
  taskQueue (performHealthCheck now pool) = taskQueue pool.
Proof.
  unfold performHealthCheck.
  generalize (workers pool) as ws. intros ws. revert pool.
  induction ws as [|e ws IH]; intros pool; simpl; [done|].
  rewrite IH. apply resetIfStuck_taskQueue.
Qed.



End WorkerPoolFacts.

(** * Properties of the queue sink *)

Module SqsFacts.

Import Sqs.

(** The nine attribute names, in the order of the object literal. *)
Definition attributeNames : list string :=
  ["MessageType"; "AccountId"; "OriginalMessageId"; "InternalMessageId";
   "ThreadId"; "IsReply"; "HasTextContent"; "TextLength"; "Timestamp"].

Lemma messageAttributes_names payload :
  List.map fst (messageAttributes payload) = attributeNames.
Proof. reflexivity. Qed.

(** The single-message path carries both FIFO keys and the nine attributes. *)
Lemma sendMessage_command_keys now queueUrl payload :
  Js.truthy (accountId (data payload)) = true ->
  let command := sendMessage_command now queueUrl payload in
  MessageGroupId command = Some (accountId (data payload)) /\
  MessageDeduplicationId command
  = Some (accountId (data payload) ++ "_" ++ pretty now) /\
  List.map fst (MessageAttributes command) = attributeNames.
Proof.
  intros Hid. unfold sendMessage_command; simpl. rewrite Hid. done.
Qed.

(** The batch path carries the nine attributes, and neither FIFO key. *)
Lemma sendMessageBatch_command_keys now queueUrl payloads entry :
  entry ∈ Entries (sendMessageBatch_command now queueUrl payloads) ->
  entry_MessageGroupId entry = None /\
  entry_MessageDeduplicationId entry = None /\
  List.map fst (entry_MessageAttributes entry) = attributeNames.
Proof.
  unfold sendMessageBatch_command; simpl.
  intros Hin. apply elem_of_lookup_imap in Hin as (i & payload & -> & _).
  done.
Qed.

Definition sample_payload : QueuePayload :=
  mkPayload "email_reply"
    (mkData "acc-1" "<m1@example.org>" "acc-1_7_5000" (Some "") (Some "")
       (Some []) "2023-11-14T22:13:20.000Z" "ann@example.org"
       ["bob@example.org"] "Hello" "raw text" false "2023-11-14T22:13:20.000Z").

(** C9 (the code departs from it on the batch path): the entry that
    [sendMessageBatch] builds for an envelope has the nine attributes but
    no group key and no deduplication key, while [sendMessage] sets both
    for the same envelope. *)
Theorem batch_entry_lacks_fifo_keys :
  (exists entry,
     Entries (sendMessageBatch_command 5000 "queue-url" [sample_payload]) = [entry] /\
     entry_MessageGroupId entry = None /\
     entry_MessageDeduplicationId entry = None /\
     List.map fst (entry_MessageAttributes entry) = attributeNames) /\
  MessageGroupId (sendMessage_command 5000 "queue-url" sample_payload)
  = Some "acc-1" /\
  MessageDeduplicationId (sendMessage_command 5000 "queue-url" sample_payload)
  = Some "acc-1_5000".
Proof. split; [eexists|]; repeat split; reflexivity. Qed.

End SqsFacts.

(** * Properties of the status store *)

Module StatusStoreFacts.

Import StatusStore.

(** A row the reconnection lookup selects. *)
Definition needsReconnection (r : ImapConnectionStatus) : bool :=
  isActive r && (bool_decide (status r = DISCONNECTED) || bool_decide (status r = ERROR)).

Lemma selected_iff r :
  Bool.eqb (isActive r) true && bool_decide (status r ∈ [ERROR; DISCONNECTED])
  = needsReconnection r.
Proof.
  unfold needsReconnection. destruct (isActive r), (status r); reflexivity.
Qed.

Lemma lookup_rows rows :
  in_status [ERROR; DISCONNECTED] (eq_isActive true rows)
  = List.filter needsReconnection rows.
Proof.
  unfold in_status, eq_isActive.
  induction rows as [|r rows IH]; simpl; [done|].
  pose proof (selected_iff r) as Hr.
  destruct (Bool.eqb (isActive r) true) eqn:Hact; simpl in *.
  - rewrite Hr. destruct (needsReconnection r); by rewrite IH.
  - rewrite <- Hr. apply IH.
Qed.

Definition reconnecting_store : Supabase :=
  mkSupabase
    [mkStatus "acc-3" "cleo@example.org" RECONNECTING 4 1 3 12 true] None.

(** C10 as stated fails: an active mailbox whose persisted state is
    [reconnecting] is not returned. *)
Lemma reconnecting_mailbox_not_returned :
  (exists r, r ∈ imap_connection_status reconnecting_store /\
             emailAccountId r = "acc-3" /\ isActive r = true /\
             status r = RECONNECTING) /\
  getAccountsNeedingReconnection reconnecting_store = Resolved [].
Proof.
  split; [|reflexivity].
  eexists. split; [apply list_elem_of_singleton; reflexivity|]. done.
Qed.

(** C10, amended: when the query succeeds the lookup returns, in table
    order, the ids of exactly the active rows whose state is
    [disconnected] or [error]. *)
Theorem reconnection_lookup_exact rows :
  getAccountsNeedingReconnection (mkSupabase rows None)
  = Resolved (List.map emailAccountId (List.filter needsReconnection rows)) /\
  forall aid,
    In aid (List.map emailAccountId (List.filter needsReconnection rows)) <->
    exists r, In r rows /\ emailAccountId r = aid /\ isActive r = true /\
              (status r = DISCONNECTED \/ status r = ERROR).
Proof.
  split.
  - unfold getAccountsNeedingReconnection; simpl. by rewrite lookup_rows.
  - intros aid. rewrite in_map_iff. split.
    + intros (r & Hid & Hr). apply filter_In in Hr as [Hin Hsel].
      exists r. split; [done|]. split; [done|].
      unfold needsReconnection in Hsel.
      apply andb_true_iff in Hsel as [Hact Hst]. split; [done|].
      apply orb_true_iff in Hst as [H|H]; apply bool_decide_eq_true in H; auto.
    + intros (r & Hin & Hid & Hact & Hst). exists r. split; [done|].
      apply filter_In. split; [done|].
      unfold needsReconnection. rewrite Hact. simpl.
      apply orb_true_iff. destruct Hst as [H|H]; [left|right];
        by apply bool_decide_eq_true.
Qed.

(** The in-memory pass of [IMAPService.getAccountsNeedingReconnection]
    applies the same test. *)
Lemma inMemory_same_test statuses aid :
  In aid (inMemoryNeedingReconnection statuses) <->
  exists r, In (aid, r) statuses /\ needsReconnection r = true.
Proof.
  unfold inMemoryNeedingReconnection. rewrite in_map_iff. split.
  - intros ([k r] & <- & Hin). apply filter_In in Hin as [Hin Hsel].
    exists r. split; [done|]. simpl in Hsel. unfold needsReconnection.
    by rewrite andb_comm.
  - intros (r & Hin & Hsel). exists (aid, r). split; [done|].
    apply filter_In. split; [done|]. simpl.
    unfold needsReconnection in Hsel. by rewrite andb_comm.
Qed.

End StatusStoreFacts.

(** * Properties of the IMAP worker *)

Module ImapWorkerFacts.

Import ImapWorker.

(** ** Parsing *)

Lemma or_default_empty (x : option string) : Js.or_default x "" = default "" x.
Proof. destruct x as [[|c s]|]; reflexivity. Qed.

Lemma truthy_nonempty (s : string) : Js.truthy s = true <-> s <> "".
Proof. destruct s; simpl; split; congruence. Qed.

(** The address of the first sender, and the addresses of the recipients
    that carry one. *)
Definition firstSender (envelope : MessageEnvelope) : string :=
  match env_from envelope with
  | Some (sender :: _) => default "" (address sender)
  | _ => ""
  end.

Definition recipients (envelope : MessageEnvelope) : list string :=
  List.filter (fun s => negb (String.eqb s ""))
    (omap address (default [] (env_to envelope))).

Lemma firstAddress_firstSender envelope :
  firstAddress (env_from envelope) = firstSender envelope.
Proof.
  unfold firstSender. destruct (env_from envelope) as [[|a l]|]; simpl; try done.
  apply or_default_empty.
Qed.

Lemma allAddresses_recipients envelope :
  allAddresses (env_to envelope) = recipients envelope.
Proof.
  unfold recipients, allAddresses.
  destruct (env_to envelope) as [addrs|]; simpl; [|done].
  induction addrs as [|a addrs IH]; simpl; [done|].
  destruct (address a) as [[|c s]|]; simpl; try apply IH.
  by rewrite IH.
Qed.

(** The payload handed to the sink repeats the parsed record; its
    [receivedAt] is the ISO text of the parsed date. *)
Lemma sqsPayload_fields parsed :
  let sent := Sqs.data (sqsPayload parsed) in
  Sqs.accountId sent = accountId parsed /\
  Sqs.messageId sent = messageId parsed /\
  Sqs.internalMessageId sent = internalMessageId parsed /\
  Sqs.threadId sent = Some (threadId parsed) /\
  Sqs.inReplyTo sent = Some (inReplyTo parsed) /\
  Sqs.references sent = Some (references parsed) /\
  Sqs.from sent = from parsed /\
  Sqs.to sent = to parsed /\
  Sqs.subject sent = subject parsed /\
  Sqs.text sent = text parsed /\
  Sqs.isReply sent = isReply parsed /\
  Sqs.timestamp sent = timestamp parsed /\
  Sqs.receivedAt sent = Js.toISOString (receivedAt parsed).
Proof. repeat split; reflexivity. Qed.

(** C5: for a fetched message with an IMAP envelope, the Envelope built
    from it repeats the envelope: Message-ID, In-Reply-To (also used as
    thread id), References, the first From address, the To addresses,
    Subject and date (an absent string reads as empty, an absent list as
    empty, an absent date as the current instant); its text is the raw
    source; and [isReply] holds exactly when In-Reply-To or References is
    non-empty.  This holds of the record returned by [parseEmail] and of
    the payload assembled from it. *)
Theorem parseEmail_envelope_roundtrip now uid_ envelope source_ aid :
  let parsed := parseEmail now (mkFetched uid_ (Some envelope) source_) aid in
  let sent := Sqs.data (sqsPayload parsed) in
  (messageId parsed = default "" (env_messageId envelope) /\
   inReplyTo parsed = default "" (env_inReplyTo envelope) /\
   threadId parsed = inReplyTo parsed /\
   references parsed = default [] (env_references envelope) /\
   from parsed = firstSender envelope /\
   to parsed = recipients envelope /\
   subject parsed = default "" (env_subject envelope) /\
   receivedAt parsed = default now (env_date envelope) /\
   timestamp parsed = Js.toISOString (receivedAt parsed) /\
   text parsed = default "" source_ /\
   (isReply parsed = true <-> inReplyTo parsed <> "" \/ references parsed <> [])) /\
  (Sqs.messageId sent = default "" (env_messageId envelope) /\
   Sqs.inReplyTo sent = Some (default "" (env_inReplyTo envelope)) /\
   Sqs.threadId sent = Sqs.inReplyTo sent /\
   Sqs.references sent = Some (default [] (env_references envelope)) /\
   Sqs.from sent = firstSender envelope /\
   Sqs.to sent = recipients envelope /\
   Sqs.subject sent = default "" (env_subject envelope) /\
   Sqs.receivedAt sent = Js.toISOString (default now (env_date envelope)) /\
   Sqs.timestamp sent = Sqs.receivedAt sent /\
   Sqs.text sent = default "" source_ /\
   (Sqs.isReply sent = true <->
    default "" (env_inReplyTo envelope) <> ""
    \/ default [] (env_references envelope) <> [])).
Proof.
  assert (Hreply : forall (r : string) (refs : list string),
            Js.truthy r || (0 <? length refs)%nat = true <-> r <> "" \/ refs <> []).
  { intros r refs. rewrite orb_true_iff, truthy_nonempty.
    destruct refs as [|ref refs]; simpl.
    - split; [intros [H|H]; [by left | discriminate]
             | intros [H|H]; [by left | done]].
    - split; intros _; by right. }
  unfold parseEmail; simpl.
  rewrite !or_default_empty, firstAddress_firstSender, allAddresses_recipients.
  split; repeat (split; [reflexivity|]); apply Hreply.
Qed.

(** ** Validation *)

Lemma truthy_app (a b : string) : Js.truthy b = true -> Js.truthy (a ++ b) = true.
Proof. by destruct a. Qed.

(** The internal id is never empty: it always contains the separators. *)
Lemma internalMessageId_truthy now message aid :
  Js.truthy (internalMessageId (parseEmail now message aid)) = true.
Proof.
  unfold parseEmail. destruct (envelope message); simpl; by apply truthy_app.
Qed.

(** The Message-ID header of a fetched message is present and non-empty. *)
Definition hasMessageIdHeader (message : FetchMessageObject) : bool :=
  match envelope message ≫= env_messageId with
  | Some header => Js.truthy header
  | None => false
  end.

Lemma messageId_truthy now message aid :
  Js.truthy (messageId (parseEmail now message aid)) = hasMessageIdHeader message.
Proof.
  unfold parseEmail, hasMessageIdHeader.
  destruct (envelope message) as [env|]; simpl; [|done].
  by destruct (env_messageId env) as [[|c s]|].
Qed.

Definition tally (kept failed : Z) (stats : Stats) : Stats :=
  mkStats (emailsProcessed stats + kept) (emailsFailed stats + failed).

Lemma tally_tally a b c d stats :
  tally a b (tally c d stats) = tally (c + a) (d + b) stats.
Proof. unfold tally; simpl. f_equal; lia. Qed.

Lemma tally_0 stats : tally 0 0 stats = stats.
Proof. destruct stats. unfold tally; simpl. f_equal; lia. Qed.

(** Parsing the yielded message throws. *)
Definition unreadable (message : FetchedMessage) : bool :=
  match readable message with Some _ => false | None => true end.

(** One message: counted as failed when parsing throws, kept when it has
    a Message-ID header, passed over otherwise. *)
Lemma processMessage_spec now aid messages stats message :
  processMessage now aid (messages, stats) message
  = match readable message with
    | Some m =>
        if hasMessageIdHeader m
        then ((messages ++ [sqsPayload (parseEmail now m aid)])%list,
              tally 1 0 stats)
        else (messages, stats)
    | None => (messages, tally 0 1 stats)
    end.
Proof.
  unfold processMessage, tryParseEmail.
  destruct (readable message) as [m|].
  - rewrite internalMessageId_truthy, messageId_truthy.
    destruct (hasMessageIdHeader m); simpl; [|done].
    unfold tally. do 2 f_equal. lia.
  - unfold tally. do 2 f_equal. lia.
Qed.

(** The envelopes collected from a list of yielded messages: of those
    that parse, the ones with a Message-ID header. *)
Definition payloadsOf (now : Z) (aid : string) (fetched : list FetchedMessage)
    : list Sqs.QueuePayload :=
  List.map (fun m => sqsPayload (parseEmail now m aid))
    (List.filter hasMessageIdHeader (omap readable fetched)).

(** The number of yielded messages on which parsing throws. *)
Definition failuresOf (fetched : list FetchedMessage) : Z :=
  Z.of_nat (length (List.filter unreadable fetched)).

(** The counters after the loop has seen [fetched]. *)
Definition statsAfter (now : Z) (aid : string) (fetched : list FetchedMessage)
    (stats : Stats) : Stats :=
  tally (Z.of_nat (length (payloadsOf now aid fetched))) (failuresOf fetched) stats.

Lemma payloadsOf_app now aid l1 l2 :
  payloadsOf now aid (l1 ++ l2)
  = (payloadsOf now aid l1 ++ payloadsOf now aid l2)%list.
Proof. unfold payloadsOf. by rewrite omap_app, List.filter_app, List.map_app. Qed.

Lemma failuresOf_app l1 l2 :
  failuresOf (l1 ++ l2) = failuresOf l1 + failuresOf l2.
Proof. unfold failuresOf. rewrite List.filter_app, length_app. lia. Qed.

Lemma statsAfter_app now aid l1 l2 stats :
  statsAfter now aid (l1 ++ l2) stats = statsAfter now aid l2 (statsAfter now aid l1 stats).
Proof.
  unfold statsAfter. rewrite tally_tally, payloadsOf_app, failuresOf_app, length_app.
  f_equal. lia.
Qed.

Lemma statsAfter_nil now aid stats : statsAfter now aid [] stats = stats.
Proof. apply tally_0. Qed.

Lemma processMessage_single now aid messages stats message :
  processMessage now aid (messages, stats) message
  = ((messages ++ payloadsOf now aid [message])%list,
     statsAfter now aid [message] stats).
Proof.
  rewrite processMessage_spec.
  unfold statsAfter, payloadsOf, failuresOf, unreadable. cbn [omap list_omap List.filter].
  destruct (readable message) as [m|]; cbn [List.filter List.map length].
  - destruct (hasMessageIdHeader m); cbn [List.map length]; [done|].
    by rewrite app_nil_r, tally_0.
  - by rewrite app_nil_r.
Qed.

Lemma fold_processMessage now aid fetched messages stats :
  fold_left (processMessage now aid) fetched (messages, stats)
  = ((messages ++ payloadsOf now aid fetched)%list, statsAfter now aid fetched stats).
Proof.
  revert messages stats.
  induction fetched as [|m fetched IH]; intros messages stats; cbn [fold_left].
  - by rewrite statsAfter_nil, app_nil_r.
  - rewrite processMessage_single, IH.
    change (m :: fetched) with ([m] ++ fetched)%list.
    by rewrite payloadsOf_app, statsAfter_app, <- app_assoc.
Qed.

(** The messages delivered by the fetches of the outer loop; a failed
    fetch delivers none. *)
Definition fetchedMessages (connection : Connection) (startMessage endMessage : Z)
    : list FetchedMessage :=
  concat
    (List.map
       (fun i => default [] (fetch connection i (Z.min (i + batchSize - 1) endMessage)))
       (batchStarts startMessage endMessage)).

Lemma fold_processBatch now connection aid endMessage starts messages stats :
  let fetched :=
    concat
      (List.map
         (fun i => default [] (fetch connection i (Z.min (i + batchSize - 1) endMessage)))
         starts) in
  fold_left (processBatch now connection aid endMessage) starts (messages, stats)
  = ((messages ++ payloadsOf now aid fetched)%list, statsAfter now aid fetched stats).
Proof.
  revert messages stats.
  induction starts as [|i starts IH]; intros messages stats;
    cbn [fold_left List.map concat].
  - by rewrite statsAfter_nil, app_nil_r.
  - unfold processBatch at 2.
    destruct (fetch connection i _) as [batch|].
    + change (default [] (Some batch)) with batch.
      rewrite fold_processMessage. cbv zeta in IH. rewrite IH.
      by rewrite payloadsOf_app, statsAfter_app, <- app_assoc.
    + apply IH.
Qed.

Lemma collectMessages_spec now connection aid startMessage endMessage stats :
  let fetched := fetchedMessages connection startMessage endMessage in
  collectMessages now connection aid startMessage endMessage stats
  = (payloadsOf now aid fetched, statsAfter now aid fetched stats).
Proof.
  unfold collectMessages. simpl. by rewrite fold_processBatch.
Qed.

(** The values of the loop counter: [startMessage], [startMessage + 10],
    ... up to [endMessage]. *)
Lemma batchStarts_spec startMessage endMessage i :
  In i (batchStarts startMessage endMessage) <->
  exists k, 0 <= k /\ i = startMessage + batchSize * k /\ i <= endMessage.
Proof.
  unfold batchStarts, batchSize.
  destruct (startMessage <=? endMessage) eqn:Hle.
  - apply Z.leb_le in Hle. rewrite in_map_iff. split.
    + intros (k & <- & Hk). apply in_seq in Hk. exists (Z.of_nat k).
      split; [lia|]. split; [done|].
      assert (Z.of_nat k < (endMessage - startMessage) / 10 + 1) by lia.
      Z.div_mod_to_equations. lia.
    + intros (k & Hk & -> & Hend). exists (Z.to_nat k).
      split; [lia|]. apply in_seq.
      assert (k < (endMessage - startMessage) / 10 + 1)
        by (Z.div_mod_to_equations; lia).
      lia.
  - apply Z.leb_gt in Hle. simpl. split; [done|].
    intros (k & Hk & -> & Hend). lia.
Qed.

(** ** Submission *)

(** The envelopes carried by a list of batch commands. *)
Definition payloadIn (entry : Sqs.BatchEntry) : Sqs.QueuePayload :=
  match Sqs.entry_MessageBody entry with
  | Sqs.JSON_stringify payload => payload
  end.

Definition submittedPayloads (commands : list Sqs.SendMessageBatchCommand)
    : list Sqs.QueuePayload :=
  List.map payloadIn (concat (List.map Sqs.Entries commands)).

Lemma submittedPayloads_app c1 c2 :
  submittedPayloads (c1 ++ c2)
  = (submittedPayloads c1 ++ submittedPayloads c2)%list.
Proof. unfold submittedPayloads. by rewrite List.map_app, concat_app, List.map_app. Qed.

Lemma payloadIn_imap (g : nat -> Sqs.QueuePayload -> Sqs.BatchEntry) payloads :
  (forall i p, payloadIn (g i p) = p) ->
  List.map payloadIn (imap g payloads) = payloads.
Proof.
  revert g. induction payloads as [|p payloads IH]; intros g Hg; simpl; [done|].
  rewrite Hg. f_equal. apply IH. intros i q. apply Hg.
Qed.

(** A sink that takes every batch: the client resolves each batch command
    with at least one successful entry. *)
Definition accepting (client : Sqs.Client) : Prop :=
  forall command, exists first others failed,
    Sqs.sendBatch client command
    = Resolved (Sqs.mkBatchOutput (Some (first :: others)) failed).

Lemma sendMessageBatch_accepting now queueUrl client payloads :
  accepting client ->
  (length payloads <= 10)%nat ->
  exists commands ids,
    Sqs.sendMessageBatch now queueUrl client payloads = (commands, Resolved ids) /\
    submittedPayloads commands = payloads.
Proof.
  intros Hacc Hlen. unfold Sqs.sendMessageBatch.
  destruct payloads as [|p payloads]; simpl.
  - by exists [], [].
  - destruct (Nat.ltb_spec 10 (S (length payloads))) as [Hgt|_]; [simpl in Hlen; lia|].
    destruct (Hacc (Sqs.sendMessageBatch_command now queueUrl (p :: payloads)))
      as (first & others & failed & ->). simpl.
    eexists _, _. split; [reflexivity|].
    unfold submittedPayloads; simpl. rewrite app_nil_r. f_equal.
    by apply payloadIn_imap.
Qed.

Lemma sendSlices_accepting now queueUrl client messages starts submitted0 :
  accepting client ->
  exists commands,
    sendSlices now queueUrl client messages starts submitted0
    = (commands, Resolved tt) /\
    submittedPayloads commands
    = (submittedPayloads submitted0
       ++ concat (List.map (fun i => slice10 i messages) starts))%list.
Proof.
  intros Hacc. revert submitted0.
  induction starts as [|i starts IH]; intros submitted0; simpl.
  - exists submitted0. by rewrite app_nil_r.
  - destruct (sendMessageBatch_accepting now queueUrl client (slice10 i messages) Hacc)
      as (commands & ids & -> & Hc).
    { unfold slice10. rewrite length_take. lia. }
    destruct (IH (submitted0 ++ commands)%list) as (all & -> & Hall).
    exists all. split; [done|].
    by rewrite Hall, submittedPayloads_app, Hc, <- app_assoc.
Qed.

(** The slices of the sending loop tile the collected messages. *)
Lemma slices_tile {A} (n : nat) (l : list A) :
  (length l <= 10 * n)%nat ->
  concat (List.map (fun k => take 10 (drop (10 * k) l)) (seq 0 n)) = l.
Proof.
  revert l. induction n as [|n IH]; intros l Hlen.
  - destruct l; [done | simpl in Hlen; lia].
  - cbn [seq List.map concat].
    rewrite <- seq_shift, List.map_map.
    replace (10 * 0)%nat with 0%nat by lia. rewrite drop_0.
    transitivity (take 10 l ++ drop 10 l)%list; [|apply take_drop].
    f_equal.
    rewrite <- (IH (drop 10 l)) at 1 by (rewrite length_drop; lia).
    f_equal. apply List.map_ext. intros k.
    rewrite drop_drop. do 2 f_equal. lia.
Qed.

Lemma sliceStarts_tile {A} (l : list A) :
  concat (List.map (fun i => slice10 i l) (sliceStarts (length l))) = l.
Proof.
  unfold sliceStarts, slice10. rewrite List.map_map. apply slices_tile.
  pose proof (Nat.div_mod_eq (length l + 9) 10).
  pose proof (Nat.mod_upper_bound (length l + 9) 10). lia.
Qed.

Lemma sendCollected_accepting now queueUrl client messages :
  accepting client ->
  exists commands,
    sendCollected now queueUrl client messages = (commands, Resolved tt) /\
    submittedPayloads commands = messages.
Proof.
  intros Hacc. unfold sendCollected.
  destruct (Nat.ltb_spec 0 (length messages)) as [Hpos|Hzero].
  - destruct (Nat.leb_spec (length messages) 10) as [Hle|Hgt].
    + destruct (sendMessageBatch_accepting now queueUrl client messages Hacc Hle)
        as (commands & ids & -> & Hc).
      by exists commands.
    + destruct (sendSlices_accepting now queueUrl client messages
                  (sliceStarts (length messages)) [] Hacc) as (commands & -> & Hc).
      exists commands. split; [done|].
      rewrite Hc. apply sliceStarts_tile.
  - exists []. split; [done|]. destruct messages; [done | simpl in Hzero; lia].
Qed.

(** ** The fetch-and-submit flow *)

(** A sink that takes everything, and a mailbox of three old messages, the
    second of which has no Message-ID header. *)
Definition willing_client : Sqs.Client :=
  Sqs.mkClient (fun _ => Resolved (Sqs.mkOutput (Some "sqs-1")))
    (fun _ => Resolved (Sqs.mkBatchOutput (Some ["sqs-1"]) None)).

Lemma willing_client_accepting : accepting willing_client.
Proof. intros command. by exists "sqs-1", [], None. Qed.

Definition letter (n : Z) (header : option string) : FetchMessageObject :=
  mkFetched n
    (Some (mkEnvelope (Some 1700000000000) (Some "Status")
             (Some [mkAddress None (Some "ann@example.org")])
             (Some [mkAddress None (Some "bob@example.org")])
             header None None))
    (Some "raw source").

(** The message as the iterator yields it, its date a valid [Date]. *)
Definition yielded (message : FetchMessageObject) : FetchedMessage :=
  mkFetchedMessage (uid message)
    (option_map
       (fun e =>
          mkFetchedEnvelope (option_map TimeValue (env_date e)) (env_subject e)
            (env_from e) (env_to e) (env_messageId e) (env_inReplyTo e)
            (env_references e))
       (envelope message))
    (source message).

(** The same message with a Date header that cannot be read. *)
Definition misdated (message : FetchMessageObject) : FetchedMessage :=
  mkFetchedMessage (uid message)
    (option_map
       (fun e =>
          mkFetchedEnvelope (Some InvalidDate) (env_subject e)
            (env_from e) (env_to e) (env_messageId e) (env_inReplyTo e)
            (env_references e))
       (envelope message))
    (source message).

Definition old_mail : list FetchedMessage :=
  [yielded (letter 11 (Some "<a@example.org>")); yielded (letter 12 None);
   yielded (letter 13 (Some "<c@example.org>"))].

Definition old_mailbox : Connection :=
  mkConnection true true true true (Some 3)
    (fun i j => if (i =? 1) && (j =? 3) then Some old_mail else None).

(** A mailbox of four messages, the third with an unreadable date. *)
Definition mixed_mail : list FetchedMessage :=
  [yielded (letter 21 (Some "<a@example.org>")); yielded (letter 22 None);
   misdated (letter 23 (Some "<c@example.org>"));
   yielded (letter 24 (Some "<d@example.org>"))].

Definition mixed_mailbox : Connection :=
  mkConnection true true true true (Some 4)
    (fun i j => if (i =? 1) && (j =? 4) then Some mixed_mail else None).

Definition no_stats : Stats := mkStats 0 0.

(** C1 as stated fails: the message without a Message-ID header has a
    synthesized internal id, and is skipped all the same. *)
Lemma skipped_despite_internal_id :
  readable (yielded (letter 12 None)) = Some (letter 12 None) /\
  hasMessageIdHeader (letter 12 None) = false /\
  internalMessageId (parseEmail 5000 (letter 12 None) "acc-1") = "acc-1_12_5000" /\
  processMessage 5000 "acc-1" ([], no_stats) (yielded (letter 12 None))
  = ([], no_stats) /\
  List.map (fun p => Sqs.internalMessageId (Sqs.data p))
    (submittedPayloads
       (submitted (processNewMessages 5000 "queue-url" willing_client old_mailbox
                     "acc-1" 1 3 no_stats)))
  = ["acc-1_11_5000"; "acc-1_13_5000"].
Proof. vm_compute. done. Qed.

(** C1, amended: a fetched message is passed over, leaving the collected
    envelopes and both counters as they were, exactly when it parses and
    has no (non-empty) Message-ID header, whether or not an internal id
    was synthesized.  A message on which parsing throws is counted in
    [emailsFailed] and not collected.  For every other fetched message the
    envelope is built, collected and counted in [emailsProcessed]; the
    collected envelopes stand in fetch order, and a sink that takes every
    batch receives exactly those. *)
Theorem skipped_iff_no_message_id now queueUrl client connection aid
    startMessage endMessage stats :
  accepting client ->
  let fetched := fetchedMessages connection startMessage endMessage in
  let run :=
    processNewMessages now queueUrl client connection aid
      startMessage endMessage stats in
  (forall messages st message,
     processMessage now aid (messages, st) message = (messages, st) <->
     exists m, readable message = Some m /\ hasMessageIdHeader m = false) /\
  (forall messages st message,
     readable message = None ->
     processMessage now aid (messages, st) message
     = (messages, mkStats (emailsProcessed st) (emailsFailed st + 1))) /\
  (forall messages st message m,
     readable message = Some m -> hasMessageIdHeader m = true ->
     processMessage now aid (messages, st) message
     = ((messages ++ [sqsPayload (parseEmail now m aid)])%list,
        mkStats (emailsProcessed st + 1) (emailsFailed st))) /\
  outcome run = Resolved tt /\
  submittedPayloads (submitted run)
  = List.map (fun m => sqsPayload (parseEmail now m aid))
      (List.filter hasMessageIdHeader (omap readable fetched)) /\
  emailsProcessed (stats_after run)
  = emailsProcessed stats + Z.of_nat (length (submittedPayloads (submitted run))) /\
  emailsFailed (stats_after run)
  = emailsFailed stats + Z.of_nat (length (List.filter unreadable fetched)).
Proof.
  intros Hacc fetched run. split; [|split; [|split]].
  - intros messages st message. rewrite processMessage_spec.
    destruct (readable message) as [m|].
    + destruct (hasMessageIdHeader m) eqn:Hm; split.
      * intros [= Hl _]. apply (f_equal length) in Hl.
        rewrite length_app in Hl. simpl in Hl. lia.
      * intros (m' & [= <-] & Hm'). congruence.
      * intros _. by exists m.
      * done.
    + split.
      * intros Heq. apply (f_equal (fun p => emailsFailed p.2)) in Heq.
        simpl in Heq. lia.
      * by intros (m & [=] & _).
  - intros messages st message Hr. rewrite processMessage_spec, Hr.
    unfold tally. do 2 f_equal. lia.
  - intros messages st message m Hr Hm. rewrite processMessage_spec, Hr, Hm.
    unfold tally. do 2 f_equal. lia.
  - unfold run, processNewMessages.
    rewrite collectMessages_spec.
    destruct (sendCollected_accepting now queueUrl client
                (payloadsOf now aid fetched) Hacc) as (commands & Hsend & Hc).
    fold fetched. rewrite Hsend. simpl. rewrite Hc. done.
Qed.

Lemma skipped_iff_no_message_id_witness :
  outcome (processNewMessages 5000 "queue-url" willing_client mixed_mailbox
             "acc-1" 1 4 no_stats) = Resolved tt /\
  length
    (submittedPayloads
       (submitted (processNewMessages 5000 "queue-url" willing_client mixed_mailbox
                     "acc-1" 1 4 no_stats))) = 2%nat /\
  emailsFailed
    (stats_after (processNewMessages 5000 "queue-url" willing_client mixed_mailbox
                    "acc-1" 1 4 no_stats)) = 1.
Proof.
  destruct (skipped_iff_no_message_id 5000 "queue-url" willing_client mixed_mailbox
              "acc-1" 1 4 no_stats willing_client_accepting)
    as (_ & _ & _ & Hout & Hsub & _ & Hfail).
  split; [exact Hout|]. split; [rewrite Hsub; reflexivity|].
  rewrite Hfail. reflexivity.
Defined.

(** ** Polling *)






End ImapWorkerFacts.

Module SchedulerMore.

Import Scheduler SchedulerFacts.

(** ** The shape of an operation on one account *)

(** What an operation does to the timer of the account it works on. *)
Inductive TimerAct := Keep | Arm (due : Z) | Clear.

Definition apply_timer (aid : string) (act : TimerAct) (timers : gmap string Z)
    : gmap string Z :=
  match act with
  | Keep => timers
  | Arm due => <[aid := due]> timers
  | Clear => delete aid timers
  end.

(** Rewriting the entry of [aid] and acting on its timer. *)
Definition local (aid : string) (s : PollingSchedule) (act : TimerAct)
    (st : State) : State :=
  mkState (<[aid := s]> (schedules st)) (apply_timer aid act (pollingTimers st)).

Definition next_timer (now : Z) (s : PollingSchedule) : TimerAct :=
  if isActive s then Arm (now + Z.max 0 (nextPoll s - now)) else Keep.

Lemma store_local aid s st : store aid s st = local aid s Keep st.
Proof. reflexivity. Qed.

Lemma scheduleNextPoll_store now aid s st :
  scheduleNextPoll now aid (store aid s st) = local aid s (next_timer now s) st.
Proof.
  unfold scheduleNextPoll. rewrite lookup_store. unfold next_timer, local.
  by destruct (isActive s).
Qed.

Lemma store_store aid s1 s2 st : store aid s2 (store aid s1 st) = store aid s2 st.
Proof. unfold store; simpl. by rewrite insert_insert_eq. Qed.

Lemma handleAccountFailure_store now aid s st :
  handleAccountFailure now aid (store aid s st)
  = local aid
      (set_priority low
         (set_nextPoll (now + Z.min (interval s * 2) 3600000)
            (set_interval (Z.min (interval s * 2) 3600000) s)))
      (next_timer now
         (set_priority low
            (set_nextPoll (now + Z.min (interval s * 2) 3600000)
               (set_interval (Z.min (interval s * 2) 3600000) s))))
      st.
Proof.
  unfold handleAccountFailure. rewrite lookup_store.
  rewrite store_store, scheduleNextPoll_store.
  by destruct s.
Qed.

(** The account an operation works on. *)
Definition op_account (op : Op) : option string :=
  match op with
  | OpAddAccount acct _ => Some (id acct)
  | OpRemoveAccount aid | OpExecutePoll aid _ | OpUpdateAccountVolume aid _
  | OpUpdateAccountPriority aid _ | OpPauseAccount aid | OpResumeAccount aid
  | OpHandleIdleTaskCompletion aid _ | OpSetIdleEnabled aid _ => Some aid
  | OpShutdown => None
  end.

(** An arming or keeping action is sound when it never leaves a timer on
    a paused entry. *)
Definition act_sound (st : State) (aid : string) (s' : PollingSchedule)
    (act : TimerAct) : Prop :=
  match act with
  | Arm _ => isActive s' = true
  | Clear => True
  | Keep =>
      forall s, schedules st !! aid = Some s -> isActive s = true -> isActive s' = true
  end.

Inductive Shape (st : State) (aid : string) : State -> Prop :=
| shape_same : Shape st aid st
| shape_removed : Shape st aid (removeAccount aid st)
| shape_local s' act :
    act_sound st aid s' act -> Shape st aid (local aid s' act st).

Lemma shape_store st aid s s' :
  schedules st !! aid = Some s ->
  (isActive s = true -> isActive s' = true) ->
  Shape st aid (store aid s' st).
Proof.
  intros Hs Hact. rewrite store_local. apply shape_local.
  intros s0 Hs0. rewrite Hs in Hs0. by injection Hs0 as <-.
Qed.

Lemma shape_schedule st now aid s s' :
  schedules st !! aid = Some s ->
  (isActive s = true -> isActive s' = true) ->
  Shape st aid (scheduleNextPoll now aid (store aid s' st)).
Proof.
  intros Hs Hact. rewrite scheduleNextPoll_store. apply shape_local.
  unfold next_timer. destruct (isActive s') eqn:Hs'; simpl; [done|].
  intros s0 Hs0. rewrite Hs in Hs0. injection Hs0 as <-. intros Ha.
  specialize (Hact Ha). congruence.
Qed.

Ltac shape_leaf Hs :=
  first
    [ apply shape_same
    | eapply (shape_schedule _ _ _ _ _ Hs); break_schedule; simpl;
      repeat case_match; simpl; done
    | eapply (shape_store _ _ _ _ Hs); break_schedule; simpl;
      repeat case_match; simpl; done ].

Ltac shape_walk Hs :=
  repeat match goal with
  | |- Shape _ _ (if ?b then _ else _) => destruct b eqn:?
  | |- Shape _ _ (match ?x with _ => _ end) => destruct x eqn:?
  end; shape_leaf Hs.

Lemma step_shape now op st aid :
  op_account op = Some aid -> Shape st aid (step now op st).
Proof.
  destruct op; simpl; intros [= <-].
  - unfold addAccount.
    set (s := {| accountId := id acct |}).
    replace (scheduleNextPoll now (id acct) (store (id acct) s (removeAccount (id acct) st)))
      with (local (id acct) s (Arm (now + Z.max 0 (nextPoll s - now))) st).
    + by apply shape_local.
    + rewrite scheduleNextPoll_store. unfold local, removeAccount, next_timer; simpl.
      by rewrite !insert_delete_eq.
  - apply shape_removed.
  - unfold executePoll.
    destruct (schedules st !! aid0) as [s|] eqn:Hs; [|apply shape_same].
    destruct (negb (isActive s)) eqn:Hact; [apply shape_same|].
    destruct outcome.
    + shape_walk Hs.
    + unfold executePoll_catch.
      match goal with
      | |- Shape _ _ (if ?b then _ else _) => destruct b
      end.
      * rewrite handleAccountFailure_store. apply shape_local.
        unfold next_timer.
        match goal with
        | |- act_sound _ _ ?s' (if isActive ?s' then _ else _) =>
            destruct (isActive s') eqn:Hs'; simpl; [done|]
        end.
        intros s0 Hs0 Ha. rewrite Hs in Hs0. injection Hs0 as <-.
        rewrite <- Hs'. clear Hs'. break_schedule. repeat case_match; simpl; done.
      * shape_walk Hs.
  - unfold updateAccountVolume.
    destruct (schedules st !! aid0) as [s|] eqn:Hs; [|apply shape_same].
    shape_walk Hs.
  - unfold updateAccountPriority.
    destruct (schedules st !! aid0) as [s|] eqn:Hs; [|apply shape_same].
    shape_walk Hs.
  - unfold pauseAccount.
    destruct (schedules st !! aid0) as [s|] eqn:Hs; [|apply shape_same].
    by apply (shape_local st aid0 (set_isActive false s) Clear).
  - unfold resumeAccount.
    destruct (schedules st !! aid0) as [s|] eqn:Hs; [|apply shape_same].
    shape_walk Hs.
  - unfold handleIdleTaskCompletion.
    destruct (schedules st !! aid0) as [s|] eqn:Hs; [|apply shape_same].
    shape_walk Hs.
  - unfold setIdleEnabled.
    destruct (schedules st !! aid0) as [s|] eqn:Hs; [|apply shape_same].
    shape_walk Hs.
Qed.

(** ** Frame: an operation touches one account only *)

Lemma lookup_local aid s act st : schedules (local aid s act st) !! aid = Some s.
Proof. unfold local; simpl. apply lookup_insert_eq. Qed.

Lemma lookup_local_ne aid other s act st :
  other <> aid ->
  schedules (local aid s act st) !! other = schedules st !! other /\
  pollingTimers (local aid s act st) !! other = pollingTimers st !! other.
Proof.
  intros Hne. unfold local; simpl. split.
  - by apply lookup_insert_ne.
  - destruct act; simpl; [done | by apply lookup_insert_ne | by apply lookup_delete_ne].
Qed.

Definition sample_two : State :=
  run [(1000, OpAddAccount sample_account high);
       (1500, OpAddAccount denied_account medium)] Scheduler.empty.

Lemma step_other now op st aid other :
  op_account op = Some aid ->
  other <> aid ->
  schedules (step now op st) !! other = schedules st !! other /\
  pollingTimers (step now op st) !! other = pollingTimers st !! other.
Proof.
  intros Hop Hne.
  destruct (step_shape now op st aid Hop) as [| |s' act _].
  - done.
  - unfold removeAccount; simpl. split; by apply lookup_delete_ne.
  - by apply lookup_local_ne.
Qed.

(** ** Invariants of one entry *)

Definition at_entry (Q : PollingSchedule -> Prop) (aid : string) (st : State)
    : Prop :=
  forall s, schedules st !! aid = Some s -> Q s.

Lemma at_entry_store Q aid s st : Q s -> at_entry Q aid (store aid s st).
Proof. intros HQ s'. rewrite lookup_store. by intros [= <-]. Qed.

Lemma at_entry_local Q aid s act st : Q s -> at_entry Q aid (local aid s act st).
Proof. intros HQ s'. rewrite lookup_local. by intros [= <-]. Qed.

Lemma at_entry_scheduleNextPoll Q aid now k st :
  at_entry Q aid st -> at_entry Q aid (scheduleNextPoll now k st).
Proof. unfold at_entry. by rewrite schedules_scheduleNextPoll. Qed.

Lemma at_entry_removeAccount Q aid st : at_entry Q aid (removeAccount aid st).
Proof. intros s. unfold removeAccount; simpl. by rewrite lookup_delete_eq. Qed.

Lemma at_entry_other Q aid now op st other :
  op_account op = Some other ->
  other <> aid ->
  at_entry Q aid st -> at_entry Q aid (step now op st).
Proof.
  intros Hop Hne Hst s.
  destruct (step_other now op st other aid Hop) as [-> _]; [done|]. apply Hst.
Qed.

Lemma at_entry_run Q aid (ok : Op -> bool) trace st :
  (forall now op st, ok op = true -> at_entry Q aid st -> at_entry Q aid (step now op st)) ->
  Forall (fun e => ok e.2 = true) trace ->
  at_entry Q aid st -> at_entry Q aid (run trace st).
Proof.
  intros Hstep Htrace. revert st.
  induction Htrace as [|[now op] trace Hop _ IH]; intros st Hst; [done|].
  cbn [run]. apply IH. by apply Hstep.
Qed.

Ltac entry_walk tac :=
  repeat first
    [ assumption
    | apply at_entry_scheduleNextPoll
    | apply at_entry_store
    | apply at_entry_local
    | match goal with
      | |- at_entry _ _ (if ?b then _ else _) => destruct b eqn:?
      | |- at_entry _ _ (match ?x with _ => _ end) => destruct x eqn:?
      | |- at_entry _ _ _ => fail 1
      | |- _ => tac
      end ].

Ltac open_at_entry st aid Hst :=
  let s := fresh "s" in
  let Hs := fresh "Hs" in
  destruct (schedules st !! aid) as [s|] eqn:Hs; [|done];
  pose proof (Hst s Hs).

(** ** Timers belong to active entries *)

Definition timers_ok (st : State) : Prop :=
  forall aid due,
    pollingTimers st !! aid = Some due ->
    exists s, schedules st !! aid = Some s /\ isActive s = true.

Lemma timers_ok_step now op st : timers_ok st -> timers_ok (step now op st).
Proof.
  intros Hst. destruct (op_account op) as [aid|] eqn:Hop.
  - destruct (step_shape now op st aid Hop) as [| |s' act Hact]; [done| |].
    + intros k due. unfold removeAccount; simpl.
      destruct (decide (k = aid)) as [->|Hne].
      * by rewrite lookup_delete_eq.
      * rewrite !lookup_delete_ne by done. apply Hst.
    + intros k due. destruct (decide (k = aid)) as [->|Hne].
      * rewrite lookup_local. intros Hdue. exists s'. split; [done|].
        unfold local in Hdue; simpl in Hdue. destruct act; simpl in *.
        -- destruct (Hst _ _ Hdue) as (s & Hs & Ha). by apply (Hact s).
        -- done.
        -- by rewrite lookup_delete_eq in Hdue.
      * destruct (lookup_local_ne aid k s' act st Hne) as [-> ->]. apply Hst.
  - destruct op; try discriminate Hop.
    intros k due Hk. simpl in Hk. by rewrite lookup_empty in Hk.
Qed.

(** In every reachable state a pending timer belongs to a schedule entry
    that exists and is active: a paused or removed account has no timer. *)
Theorem timers_belong_to_active_entries st aid due :
  reachable st ->
  pollingTimers st !! aid = Some due ->
  exists s, schedules st !! aid = Some s /\ isActive s = true.
Proof.
  intros Hreach. revert aid due.
  change (timers_ok st).
  induction Hreach as [|now op st _ IH].
  - intros k due. simpl. by rewrite lookup_empty.
  - by apply timers_ok_step.
Qed.

Lemma timers_belong_to_active_entries_witness :
  exists s, schedules sample_state !! "acc-1" = Some s /\ isActive s = true.
Proof.
  apply (timers_belong_to_active_entries sample_state "acc-1" 61000
           sample_state_reachable).
  reflexivity.
Defined.

(** ** Locality and commutation *)

Lemma timer_local aid s act st :
  pollingTimers (local aid s act st) !! aid
  = match act with
    | Keep => pollingTimers st !! aid
    | Arm due => Some due
    | Clear => None
    end.
Proof.
  unfold local; simpl. destruct act; simpl;
    [done | apply lookup_insert_eq | apply lookup_delete_eq].
Qed.

Definition agree_at (aid : string) (st1 st2 : State) : Prop :=
  schedules st1 !! aid = schedules st2 !! aid /\
  pollingTimers st1 !! aid = pollingTimers st2 !! aid.

Ltac local_leaf Ht :=
  unfold agree_at;
  rewrite ?handleAccountFailure_store, ?scheduleNextPoll_store, ?store_local,
    ?lookup_local, ?timer_local, ?Ht; first [done | split; congruence].

Ltac local_walk Ht :=
  repeat match goal with
  | |- agree_at _ (if ?b then _ else _) _ => destruct b eqn:?
  | |- agree_at _ (match ?x with _ => _ end) _ => destruct x eqn:?
  end; local_leaf Ht.

(** What an operation does to an account is decided by that account's
    entry and timer alone. *)
Lemma step_local now op st1 st2 aid :
  op_account op = Some aid ->
  agree_at aid st1 st2 ->
  agree_at aid (step now op st1) (step now op st2).
Proof.
  intros Hop [Hs Ht].
  destruct op; simpl in *; try discriminate; injection Hop as <-.
  - unfold addAccount, removeAccount.
    rewrite !scheduleNextPoll_store. unfold agree_at.
    by rewrite !lookup_local, !timer_local.
  - unfold agree_at, removeAccount; simpl. by rewrite !lookup_delete_eq.
  - unfold executePoll, executePoll_catch. rewrite <- Hs.
    destruct (schedules st1 !! aid0) as [s|] eqn:Hs1; [|split; congruence].
    local_walk Ht.
  - unfold updateAccountVolume. rewrite <- Hs.
    destruct (schedules st1 !! aid0) as [s|] eqn:Hs1; [|split; congruence].
    local_walk Ht.
  - unfold updateAccountPriority. rewrite <- Hs.
    destruct (schedules st1 !! aid0) as [s|] eqn:Hs1; [|split; congruence].
    local_walk Ht.
  - unfold pauseAccount. rewrite <- Hs.
    destruct (schedules st1 !! aid0) as [s|] eqn:Hs1; [|split; congruence].
    unfold agree_at; simpl. by rewrite !lookup_insert_eq, !lookup_delete_eq.
  - unfold resumeAccount. rewrite <- Hs.
    destruct (schedules st1 !! aid0) as [s|] eqn:Hs1; [|split; congruence].
    local_walk Ht.
  - unfold handleIdleTaskCompletion. rewrite <- Hs.
    destruct (schedules st1 !! aid0) as [s|] eqn:Hs1; [|split; congruence].
    local_walk Ht.
  - unfold setIdleEnabled. rewrite <- Hs.
    destruct (schedules st1 !! aid0) as [s|] eqn:Hs1; [|split; congruence].
    local_walk Ht.
Qed.

Lemma state_eq (st1 st2 : State) :
  (forall k, schedules st1 !! k = schedules st2 !! k) ->
  (forall k, pollingTimers st1 !! k = pollingTimers st2 !! k) ->
  st1 = st2.
Proof.
  destruct st1, st2; simpl. intros Hs Ht. f_equal; by apply map_eq.
Qed.

Lemma steps_commute now1 now2 op1 op2 st a b :
  op_account op1 = Some a ->
  op_account op2 = Some b ->
  a <> b ->
  step now1 op1 (step now2 op2 st) = step now2 op2 (step now1 op1 st).
Proof.
  intros Ha Hb Hne.
  assert (Hfa : forall st0 k, k <> a -> agree_at k (step now1 op1 st0) st0)
    by (intros st0 k Hk; by apply step_other with a).
  assert (Hfb : forall st0 k, k <> b -> agree_at k (step now2 op2 st0) st0)
    by (intros st0 k Hk; by apply step_other with b).
  assert (Hall : forall k,
            agree_at k (step now1 op1 (step now2 op2 st))
                       (step now2 op2 (step now1 op1 st))).
  { intros k. destruct (decide (k = a)) as [->|Hka].
    - destruct (step_local now1 op1 (step now2 op2 st) st a Ha) as [H1 H2].
      { by apply Hfb. }
      destruct (Hfb (step now1 op1 st) a Hne) as [H3 H4].
      split; congruence.
    - destruct (decide (k = b)) as [->|Hkb].
      + destruct (step_local now2 op2 (step now1 op1 st) st b Hb) as [H1 H2].
        { by apply Hfa. }
        destruct (Hfa (step now2 op2 st) b Hka) as [H3 H4].
        split; congruence.
      + destruct (Hfa (step now2 op2 st) k Hka) as [H1 H2].
        destruct (Hfb st k Hkb) as [H3 H4].
        destruct (Hfb (step now1 op1 st) k Hkb) as [H5 H6].
        destruct (Hfa st k Hka) as [H7 H8].
        split; congruence. }
  apply state_eq; intros k; apply Hall.
Qed.

(** Operations on two different accounts do not interfere.  Each leaves
    the schedule entry and the timer of the other account as they were,
    and the two can be carried out in either order with the same result:
    servicing the due entries does not depend on the order in which the
    map of schedules is traversed. *)
Theorem operations_on_different_accounts_are_independent
    now1 now2 op1 op2 st a b :
  op_account op1 = Some a ->
  op_account op2 = Some b ->
  a <> b ->
  (schedules (step now1 op1 st) !! b = schedules st !! b /\
   pollingTimers (step now1 op1 st) !! b = pollingTimers st !! b) /\
  step now1 op1 (step now2 op2 st) = step now2 op2 (step now1 op1 st).
Proof.
  intros Ha Hb Hne. split.
  - apply (step_other now1 op1 st a b Ha). congruence.
  - by apply steps_commute with a b.
Qed.

Lemma operations_on_different_accounts_are_independent_witness :
  (schedules (step 9000 (OpExecutePoll "acc-1" Threw) sample_two) !! "acc-2"
   = schedules sample_two !! "acc-2" /\
   pollingTimers (step 9000 (OpExecutePoll "acc-1" Threw) sample_two) !! "acc-2"
   = pollingTimers sample_two !! "acc-2") /\
  step 9000 (OpExecutePoll "acc-1" Threw)
    (step 9500 (OpHandleIdleTaskCompletion "acc-2" false) sample_two)
  = step 9500 (OpHandleIdleTaskCompletion "acc-2" false)
      (step 9000 (OpExecutePoll "acc-1" Threw) sample_two).
Proof.
  apply (operations_on_different_accounts_are_independent 9000 9500
           (OpExecutePoll "acc-1" Threw)
           (OpHandleIdleTaskCompletion "acc-2" false) sample_two "acc-1" "acc-2").
  - reflexivity.
  - reflexivity.
  - discriminate.
Defined.

(** ** Further invariants of the entries *)

Ltac geb_facts :=
  repeat match goal with
  | H : (_ >=? _) = true |- _ => rewrite Z.geb_leb in H; apply Z.leb_le in H
  | H : (_ >=? _) = false |- _ => rewrite Z.geb_leb in H; apply Z.leb_gt in H
  | H : (_ >? _) = true |- _ => rewrite Z.gtb_ltb in H; apply Z.ltb_lt in H
  | H : (_ >? _) = false |- _ => rewrite Z.gtb_ltb in H; apply Z.ltb_ge in H
  end.

(** The polling interval stays between one minute and one hour. *)
Definition interval_ok (s : PollingSchedule) : Prop :=
  60000 <= interval s <= 3600000.

Ltac interval_tac :=
  break_schedule;
  unfold interval_ok, baseIntervals, adaptiveIntervals, classifyVolume in *;
  simpl in *; repeat case_match; simpl; lia.

Lemma interval_step now op st :
  entries interval_ok st -> entries interval_ok (step now op st).
Proof.
  intros Hst. destruct op; simpl.
  - unfold addAccount. apply entries_scheduleNextPoll, entries_store.
    + by apply entries_removeAccount.
    + unfold interval_ok; simpl. destruct prio; simpl; lia.
  - by apply entries_removeAccount.
  - unfold executePoll. open_entry interval_ok st aid Hst.
    destruct (negb (isActive s)); [done|].
    destruct outcome.
    + entries_step interval_tac.
    + unfold executePoll_catch.
      match goal with
      | |- entries _ (if ?b then _ else _) => destruct b
      end.
      * rewrite handleAccountFailure_store, <- scheduleNextPoll_store.
        entries_step interval_tac.
      * entries_step interval_tac.
  - unfold updateAccountVolume. open_entry interval_ok st aid Hst.
    entries_step interval_tac.
  - unfold updateAccountPriority. open_entry interval_ok st aid Hst.
    entries_step interval_tac.
  - unfold pauseAccount. open_entry interval_ok st aid Hst.
    unfold entries; simpl. apply map_Forall_insert_2; [|done]. interval_tac.
  - unfold resumeAccount. open_entry interval_ok st aid Hst.
    entries_step interval_tac.
  - unfold handleIdleTaskCompletion. open_entry interval_ok st aid Hst.
    entries_step interval_tac.
  - unfold setIdleEnabled. open_entry interval_ok st aid Hst.
    entries_step interval_tac.
  - apply entries_empty.
Qed.

Lemma reachable_interval st aid s :
  reachable st ->
  schedules st !! aid = Some s ->
  60000 <= interval s <= 3600000.
Proof.
  intros Hreach. revert aid s.
  change (entries interval_ok st).
  induction Hreach as [|now op st _ IH].
  - apply entries_empty.
  - by apply interval_step.
Qed.

(** In every reachable state the polling interval of every entry lies
    between 60 s and one hour, whatever mix of priority changes, volume
    reports and quarantines produced it. *)
Theorem interval_within_bounds st aid s :
  reachable st ->
  schedules st !! aid = Some s ->
  60000 <= interval s <= 3600000.
Proof.
  intros Hreach. revert aid s.
  change (entries interval_ok st).
  induction Hreach as [|now op st _ IH].
  - apply entries_empty.
  - by apply interval_step.
Qed.

Lemma interval_within_bounds_witness :
  60000 <= interval
             (mkSchedule "acc-1" sample_account high 60000 0 61000 lowVolume
                1.0%float 0 3 true true true 0 0 3) <= 3600000.
Proof.
  apply (interval_within_bounds sample_state "acc-1" _ sample_state_reachable).
  reflexivity.
Defined.

(** IDLE stays enabled only while fewer than three failures are counted. *)
Definition idle_budget (s : PollingSchedule) : Prop :=
  maxIdleFailures s = 3 /\ 0 <= idleFailures s /\
  (idleEnabled s = true -> idleFailures s < 3).

Ltac budget_tac :=
  break_schedule; unfold idle_budget in *; simpl in *;
  repeat case_match; simpl in *; geb_facts;
  repeat match goal with
  | H : _ /\ _ |- _ => destruct H
  end; subst;
  repeat split; try lia; try congruence; try (intuition lia).

Lemma budget_step now op st :
  entries idle_budget st -> entries idle_budget (step now op st).
Proof.
  intros Hst. destruct op; simpl.
  - unfold addAccount. apply entries_scheduleNextPoll, entries_store.
    + by apply entries_removeAccount.
    + unfold idle_budget; simpl. repeat split; intros; lia.
  - by apply entries_removeAccount.
  - unfold executePoll. open_entry idle_budget st aid Hst.
    destruct (negb (isActive s)); [done|].
    destruct outcome.
    + entries_step budget_tac.
    + unfold executePoll_catch.
      match goal with
      | |- entries _ (if ?b then _ else _) => destruct b
      end.
      * rewrite handleAccountFailure_store, <- scheduleNextPoll_store.
        entries_step budget_tac.
      * entries_step budget_tac.
  - unfold updateAccountVolume. open_entry idle_budget st aid Hst.
    entries_step budget_tac.
  - unfold updateAccountPriority. open_entry idle_budget st aid Hst.
    entries_step budget_tac.
  - unfold pauseAccount. open_entry idle_budget st aid Hst.
    unfold entries; simpl. apply map_Forall_insert_2; [|done]. budget_tac.
  - unfold resumeAccount. open_entry idle_budget st aid Hst.
    entries_step budget_tac.
  - unfold handleIdleTaskCompletion. open_entry idle_budget st aid Hst.
    entries_step budget_tac.
  - unfold setIdleEnabled. open_entry idle_budget st aid Hst.
    entries_step budget_tac.
  - apply entries_empty.
Qed.

(** In every reachable state IDLE is enabled for a mailbox only while
    fewer than three IDLE failures are counted against it: the count is
    never negative, the limit is always three, and an entry at or over the
    limit has IDLE switched off. *)
Theorem idle_enabled_only_within_budget st aid s :
  reachable st ->
  schedules st !! aid = Some s ->
  maxIdleFailures s = 3 /\ 0 <= idleFailures s /\
  (idleEnabled s = true -> idleFailures s < 3).
Proof.
  intros Hreach. revert aid s.
  change (entries idle_budget st).
  induction Hreach as [|now op st _ IH].
  - apply entries_empty.
  - by apply budget_step.
Qed.

Lemma idle_enabled_only_within_budget_witness :
  idleFailures
    (mkSchedule "acc-1" sample_account high 60000 0 61000 lowVolume
       1.0%float 0 3 true true true 0 0 3) < 3.
Proof.
  apply (idle_enabled_only_within_budget sample_state "acc-1" _ sample_state_reachable).
  - reflexivity.
  - reflexivity.
Defined.

(** ** The entry an operation leaves behind *)

Definition after_idle_failure (now : Z) (s : PollingSchedule) : PollingSchedule :=
  let s := set_idleFailures (idleFailures s + 1) s in
  if idleFailures s >=? maxIdleFailures s
  then set_nextPoll (now + 30000) (set_idleEnabled false s)
  else set_nextPoll (now + Z.min (60000 * 2 ^ idleFailures s) 300000) s.

Lemma handleIdleTaskCompletion_failure now aid st s :
  schedules st !! aid = Some s ->
  handleIdleTaskCompletion now aid false st
  = local aid (after_idle_failure now s) (next_timer now (after_idle_failure now s)) st.
Proof.
  intros Hs. unfold handleIdleTaskCompletion, after_idle_failure. rewrite Hs.
  cbv zeta. destruct (_ >=? _); by rewrite scheduleNextPoll_store.
Qed.

Definition after_throw (now : Z) (s : PollingSchedule) : PollingSchedule :=
  let s :=
    match chooseTaskType now s with
    | idle => set_lastIdleAttempt now s
    | _ => s
    end in
  let s := set_consecutiveFailures (consecutiveFailures s + 1) s in
  let s := set_successRate (Js.Math_max 0.0 (successRate s - 0.2)%float) s in
  let s :=
    if idleEnabled s && supportsIdle s then
      let s := set_idleFailures (idleFailures s + 1) s in
      if idleFailures s >=? maxIdleFailures s then set_idleEnabled false s else s
    else s in
  if consecutiveFailures s >=? maxFailures s then
    set_priority low
      (set_nextPoll (now + Z.min (interval s * 2) 3600000)
         (set_interval (Z.min (interval s * 2) 3600000) s))
  else set_nextPoll (now + Z.min (interval s * 2 ^ consecutiveFailures s) 300000) s.

Lemma executePoll_Threw now aid st s :
  schedules st !! aid = Some s ->
  isActive s = true ->
  executePoll now Threw aid st
  = local aid (after_throw now s) (next_timer now (after_throw now s)) st.
Proof.
  intros Hs Hact. unfold executePoll, executePoll_catch, after_throw.
  rewrite Hs, Hact. cbv zeta. simpl negb. cbv iota.
  match goal with
  | |- (if ?b then _ else _) = _ => destruct b
  end.
  - by rewrite handleAccountFailure_store.
  - by rewrite scheduleNextPoll_store.
Qed.

Definition after_enqueue (now : Z) (s : PollingSchedule) : PollingSchedule :=
  match chooseTaskType now s with
  | idle => set_lastIdleAttempt now s
  | _ =>
      set_successRate (Js.Math_min 1.0 (successRate s + 0.1)%float)
        (set_consecutiveFailures 0
           (set_nextPoll (now + interval s) (set_lastPolled now s)))
  end.

Definition enqueue_timer (now : Z) (s : PollingSchedule) : TimerAct :=
  match chooseTaskType now s with
  | idle => Keep
  | _ => next_timer now (after_enqueue now s)
  end.

Lemma executePoll_Enqueued now taskId aid st s :
  schedules st !! aid = Some s ->
  isActive s = true ->
  executePoll now (Enqueued taskId) aid st
  = local aid (after_enqueue now s) (enqueue_timer now s) st.
Proof.
  intros Hs Hact. unfold executePoll, after_enqueue, enqueue_timer, after_enqueue.
  rewrite Hs, Hact. cbv zeta. simpl negb. cbv iota.
  destruct (chooseTaskType now s); try done;
    rewrite scheduleNextPoll_store; by destruct s.
Qed.

(** ** Sequences of reports *)

Lemma reachable_entry_facts st aid s :
  reachable st ->
  schedules st !! aid = Some s ->
  maxFailures s = 3 /\ maxIdleFailures s = 3 /\
  0 <= consecutiveFailures s /\ 0 <= idleFailures s.
Proof.
  intros Hreach Hs.
  exact (entries_lookup _ _ _ _ (reachable_limits _ Hreach) Hs).
Qed.

Lemma after_idle_failure_facts now s :
  maxIdleFailures s = 3 ->
  maxIdleFailures (after_idle_failure now s) = 3 /\
  idleFailures (after_idle_failure now s) = idleFailures s + 1 /\
  (3 <= idleFailures s + 1 ->
   idleEnabled (after_idle_failure now s) = false /\
   nextPoll (after_idle_failure now s) = now + 30000).
Proof.
  intros Hmx. unfold after_idle_failure.
  destruct s as [a b c d e f g h i j act sup en att fails mx]; simpl in *. subst mx.
  destruct (fails + 1 >=? 3) eqn:Hcmp; simpl; geb_facts;
    repeat split; try done; lia.
Qed.

(** The commands that switch IDLE on for the mailbox [aid], or create its
    entry anew. *)
Definition reenables (aid : string) (op : Op) : bool :=
  match op with
  | OpAddAccount acct _ => bool_decide (id acct = aid)
  | OpHandleIdleTaskCompletion a true | OpSetIdleEnabled a true =>
      bool_decide (a = aid)
  | _ => false
  end.

Definition idle_off (s : PollingSchedule) : Prop := idleEnabled s = false.

Ltac idle_off_tac :=
  break_schedule; unfold idle_off in *; simpl in *;
  repeat case_match; simpl in *; congruence.

Lemma executePoll_local now outcome aid st :
  executePoll now outcome aid st = st \/
  exists s,
    schedules st !! aid = Some s /\ isActive s = true /\
    exists act,
      executePoll now outcome aid st
      = local aid
          match outcome with
          | Enqueued _ => after_enqueue now s
          | Threw => after_throw now s
          end act st.
Proof.
  destruct (schedules st !! aid) as [s|] eqn:Hs;
    [|left; unfold executePoll; by rewrite Hs].
  destruct (isActive s) eqn:Hact;
    [|left; unfold executePoll; by rewrite Hs, Hact].
  right. exists s. split; [done|]. split; [done|].
  destruct outcome as [taskId|].
  - eexists. by apply executePoll_Enqueued.
  - eexists. by apply executePoll_Threw.
Qed.

Lemma idle_off_step aid now op st :
  negb (reenables aid op) = true ->
  at_entry idle_off aid st -> at_entry idle_off aid (step now op st).
Proof.
  intros Hop Hst. apply negb_true_iff in Hop.
  destruct (op_account op) as [a|] eqn:Ha.
  - destruct (decide (a = aid)) as [->|Hne]; [|by eapply at_entry_other].
    destruct op; simpl in Ha; try discriminate Ha; injection Ha as Ha; simpl.
    + simpl in Hop. by rewrite bool_decide_eq_false in Hop.
    + subst. apply at_entry_removeAccount.
    + subst aid0.
      destruct (executePoll_local now outcome aid st) as [->|(s & Hs & _ & act & ->)];
        [done|].
      apply at_entry_local. pose proof (Hst s Hs).
      destruct outcome; unfold after_enqueue, after_throw; idle_off_tac.
    + subst aid0. unfold updateAccountVolume. open_at_entry st aid Hst.
      entry_walk idle_off_tac.
    + subst aid0. unfold updateAccountPriority. open_at_entry st aid Hst.
      entry_walk idle_off_tac.
    + subst aid0. unfold pauseAccount. open_at_entry st aid Hst.
      intros s'. simpl. rewrite lookup_insert_eq. intros [= <-]. idle_off_tac.
    + subst aid0. unfold resumeAccount. open_at_entry st aid Hst.
      entry_walk idle_off_tac.
    + subst aid0. destruct success.
      { simpl in Hop. rewrite bool_decide_eq_false in Hop. done. }
      unfold handleIdleTaskCompletion. open_at_entry st aid Hst.
      entry_walk idle_off_tac.
    + subst aid0. destruct enabled.
      { simpl in Hop. rewrite bool_decide_eq_false in Hop. done. }
      unfold setIdleEnabled. open_at_entry st aid Hst.
      entry_walk idle_off_tac.
  - destruct op; try discriminate Ha. intros s. simpl. by rewrite lookup_empty.
Qed.

(** Three IDLE failure reports in a row, at any instants, switch IDLE off
    for the mailbox: the entry ends with [idleEnabled = false] and the
    next service is due 30 s after the third report.  IDLE then stays off,
    and every tick for the mailbox selects a poll task, whatever commands
    follow, until one of them adds the account again or switches IDLE on
    for it ([setIdleEnabled] with [true], or a success report of an IDLE
    task). *)
Theorem three_idle_failures_disable_idle t1 t2 t3 aid st s trace :
  reachable st ->
  schedules st !! aid = Some s ->
  Forall (fun e => negb (reenables aid e.2) = true) trace ->
  let st3 :=
    handleIdleTaskCompletion t3 aid false
      (handleIdleTaskCompletion t2 aid false
         (handleIdleTaskCompletion t1 aid false st)) in
  (exists s3,
     schedules st3 !! aid = Some s3 /\
     idleFailures s3 = idleFailures s + 3 /\
     idleEnabled s3 = false /\
     nextPoll s3 = t3 + 30000) /\
  (forall s',
     schedules (run trace st3) !! aid = Some s' ->
     idleEnabled s' = false /\ forall now, chooseTaskType now s' = poll) /\
  (forall now request,
     Dispatch.pollRequest now aid (run trace st3) = Some request ->
     WorkerPool.req_type request = poll).
Proof.
  intros Hreach Hs Htrace st3.
  destruct (reachable_entry_facts _ _ _ Hreach Hs) as (_ & Hmx & _ & Hfails).
  assert (Hst3 : exists s3,
             schedules st3 !! aid = Some s3 /\
             idleFailures s3 = idleFailures s + 3 /\
             idleEnabled s3 = false /\
             nextPoll s3 = t3 + 30000).
  { unfold st3.
    rewrite (handleIdleTaskCompletion_failure t1 aid st s Hs).
    rewrite (handleIdleTaskCompletion_failure t2 aid _ _ (lookup_local _ _ _ _)).
    rewrite (handleIdleTaskCompletion_failure t3 aid _ _ (lookup_local _ _ _ _)).
    eexists. split; [apply lookup_local|].
    destruct (after_idle_failure_facts t1 s Hmx) as (Hm1 & Hf1 & _).
    destruct (after_idle_failure_facts t2 _ Hm1) as (Hm2 & Hf2 & _).
    destruct (after_idle_failure_facts t3 _ Hm2) as (Hm3 & Hf3 & Hthen).
    rewrite Hf3, Hf2, Hf1 in *.
    destruct Hthen as (Hen & Hnext); [lia|].
    split; [lia|]. split; [exact Hen|]. exact Hnext. }
  assert (Hoff : at_entry idle_off aid (run trace st3)).
  { apply (at_entry_run idle_off aid (fun op => negb (reenables aid op))).
    - intros now op st0. apply idle_off_step.
    - exact Htrace.
    - destruct Hst3 as (s3 & Hs3 & _ & Hen & _).
      intros s'. rewrite Hs3. by intros [= <-]. }
  split; [exact Hst3|]. split.
  - intros s' Hs'. pose proof (Hoff s' Hs') as Hen. split; [exact Hen|].
    intros now. unfold chooseTaskType. unfold idle_off in Hen. by rewrite Hen.
  - intros now request. unfold Dispatch.pollRequest.
    destruct (schedules (run trace st3) !! aid) as [s'|] eqn:Hs'; [|done].
    destruct (negb (isActive s')); [done|].
    intros [= <-]. simpl. pose proof (Hoff s' Hs') as Hen.
    unfold chooseTaskType. unfold idle_off in Hen. by rewrite Hen.
Qed.

Lemma three_idle_failures_disable_idle_witness :
  exists s',
    schedules
      (run [(8000, OpExecutePoll "acc-1" (Enqueued "acc-1_8000_a"));
            (400000, OpUpdateAccountVolume "acc-1" 500);
            (400001, OpExecutePoll "acc-1" (Enqueued "acc-1_400001_b"))]
         (handleIdleTaskCompletion 7000 "acc-1" false
            (handleIdleTaskCompletion 6000 "acc-1" false
               (handleIdleTaskCompletion 5000 "acc-1" false sample_state))))
      !! "acc-1" = Some s' /\
    idleEnabled s' = false /\ lastPolled s' = 400001.
Proof.
  destruct (three_idle_failures_disable_idle 5000 6000 7000 "acc-1" sample_state
              (mkSchedule "acc-1" sample_account high 60000 0 61000 lowVolume
                 1.0%float 0 3 true true true 0 0 3)
              [(8000, OpExecutePoll "acc-1" (Enqueued "acc-1_8000_a"));
               (400000, OpUpdateAccountVolume "acc-1" 500);
               (400001, OpExecutePoll "acc-1" (Enqueued "acc-1_400001_b"))]
              sample_state_reachable)
    as (_ & Hlater & _).
  - reflexivity.
  - repeat constructor.
  - eexists. split; [vm_compute; reflexivity|].
    split; [|reflexivity].
    eapply Hlater. vm_compute. reflexivity.
Defined.

Lemma after_throw_active now s : isActive (after_throw now s) = isActive s.
Proof.
  unfold after_throw. destruct s; simpl. repeat case_match; reflexivity.
Qed.

Lemma after_throw_facts now s :
  maxFailures s = 3 ->
  maxIdleFailures s = 3 ->
  0 <= idleFailures s ->
  let s' := after_throw now s in
  maxFailures s' = 3 /\ maxIdleFailures s' = 3 /\ 0 <= idleFailures s' /\
  consecutiveFailures s' = consecutiveFailures s + 1 /\
  (consecutiveFailures s + 1 < 3 ->
   interval s' = interval s /\ priority s' = priority s) /\
  (3 <= consecutiveFailures s + 1 ->
   priority s' = low /\
   interval s' = Z.min (interval s * 2) 3600000 /\
   nextPoll s' = now + interval s') /\
  (idleEnabled s' && supportsIdle s' = true ->
   idleEnabled s && supportsIdle s = true /\
   idleFailures s' = idleFailures s + 1 /\
   idleFailures s' < 3).
Proof.
  intros Hmf Hmx Hfails. unfold after_throw.
  destruct s as [a b c d e f g h cf mf act sup en att fails mx]; simpl in *.
  subst mf mx.
  destruct (chooseTaskType now _); simpl;
    destruct (en && sup) eqn:Hon; simpl;
    try (destruct (fails + 1 >=? 3) eqn:Hcmp; simpl);
    destruct (cf + 1 >=? 3) eqn:Hq; simpl; rewrite ?Hon; geb_facts;
    repeat split; try done; try lia;
    try (intros Hx; apply andb_true_iff in Hx as [Hx1 Hx2]; congruence);
    try (intros; lia).
Qed.

(** Three ticks in a row on which the hand-over of the task throws, so
    that the [catch] block of [executePoll] runs, starting from a clean
    entry, quarantine the mailbox: priority [low], interval doubled (at
    most one hour), next poll one new interval after the third of them.
    The next tick on which the hand-over returns clears the failure count,
    and leaves the lowered priority and the doubled interval in place. *)
Theorem three_poll_failures_quarantine t1 t2 t3 aid st s :
  reachable st ->
  schedules st !! aid = Some s ->
  isActive s = true ->
  consecutiveFailures s = 0 ->
  let st3 :=
    executePoll t3 Threw aid
      (executePoll t2 Threw aid (executePoll t1 Threw aid st)) in
  exists s3,
    schedules st3 !! aid = Some s3 /\
    consecutiveFailures s3 = 3 /\
    priority s3 = low /\
    interval s3 = Z.min (interval s * 2) 3600000 /\
    nextPoll s3 = t3 + interval s3 /\
    forall t4 taskId, exists s4,
      schedules (executePoll t4 (Enqueued taskId) aid st3) !! aid = Some s4 /\
      consecutiveFailures s4 = 0 /\
      priority s4 = low /\
      interval s4 = interval s3 /\
      lastPolled s4 = t4 /\
      nextPoll s4 = t4 + interval s3.
Proof.
  intros Hreach Hs Hact Hcf st3.
  destruct (reachable_entry_facts _ _ _ Hreach Hs) as (Hmf & Hmx & _ & Hfails).
  assert (Hst3 : st3 = local aid (after_throw t3 (after_throw t2 (after_throw t1 s)))
                         (next_timer t3 (after_throw t3 (after_throw t2 (after_throw t1 s))))
                         (local aid (after_throw t2 (after_throw t1 s))
                            (next_timer t2 (after_throw t2 (after_throw t1 s)))
                            (local aid (after_throw t1 s)
                               (next_timer t1 (after_throw t1 s)) st))).
  { unfold st3.
    rewrite (executePoll_Threw t1 aid st s Hs Hact).
    rewrite (executePoll_Threw t2 aid _ _ (lookup_local _ _ _ _))
      by (by rewrite after_throw_active).
    rewrite (executePoll_Threw t3 aid _ _ (lookup_local _ _ _ _))
      by (by rewrite !after_throw_active).
    reflexivity. }
  clearbody st3. subst st3.
  destruct (after_throw_facts t1 s Hmf Hmx Hfails)
    as (Hmf1 & Hmx1 & Hf1 & Hc1 & Hlow1 & _ & Hidle1).
  destruct (after_throw_facts t2 _ Hmf1 Hmx1 Hf1)
    as (Hmf2 & Hmx2 & Hf2 & Hc2 & Hlow2 & _ & Hidle2).
  destruct (after_throw_facts t3 _ Hmf2 Hmx2 Hf2)
    as (_ & _ & _ & Hc3 & _ & Hhigh3 & Hidle3).
  assert (Hact3 : isActive (after_throw t3 (after_throw t2 (after_throw t1 s))) = true)
    by (by rewrite !after_throw_active).
  set (s1 := after_throw t1 s) in *.
  set (s2 := after_throw t2 s1) in *.
  set (s3 := after_throw t3 s2) in *.
  clearbody s3. clearbody s2. clearbody s1.
  rewrite Hcf in Hc1. rewrite Hc1 in Hc2, Hlow2. rewrite Hc2 in Hc3, Hhigh3.
  destruct Hlow1 as [Hi1 Hp1]; [lia|].
  destruct Hlow2 as [Hi2 Hp2]; [lia|].
  destruct Hhigh3 as (Hp3 & Hi3 & Hn3); [lia|].
  assert (Hoff : idleEnabled s3 && supportsIdle s3 = false).
  { destruct (idleEnabled s3 && supportsIdle s3) eqn:Hon; [|done].
    destruct (Hidle3 eq_refl) as (Hon2 & Hk3 & Hlt3).
    destruct (Hidle2 Hon2) as (Hon1 & Hk2 & _).
    destruct (Hidle1 Hon1) as (_ & Hk1 & _). lia. }
  exists s3. split; [apply lookup_local|].
  split; [lia|]. split; [exact Hp3|].
  split; [rewrite Hi3, Hi2, Hi1; reflexivity|]. split; [exact Hn3|].
  intros t4 taskId.
  rewrite (executePoll_Enqueued t4 taskId aid _ s3 (lookup_local _ _ _ _) Hact3).
  eexists. split; [apply lookup_local|].
  unfold after_enqueue, chooseTaskType. rewrite Hoff.
  destruct s3; simpl in *. subst. done.
Qed.

Lemma three_poll_failures_quarantine_witness :
  exists s3,
    schedules
      (executePoll 7000 Threw "acc-1"
         (executePoll 6000 Threw "acc-1"
            (executePoll 5000 Threw "acc-1" sample_state))) !! "acc-1" = Some s3 /\
    priority s3 = low /\ interval s3 = 120000.
Proof.
  destruct (three_poll_failures_quarantine 5000 6000 7000 "acc-1" sample_state
              (mkSchedule "acc-1" sample_account high 60000 0 61000 lowVolume
                 1.0%float 0 3 true true true 0 0 3)
              sample_state_reachable)
    as (s3 & Hs3 & _ & Hp & Hi & _).
  - reflexivity.
  - reflexivity.
  - reflexivity.
  - exists s3. split; [exact Hs3|]. split; [exact Hp|]. rewrite Hi. reflexivity.
Defined.

(** ** Pausing and resuming *)

(** A paused account is not serviced: it has no timer, and a due tick or a
    firing timer hands no task to the pool and changes nothing. *)
Theorem paused_account_is_not_polled now rnd aid st pool s :
  schedules st !! aid = Some s ->
  let st' := pauseAccount aid st in
  schedules st' !! aid = Some (set_isActive false s) /\
  pollingTimers st' !! aid = None /\
  Dispatch.pollRequest now aid st' = None /\
  Dispatch.executePoll now rnd aid (st', pool) = (st', pool) /\
  forall outcome, executePoll now outcome aid st' = st'.
Proof.
  intros Hs st'.
  assert (Hs' : schedules st' !! aid = Some (set_isActive false s)).
  { unfold st', pauseAccount. rewrite Hs. simpl. apply lookup_insert_eq. }
  assert (Hoff : isActive (set_isActive false s) = false) by (by destruct s).
  split; [exact Hs'|]. split.
  { unfold st', pauseAccount. rewrite Hs. simpl. apply lookup_delete_eq. }
  assert (Hreq : Dispatch.pollRequest now aid st' = None).
  { unfold Dispatch.pollRequest. by rewrite Hs', Hoff. }
  split; [exact Hreq|]. split.
  - unfold Dispatch.executePoll. simpl. by rewrite Hreq.
  - intros outcome. unfold executePoll. by rewrite Hs', Hoff.
Qed.

Lemma paused_account_is_not_polled_witness :
  Dispatch.pollRequest 70000 "acc-1" (pauseAccount "acc-1" sample_state) = None.
Proof.
  apply (paused_account_is_not_polled 70000 "r" "acc-1" sample_state
           (WorkerPool.create 50 300000)
           (mkSchedule "acc-1" sample_account high 60000 0 61000 lowVolume
              1.0%float 0 3 true true true 0 0 3)).
  reflexivity.
Defined.

(** Pausing and then resuming an active account gives back its entry with
    only the due time moved to one interval after the resumption, and arms
    the timer for that instant. *)
Theorem pause_then_resume now aid st s :
  reachable st ->
  schedules st !! aid = Some s ->
  isActive s = true ->
  let st' := resumeAccount now aid (pauseAccount aid st) in
  schedules st' !! aid = Some (set_nextPoll (now + interval s) s) /\
  pollingTimers st' !! aid = Some (now + interval s) /\
  forall other, other <> aid ->
    schedules st' !! other = schedules st !! other /\
    pollingTimers st' !! other = pollingTimers st !! other.
Proof.
  intros Hreach Hs Hact st'.
  pose proof (reachable_interval st aid s Hreach Hs) as Hint.
  assert (Hst' : st' = local aid (set_nextPoll (now + interval s) s)
                         (Arm (now + interval s))
                         (pauseAccount aid st)).
  { unfold st', resumeAccount, pauseAccount. rewrite Hs. simpl.
    rewrite lookup_insert_eq.
    change (mkState (<[aid:=?x]> ?m) ?t) with (store aid x (mkState m t)).
    rewrite scheduleNextPoll_store. f_equal.
    - destruct s; simpl in *. by subst.
    - unfold next_timer. destruct s; simpl in *. subst. simpl. f_equal. lia. }
  rewrite Hst'. split; [apply lookup_local|]. split; [by rewrite timer_local|].
  intros other Hne.
  destruct (lookup_local_ne aid other (set_nextPoll (now + interval s) s)
              (Arm (now + interval s)) (pauseAccount aid st) Hne) as [-> ->].
  apply (step_other now (OpPauseAccount aid) st aid other eq_refl Hne).
Qed.

Lemma pause_then_resume_witness :
  pollingTimers (resumeAccount 80000 "acc-1" (pauseAccount "acc-1" sample_state))
    !! "acc-1" = Some 140000.
Proof.
  apply (pause_then_resume 80000 "acc-1" sample_state
           (mkSchedule "acc-1" sample_account high 60000 0 61000 lowVolume
              1.0%float 0 3 true true true 0 0 3) sample_state_reachable).
  - reflexivity.
  - reflexivity.
Defined.

(** ** Volume reports *)

(** A volume report never postpones the next poll.  A report in the
    current tier changes nothing; a report in another tier installs that
    tier and its interval and, when the poll is still ahead, pulls it in
    to at most one new interval from now. *)
Theorem volume_report_never_postpones now aid emailCount st s :
  schedules st !! aid = Some s ->
  exists s',
    schedules (updateAccountVolume now aid emailCount st) !! aid = Some s' /\
    nextPoll s' <= nextPoll s /\
    (classifyVolume emailCount = emailVolume s ->
     updateAccountVolume now aid emailCount st = st) /\
    (classifyVolume emailCount <> emailVolume s ->
     emailVolume s' = classifyVolume emailCount /\
     interval s' = adaptiveIntervals (classifyVolume emailCount) /\
     nextPoll s' = if nextPoll s - now >? 0
                   then now + Z.min (nextPoll s - now) (interval s')
                   else nextPoll s).
Proof.
  intros Hs. unfold updateAccountVolume. rewrite Hs. cbv zeta.
  destruct (decide (classifyVolume emailCount = emailVolume s)) as [Heq|Hne].
  - exists s. split; [done|]. split; [lia|]. split; [done|].
    intros Hne. by destruct Hne.
  - destruct s as [a b c d e np g h i j act sup en att fails mx]; simpl in *.
    destruct (np - now >? 0) eqn:Hahead.
    + rewrite scheduleNextPoll_store. eexists. split; [apply lookup_local|].
      simpl. split; [|split; [intros Heq; by destruct Hne | by intros _]].
      rewrite Z.gtb_ltb in Hahead. apply Z.ltb_lt in Hahead. lia.
    + eexists. split; [apply lookup_store|].
      simpl. split; [lia|]. split; [intros Heq; by destruct Hne | by intros _].
Qed.

Lemma volume_report_never_postpones_witness :
  exists s',
    schedules (updateAccountVolume 2000 "acc-1" 500 sample_state) !! "acc-1"
    = Some s' /\ nextPoll s' <= 61000.
Proof.
  destruct (volume_report_never_postpones 2000 "acc-1" 500 sample_state
              (mkSchedule "acc-1" sample_account high 60000 0 61000 lowVolume
                 1.0%float 0 3 true true true 0 0 3))
    as (s' & Hs' & Hle & _).
  - reflexivity.
  - exists s'. split; [exact Hs'|]. exact Hle.
Defined.

(** ** IDLE attempts *)

(** The command that creates the entry of the mailbox [aid] anew. *)
Definition readds (aid : string) (op : Op) : bool :=
  match op with
  | OpAddAccount acct _ => bool_decide (id acct = aid)
  | _ => false
  end.

Definition attempted_since (since : Z) (s : PollingSchedule) : Prop :=
  since <= lastIdleAttempt s.

Ltac attempted_tac :=
  break_schedule; unfold attempted_since, chooseTaskType in *; simpl in *;
  repeat case_match; simpl in *; geb_facts; try congruence; try lia.

Lemma attempted_since_step since aid now op st :
  negb (readds aid op) = true ->
  at_entry (attempted_since since) aid st ->
  at_entry (attempted_since since) aid (step now op st).
Proof.
  intros Hop Hst. apply negb_true_iff in Hop.
  destruct (op_account op) as [a|] eqn:Ha.
  - destruct (decide (a = aid)) as [->|Hne]; [|by eapply at_entry_other].
    destruct op; simpl in Ha; try discriminate Ha; injection Ha as Ha; simpl.
    + simpl in Hop. by rewrite bool_decide_eq_false in Hop.
    + subst. apply at_entry_removeAccount.
    + subst aid0.
      destruct (executePoll_local now outcome aid st) as [->|(s & Hs & _ & act & ->)];
        [done|].
      apply at_entry_local. pose proof (Hst s Hs).
      destruct outcome; unfold after_enqueue, after_throw; attempted_tac.
    + subst aid0. unfold updateAccountVolume. open_at_entry st aid Hst.
      entry_walk attempted_tac.
    + subst aid0. unfold updateAccountPriority. open_at_entry st aid Hst.
      entry_walk attempted_tac.
    + subst aid0. unfold pauseAccount. open_at_entry st aid Hst.
      intros s'. simpl. rewrite lookup_insert_eq. intros [= <-]. attempted_tac.
    + subst aid0. unfold resumeAccount. open_at_entry st aid Hst.
      entry_walk attempted_tac.
    + subst aid0. unfold handleIdleTaskCompletion. open_at_entry st aid Hst.
      entry_walk attempted_tac.
    + subst aid0. unfold setIdleEnabled. open_at_entry st aid Hst.
      entry_walk attempted_tac.
  - destruct op; try discriminate Ha. intros s. simpl. by rewrite lookup_empty.
Qed.

(** After a due tick has chosen an IDLE task for a mailbox, no further
    IDLE task is chosen for it during the next five minutes: a tick in
    that period chooses a poll.  This holds right after the IDLE tick and
    after any commands that follow it, as long as none of them adds the
    account again (which resets the time of the last IDLE attempt). *)
Theorem idle_attempt_cooldown now later rnd aid st pool s trace :
  schedules st !! aid = Some s ->
  isActive s = true ->
  chooseTaskType now s = idle ->
  now <= later <= now + 300000 ->
  Forall (fun e => negb (readds aid e.2) = true) trace ->
  let st' := (Dispatch.executePoll now rnd aid (st, pool)).1 in
  (exists request,
     Dispatch.pollRequest later aid st' = Some request /\
     WorkerPool.req_type request = poll) /\
  (forall request,
     Dispatch.pollRequest later aid (run trace st') = Some request ->
     WorkerPool.req_type request = poll).
Proof.
  intros Hs Hact Hidle Hlater Htrace st'.
  assert (Hreq : exists request, Dispatch.pollRequest now aid st = Some request).
  { unfold Dispatch.pollRequest. rewrite Hs, Hact. simpl. by eexists. }
  destruct Hreq as [request0 Hreq].
  assert (Hst' : st' = local aid (after_enqueue now s) (enqueue_timer now s) st).
  { unfold st', Dispatch.executePoll. cbn [fst snd]. rewrite Hreq.
    destruct (WorkerPool.addTask _ _ _ _) as [taskId pool'] eqn:Hadd. cbn [fst snd].
    apply (executePoll_Enqueued now taskId aid st s Hs Hact). }
  assert (Hafter : after_enqueue now s = set_lastIdleAttempt now s)
    by (unfold after_enqueue; by rewrite Hidle).
  assert (Hcool : forall s0,
             attempted_since now s0 -> chooseTaskType later s0 = poll).
  { intros s0 Hs0. unfold chooseTaskType, attempted_since in *.
    destruct (idleEnabled s0 && supportsIdle s0); [|done].
    destruct (later - lastIdleAttempt s0 >? 300000) eqn:Hgt; [geb_facts; lia|done]. }
  assert (Hinv : at_entry (attempted_since now) aid st').
  { rewrite Hst'. apply at_entry_local. rewrite Hafter.
    unfold attempted_since. destruct s; simpl. lia. }
  split.
  - unfold Dispatch.pollRequest. rewrite Hst', lookup_local, Hafter.
    assert (isActive (set_lastIdleAttempt now s) = true) as -> by (by destruct s).
    simpl. eexists. split; [reflexivity|]. simpl.
    apply Hcool. unfold attempted_since. destruct s; simpl. lia.
  - intros request. unfold Dispatch.pollRequest.
    destruct (schedules (run trace st') !! aid) as [s'|] eqn:Hs'; [|done].
    destruct (negb (isActive s')); [done|].
    intros [= <-]. simpl. apply Hcool.
    eapply (at_entry_run (attempted_since now) aid (fun op => negb (readds aid op)));
      [|exact Htrace|exact Hinv|exact Hs'].
    intros t op st0. apply attempted_since_step.
Qed.

Lemma idle_attempt_cooldown_witness :
  exists request,
    Dispatch.pollRequest 400000 "acc-1"
      (run [(320000, OpHandleIdleTaskCompletion "acc-1" true);
            (380000, OpExecutePoll "acc-1" (Enqueued "acc-1_380000_a"))]
         (Dispatch.executePoll 310000 "r" "acc-1"
            (sample_state, WorkerPool.create 50 300000)).1) = Some request /\
    WorkerPool.req_type request = poll.
Proof.
  destruct (idle_attempt_cooldown 310000 400000 "r" "acc-1" sample_state
              (WorkerPool.create 50 300000)
              (mkSchedule "acc-1" sample_account high 60000 0 61000 lowVolume
                 1.0%float 0 3 true true true 0 0 3)
              [(320000, OpHandleIdleTaskCompletion "acc-1" true);
               (380000, OpExecutePoll "acc-1" (Enqueued "acc-1_380000_a"))])
    as (_ & Hlater).
  - reflexivity.
  - reflexivity.
  - reflexivity.
  - lia.
  - repeat constructor.
  - eexists. split; [vm_compute; reflexivity|].
    apply Hlater. vm_compute. reflexivity.
Defined.

(** ** The scheduler with its worker pool *)

Definition never_failed (s : PollingSchedule) : Prop :=
  consecutiveFailures s = 0 /\
  (interval s = 60000 \/ interval s = 300000 \/ interval s = 900000).

Ltac never_tac :=
  break_schedule;
  unfold never_failed, baseIntervals, adaptiveIntervals, classifyVolume in *;
  simpl in *; repeat case_match; simpl; intuition lia.

Lemma never_failed_control now op st :
  Dispatch.is_poll op = false ->
  entries never_failed st -> entries never_failed (step now op st).
Proof.
  intros Hop Hst. destruct op; simpl; try discriminate Hop.
  - unfold addAccount. apply entries_scheduleNextPoll, entries_store.
    + by apply entries_removeAccount.
    + unfold never_failed; simpl. destruct prio; simpl; intuition lia.
  - by apply entries_removeAccount.
  - unfold updateAccountVolume. open_entry never_failed st aid Hst.
    entries_step never_tac.
  - unfold updateAccountPriority. open_entry never_failed st aid Hst.
    entries_step never_tac.
  - unfold pauseAccount. open_entry never_failed st aid Hst.
    unfold entries; simpl. apply map_Forall_insert_2; [|done]. never_tac.
  - unfold resumeAccount. open_entry never_failed st aid Hst.
    entries_step never_tac.
  - unfold handleIdleTaskCompletion. open_entry never_failed st aid Hst.
    entries_step never_tac.
  - unfold setIdleEnabled. open_entry never_failed st aid Hst.
    entries_step never_tac.
  - apply entries_empty.
Qed.

Lemma never_failed_poll now rnd aid sys :
  entries never_failed sys.1 ->
  entries never_failed (Dispatch.executePoll now rnd aid sys).1.
Proof.
  intros Hst. unfold Dispatch.executePoll.
  destruct (Dispatch.pollRequest now aid sys.1) as [request|]; [|done].
  destruct (WorkerPool.addTask _ _ _ _) as [taskId pool']. simpl.
  unfold executePoll. open_entry never_failed sys.1 aid Hst.
  destruct (negb (isActive s)); [done|].
  entries_step never_tac.
Qed.

(** With polls going through [WorkerPool.addTask], which has no failing
    exit, the failure branch of [executePoll] is never taken: in every
    state of the combined system each entry has [consecutiveFailures = 0]
    and an interval of 60 s, 300 s or 900 s, so no mailbox is ever
    quarantined. *)
Theorem pool_backed_scheduler_never_quarantines sys aid s :
  Dispatch.reachable sys ->
  schedules sys.1 !! aid = Some s ->
  consecutiveFailures s = 0 /\
  (interval s = 60000 \/ interval s = 300000 \/ interval s = 900000).
Proof.
  intros Hreach. revert aid s.
  change (entries never_failed sys.1).
  induction Hreach as [maxW timeout|now rnd aid sys _ IH|now op sys Hop _ IH|sys pool _ IH].
  - apply entries_empty.
  - by apply never_failed_poll.
  - simpl. by apply never_failed_control.
  - exact IH.
Qed.

Definition sample_system : State * WorkerPool.Pool :=
  Dispatch.executePoll 70000 "r" "acc-1"
    (step 1000 (OpAddAccount sample_account high) Scheduler.empty,
     WorkerPool.create 50 300000).

Lemma sample_system_reachable : Dispatch.reachable sample_system.
Proof.
  apply Dispatch.reachable_poll.
  apply (Dispatch.reachable_control 1000 (OpAddAccount sample_account high)
           (Scheduler.empty, WorkerPool.create 50 300000)); [done|].
  apply Dispatch.reachable_start.
Qed.

Lemma pool_backed_scheduler_never_quarantines_witness :
  exists s, schedules sample_system.1 !! "acc-1" = Some s /\
            consecutiveFailures s = 0.
Proof.
  eexists. split; [reflexivity|].
  eapply (pool_backed_scheduler_never_quarantines sample_system "acc-1").
  - exact sample_system_reachable.
  - reflexivity.
Defined.

End SchedulerMore.

(** * The scheduler and the polls of the worker *)

Module ProcessFacts.

Import Scheduler SchedulerFacts SchedulerMore Process.








End ProcessFacts.

(** * More on the worker pool *)

Module WorkerPoolMore.

Import WorkerPool WorkerPoolFacts WorkerPoolRun.

Definition weight (t : WorkerTask) : Z := getPriorityWeight (priority t).

(** A queue in which no task stands behind one of lower priority. *)
Definition prioritised (queue : list WorkerTask) : Prop :=
  StronglySorted (fun x y => weight y <= weight x) queue.

Lemma prioritised_app_inv l1 l2 :
  prioritised (l1 ++ l2) ->
  prioritised l1 /\ prioritised l2 /\
  Forall (fun x => Forall (fun y => weight y <= weight x) l2) l1.
Proof.
  unfold prioritised. induction l1 as [|a l1 IH]; simpl; intros H.
  - split; [constructor|]. split; [done|constructor].
  - apply StronglySorted_inv in H as [H Ha].
    destruct (IH H) as (H1 & H2 & H3).
    apply Forall_app in Ha as [Ha1 Ha2].
    split; [by constructor|]. split; [done|]. by constructor.
Qed.

Lemma prioritised_app l1 l2 :
  prioritised l1 -> prioritised l2 ->
  Forall (fun x => Forall (fun y => weight y <= weight x) l2) l1 ->
  prioritised (l1 ++ l2).
Proof.
  unfold prioritised. induction l1 as [|a l1 IH]; simpl; intros H1 H2 H3; [done|].
  apply StronglySorted_inv in H1 as [H1 Ha].
  apply Forall_cons in H3 as [Ha2 H3].
  constructor; [by apply IH|]. apply Forall_app. by split.
Qed.

Definition task_of (p : Priority) (name : string) : WorkerTask :=
  newTask 1 name
    (mkRequest "acc-1"
       (mkAccount "acc-1" "ann@example.org" "imap.gmail.com" 993 (Some 2000) true)
       p poll 2).

(** The queue insertion of [addTask] keeps a priority-ordered queue
    ordered and is first-in first-out within a priority: the new task goes
    behind every queued task of its own or a higher priority and in front
    of every task of a lower one, and the other tasks keep their order. *)
Theorem enqueue_keeps_priority_order (t : WorkerTask) (queue : list WorkerTask) :
  prioritised queue ->
  exists before after,
    queue = (before ++ after)%list /\
    enqueue t queue = (before ++ t :: after)%list /\
    Forall (fun x => weight t <= weight x) before /\
    Forall (fun x => weight x < weight t) after /\
    prioritised (enqueue t queue).
Proof.
  intros Hq.
  destruct (enqueue_position t queue) as (before & after & Hsplit & Henq & Hb & Ha).
  exists before, after. split; [done|]. split; [done|]. split; [done|].
  subst queue. apply prioritised_app_inv in Hq as (Hq1 & Hq2 & Hq3).
  assert (Hafter : Forall (fun x => weight x < weight t) after).
  { destruct after as [|a after]; [constructor|].
    pose proof Hq2 as Hq2'. apply StronglySorted_inv in Hq2' as [_ Hle].
    constructor; [exact Ha|].
    eapply Forall_impl; [exact Hle|]. simpl. unfold weight in *. intros y Hy. lia. }
  split; [done|]. rewrite Henq.
  apply prioritised_app; [done| |].
  - constructor; [done|].
    eapply Forall_impl; [exact Hafter|]. simpl. intros y Hy. lia.
  - rewrite Forall_forall in Hq3, Hb. apply Forall_forall. intros x Hx.
    constructor; [by apply Hb|by apply Hq3].
Qed.

Lemma enqueue_keeps_priority_order_witness :
  exists before after,
    [task_of high "a"; task_of low "b"] = (before ++ after)%list /\
    enqueue (task_of medium "c") [task_of high "a"; task_of low "b"]
    = (before ++ task_of medium "c" :: after)%list /\
    Forall (fun x => weight (task_of medium "c") <= weight x) before /\
    Forall (fun x => weight x < weight (task_of medium "c")) after /\
    prioritised (enqueue (task_of medium "c") [task_of high "a"; task_of low "b"]).
Proof.
  apply (enqueue_keeps_priority_order (task_of medium "c")
           [task_of high "a"; task_of low "b"]).
  repeat constructor; vm_compute; discriminate.
Defined.

(** ** The health check *)

Definition stuck (now timeout : Z) (w : WorkerStats) : bool :=
  (now - lastActivity w >? timeout) && is_busy (status w).

Definition released (w : WorkerStats) : WorkerStats :=
  set_currentTask None (set_status st_idle w).

Lemma put_worker_fresh wid w (done rest : list (string * WorkerStats)) v :
  wid ∉ done.*1 ->
  put_worker wid w (done ++ (wid, v) :: rest) = (done ++ (wid, w) :: rest)%list.
Proof.
  induction done as [|[k u] done IH]; simpl; intros Hn.
  - by rewrite String.eqb_refl.
  - apply not_elem_of_cons in Hn as [Hne Hn].
    destruct (String.eqb k wid) eqn:Hk.
    + apply String.eqb_eq in Hk. congruence.
    + by rewrite IH.
Qed.

Lemma resetIfStuck_entry now (done todo : list (string * WorkerStats))
    k w q act mx tmo :
  k ∉ done.*1 ->
  resetIfStuck now (mkPool (done ++ (k, w) :: todo)%list q act mx tmo) (k, w)
  = mkPool
      ((done ++ [(k, if stuck now tmo w then released w else w)]) ++ todo)%list q
      (act - (if stuck now tmo w then 1 else 0)) mx tmo.
Proof.
  intros Hk. unfold resetIfStuck. cbn [workerTimeout lastActivity].
  fold (stuck now tmo w). rewrite <- app_assoc.
  destruct (stuck now tmo w) eqn:Hst.
  - cbn [workers activeWorkers set_workers set_activeWorkers].
    rewrite put_worker_fresh by done.
    destruct w; reflexivity.
  - by rewrite Z.sub_0_r.
Qed.

Lemma performHealthCheck_fold now (done todo : list (string * WorkerStats))
    q act mx tmo :
  NoDup ((done ++ todo)%list).*1 ->
  fold_left (resetIfStuck now) todo (mkPool (done ++ todo)%list q act mx tmo)
  = mkPool
      (done ++ List.map (fun e => (e.1, if stuck now tmo e.2 then released e.2 else e.2)) todo)%list
      q
      (act - Z.of_nat (length (List.filter (fun e => stuck now tmo e.2) todo)))
      mx tmo.
Proof.
  revert done act. induction todo as [|[k w] todo IH]; intros done act Hnd.
  - simpl. by rewrite Z.sub_0_r.
  - cbn [fold_left List.map List.filter fst snd].
    assert (Hk : k ∉ done.*1).
    { rewrite fmap_app in Hnd. apply NoDup_app in Hnd as (_ & Hdis & _).
      intros Hin. apply (Hdis k Hin). simpl. apply elem_of_cons. by left. }
    rewrite resetIfStuck_entry by done.
    rewrite IH.
    + rewrite <- app_assoc. simpl. f_equal.
      destruct (stuck now tmo w); simpl; lia.
    + rewrite <- app_assoc. simpl.
      rewrite !fmap_app in *. simpl in *. done.
Qed.

(** The health check, for a pool whose worker ids are distinct: exactly
    the workers that are busy and have been silent for longer than the
    timeout are set idle and lose their task, the counter of active
    workers drops by their number, and the queue and every other worker
    stay as they were. *)
Theorem performHealthCheck_resets_exactly_stuck (now : Z) (p : Pool) :
  NoDup (workers p).*1 ->
  performHealthCheck now p
  = mkPool
      (List.map (fun e => (e.1, if stuck now (workerTimeout p) e.2
                                then released e.2 else e.2)) (workers p))
      (taskQueue p)
      (activeWorkers p
       - Z.of_nat (length (List.filter (fun e => stuck now (workerTimeout p) e.2)
                             (workers p))))
      (maxWorkers p) (workerTimeout p).
Proof.
  intros Hnd. destruct p as [ws q act mx tmo]. unfold performHealthCheck.
  cbn [workers taskQueue activeWorkers maxWorkers workerTimeout].
  exact (performHealthCheck_fold now [] ws q act mx tmo Hnd).
Qed.

Definition two_workers : Pool :=
  mkPool [("worker-1", mkWorker "worker-1" st_busy 4 0 (Some queued_task) 1000 0 0);
          ("worker-2", mkWorker "worker-2" st_busy 1 0 (Some queued_task) 350000 0 0)]
    [queued_task] 2 50 300000.

Lemma performHealthCheck_resets_exactly_stuck_witness :
  performHealthCheck 400000 two_workers
  = mkPool [("worker-1", mkWorker "worker-1" st_idle 4 0 None 1000 0 0);
            ("worker-2", mkWorker "worker-2" st_busy 1 0 (Some queued_task) 350000 0 0)]
      [queued_task] 1 50 300000.
Proof.
  rewrite (performHealthCheck_resets_exactly_stuck 400000 two_workers).
  - reflexivity.
  - apply (bool_decide_unpack _). vm_compute. reflexivity.
Defined.

(** ** Settling, retrying and the event loop *)

Lemma processNextTask_dispatch now p :
  match dispatch p with
  | None => processNextTask now p = p
  | Some (wid, task) =>
      exists rest w,
        taskQueue p = task :: rest /\
        get_worker wid (workers p) = Some w /\
        activeWorkers p < maxWorkers p /\
        processNextTask now p
        = mkPool
            (put_worker wid
               (set_lastActivity now (set_currentTask (Some task) (set_status st_busy w)))
               (workers p))
            rest (activeWorkers p + 1) (maxWorkers p) (workerTimeout p)
  end.
Proof.
  unfold dispatch, processNextTask.
  destruct (_ || _) eqn:Hguard; [done|].
  apply orb_false_iff in Hguard as [_ Hact].
  destruct p as [ws q act mx tmo];
    cbn [taskQueue workers set_taskQueue activeWorkers maxWorkers] in *.
  destruct q as [|task rest]; [done|].
  destruct (findAvailableWorker ws) as [wid|] eqn:Hfind; [|done].
  destruct (findAvailableWorker_get _ _ Hfind) as [w Hw]. rewrite Hw.
  exists rest, w. split; [done|]. split; [done|]. split; [lia|].
  unfold executeTask_start. cbn [workers]. rewrite Hw. reflexivity.
Qed.

Lemma put_worker_keys wid w ws : (put_worker wid w ws).*1 = ws.*1.
Proof.
  induction ws as [|[k v] ws IH]; [done|]. cbn [put_worker].
  destruct (String.eqb k wid); [done|]. rewrite !fmap_cons. by rewrite IH.
Qed.

Lemma get_worker_keys wid ws : is_Some (get_worker wid ws) <-> wid ∈ ws.*1.
Proof.
  induction ws as [|[k v] ws IH]; simpl.
  - split; [by intros [? ?]|by intros ?%elem_of_nil].
  - destruct (String.eqb k wid) eqn:Hk.
    + apply String.eqb_eq in Hk as ->. split; [intros _; apply elem_of_cons; by left|by eexists].
    + apply String.eqb_neq in Hk. rewrite IH, elem_of_cons.
      split; [by right|]. by intros [?|?]; [congruence|].
Qed.

Lemma put_worker_Forall (Q : WorkerStats -> Prop) wid w ws :
  Forall (fun e => Q e.2) ws -> Q w -> Forall (fun e => Q e.2) (put_worker wid w ws).
Proof.
  intros H Hw. induction H as [|[k v] ws Hv H IH]; simpl; [constructor|].
  destruct (String.eqb k wid); constructor; auto.
Qed.

(** A retried task is put at the head of the queue, in front of tasks of
    any priority: after the retry timer has fired the task is the first in
    the queue, or a worker has taken it at once and the queue is as
    before. *)
Theorem retried_task_jumps_queue (now : Z) (task : WorkerTask) (p : Pool) :
  let p' := retryTimerFired now task p in
  taskQueue p' = task :: taskQueue p \/
  (taskQueue p' = taskQueue p /\
   exists wid w, get_worker wid (workers p') = Some w /\
                 currentTask w = Some task /\ status w = st_busy).
Proof.
  cbv zeta. unfold retryTimerFired.
  destruct (processNextTask_queue now (set_taskQueue (task :: taskQueue p) p))
    as [Hsame | (head & rest & wid & w & Hq & Hrest & Hw & Hcur & Hst & _)].
  - left. rewrite Hsame. by destruct p.
  - right. assert (head = task /\ rest = taskQueue p) as [-> ->].
    { destruct p; simpl in Hq. by injection Hq. }
    split; [done|]. by exists wid, w.
Qed.

(** *** The retry budget *)

Definition within_budget (t : WorkerTask) : Prop :=
  0 <= retryCount t <= Z.max 0 (maxRetries t).

Definition worker_ok (w : WorkerStats) : Prop :=
  from_option within_budget True (currentTask w).

Definition budget_kept (sys : Sys) : Prop :=
  Forall within_budget (taskQueue (pool sys)) /\
  Forall (fun e => worker_ok e.2) (workers (pool sys)) /\
  Forall (fun e => within_budget e.2) (running sys) /\
  Forall (fun e => within_budget e.2 /\ 1 <= retryCount e.2 /\
                   e.1.2 = Z.min (1000 * 2 ^ retryCount e.2) 30000 /\
                   2000 <= e.1.2 <= 30000)
    (retryTimers sys).

Lemma retryOf_budget now t d t' :
  within_budget t -> retryOf now t = Some (d, t') ->
  within_budget t' /\ 1 <= retryCount t' /\
  d = Z.min (1000 * 2 ^ retryCount t') 30000 /\ 2000 <= d <= 30000.
Proof.
  unfold within_budget, retryOf. intros Hb.
  destruct (retryCount t <? maxRetries t) eqn:Hlt; [|discriminate].
  apply Z.ltb_lt in Hlt. intros [= <- <-].
  destruct t as [a b c e f g rc mr]; simpl in *.
  split; [lia|]. split; [lia|]. split; [done|].
  assert (2 ^ 1 <= 2 ^ (rc + 1)) by (apply Z.pow_le_mono_r; lia).
  change (2 ^ 1) with 2 in *. lia.
Qed.

Lemma next_budget now p run timers :
  budget_kept (mkSys p run timers) -> budget_kept (next now p run timers).
Proof.
  unfold budget_kept, next; cbn [pool running retryTimers].
  intros (Hq & Hw & Hr & Ht).
  pose proof (processNextTask_dispatch now p) as Hd.
  destruct (dispatch p) as [[wid task]|].
  - destruct Hd as (rest & w & Hqueue & Hget & _ & ->).
    cbn [taskQueue workers]. rewrite Hqueue in Hq.
    apply Forall_cons in Hq as [Htask Hrest].
    split; [done|]. split.
    + apply put_worker_Forall; [done|]. by destruct w.
    + split; [|done]. apply Forall_app. split; [done|]. by constructor.
  - rewrite Hd. simpl. rewrite app_nil_r. done.
Qed.

Lemma workerDone_budget failed wid p :
  Forall (fun e => worker_ok e.2) (workers p) ->
  Forall (fun e => worker_ok e.2)
    (workers (workerDone failed wid p)) /\
  taskQueue (workerDone failed wid p) = taskQueue p.
Proof.
  intros Hw. unfold workerDone.
  destruct (get_worker wid (workers p)) as [w|]; [|done].
  destruct p as [ws q act mx tmo]; cbn [workers taskQueue set_workers set_activeWorkers].
  split; [|done]. apply put_worker_Forall; [done|].
  destruct w, failed; done.
Qed.

Lemma resetIfStuck_budget now p e :
  Forall (fun e => worker_ok e.2) (workers p) ->
  Forall (fun e => worker_ok e.2)
    (workers (resetIfStuck now p e)).
Proof.
  intros Hw. unfold resetIfStuck. destruct e as [wid w].
  destruct (_ && _); [|done].
  destruct w; simpl. destruct p; simpl in *.
  by apply put_worker_Forall.
Qed.

Lemma performHealthCheck_budget now p :
  Forall (fun e => worker_ok e.2) (workers p) ->
  Forall (fun e => worker_ok e.2)
    (workers (performHealthCheck now p)).
Proof.
  unfold performHealthCheck. generalize (workers p) at 2 as ws. intros ws.
  revert p. induction ws as [|e ws IH]; intros p Hw; simpl; [done|].
  apply IH. by apply resetIfStuck_budget.
Qed.

Lemma Forall_delete_nth {A} (Q : A -> Prop) (l : list A) i :
  Forall Q l -> Forall Q (delete i l).
Proof.
  intros H. revert i. induction H as [|x l Hx H IH]; intros [|i]; simpl;
    try constructor; auto.
Qed.

Lemma step_budget now ev sys : budget_kept sys -> budget_kept (step now ev sys).
Proof.
  intros Hb. pose proof Hb as (Hq & Hw & Hr & Ht).
  destruct sys as [p run timers]; cbn [pool running retryTimers] in *.
  destruct ev as [rnd request| |i|i|i]; cbn [step pool running retryTimers].
  - apply next_budget. unfold budget_kept; cbn [pool running retryTimers].
    split; [|by destruct p]. destruct p; cbn [taskQueue set_taskQueue].
    destruct (enqueue_position (newTask now rnd request) taskQueue0)
      as (b & a & -> & -> & _).
    simpl in Hq. apply Forall_app in Hq as [Hb1 Ha1].
    apply Forall_app. split; [done|]. constructor; [|done].
    unfold within_budget; simpl. lia.
  - unfold budget_kept; cbn [pool running retryTimers].
    rewrite performHealthCheck_taskQueue. split; [done|].
    split; [by apply performHealthCheck_budget|done].
  - destruct (run !! i) as [[wid task]|] eqn:Hi; [|done].
    apply next_budget. unfold budget_kept; cbn [pool running retryTimers].
    destruct (workerDone_budget false wid p Hw) as [Hw' ->].
    split; [done|]. split; [done|]. split; [by apply Forall_delete_nth|done].
  - destruct (run !! i) as [[wid task]|] eqn:Hi; [|done].
    apply next_budget. unfold budget_kept; cbn [pool running retryTimers].
    destruct (workerDone_budget true wid p Hw) as [Hw' ->].
    split; [done|]. split; [done|]. split; [by apply Forall_delete_nth|].
    destruct (retryOf now task) as [[d t']|] eqn:Hretry; [|done].
    apply Forall_app. split; [done|]. constructor; [|constructor].
    rewrite Forall_forall in Hr. specialize (Hr (wid, task)).
    apply (retryOf_budget now task d t'); [|done].
    apply Hr. by eapply list_elem_of_lookup_2.
  - destruct (timers !! i) as [[[setAt d] task]|] eqn:Hi; [|done].
    destruct (now <? setAt + d); [done|].
    apply next_budget. unfold budget_kept; cbn [pool running retryTimers].
    split; [|split; [by destruct p|split; [done|by apply Forall_delete_nth]]].
    destruct p; cbn [taskQueue set_taskQueue] in *. constructor; [|done].
    rewrite Forall_forall in Ht. apply (Ht (setAt, d, task)).
    by eapply list_elem_of_lookup_2.
Qed.

Lemma run_budget evs sys : budget_kept sys -> budget_kept (run evs sys).
Proof.
  revert sys. induction evs as [|[now ev] evs IH]; intros sys H; simpl; [done|].
  apply IH. by apply step_budget.
Qed.

Definition idle_worker (name : string) : WorkerStats :=
  mkWorker name st_idle 0 0 None 0 0 0.

(** The events of a failing task: added at 10, rejected at 20, its retry
    timer fires at 2020, rejected again at 2030. *)
Definition failing_run : list (Z * Event) :=
  [(10, EvAddTask "k3j9x0q2a" sample_request); (20, EvRejected 0%nat);
   (2020, EvRetryTimer 0%nat); (2030, EvRejected 0%nat)].

(** The retry budget holds throughout: started from a pool whose workers
    hold no task, whatever tasks are added, settle, are reset or retried,
    every task in the queue, on a worker, in flight or waiting for its
    retry timer has been retried at most [maxRetries] times, and every
    retry timer waits [min(1000 * 2^retryCount, 30000)] ms, between 2 s and
    30 s, for the count already raised. *)
Theorem retry_budget_is_kept (ws : list (string * WorkerStats)) (maxW timeout : Z)
    (evs : list (Z * Event)) :
  Forall (fun e => currentTask e.2 = None) ws ->
  let sys := run evs (boot ws maxW timeout) in
  Forall within_budget (taskQueue (pool sys)) /\
  Forall (fun e => forall t, currentTask e.2 = Some t -> within_budget t)
    (workers (pool sys)) /\
  Forall (fun e => within_budget e.2) (running sys) /\
  Forall (fun e => within_budget e.2 /\ 1 <= retryCount e.2 /\
                   e.1.2 = Z.min (1000 * 2 ^ retryCount e.2) 30000 /\
                   2000 <= e.1.2 <= 30000)
    (retryTimers sys).
Proof.
  intros Hws sys.
  assert (H : budget_kept sys).
  { apply run_budget. unfold budget_kept, boot; cbn [pool running retryTimers].
    split; [constructor|]. split; [|split; constructor].
    eapply Forall_impl; [exact Hws|]. unfold worker_ok. intros e ->. done. }
  destruct H as (Hq & Hw & Hr & Ht).
  split; [done|]. split; [|done].
  eapply Forall_impl; [exact Hw|]. unfold worker_ok. intros e He t Hcur.
  by rewrite Hcur in He.
Qed.

Lemma retry_budget_is_kept_witness :
  let sys := run failing_run (boot [("worker-1", idle_worker "worker-1")] 50 300000) in
  retryTimers sys = [(2030, 4000, set_createdAt 2030 (set_retryCount 2 (newTask 10 "k3j9x0q2a" sample_request)))]
  /\ Forall (fun e => within_budget e.2 /\ 1 <= retryCount e.2 /\
                   e.1.2 = Z.min (1000 * 2 ^ retryCount e.2) 30000 /\
                   2000 <= e.1.2 <= 30000)
    (retryTimers sys).
Proof.
  split; [vm_compute; reflexivity|].
  apply (retry_budget_is_kept [("worker-1", idle_worker "worker-1")] 50 300000
           failing_run).
  repeat constructor.
Defined.

(** *** The counter of active workers *)

Definition is_health_check (ev : Event) : bool :=
  match ev with EvHealthCheck => true | _ => false end.

Definition counted (maxW : Z) (exact : bool) (sys : Sys) : Prop :=
  maxWorkers (pool sys) = maxW /\
  Forall (fun e => e.1 ∈ (workers (pool sys)).*1) (running sys) /\
  activeWorkers (pool sys) <= Z.of_nat (length (running sys)) /\
  activeWorkers (pool sys) <= Z.max 0 maxW /\
  (exact = true -> activeWorkers (pool sys) = Z.of_nat (length (running sys))).

Lemma next_counted maxW exact now p run timers :
  counted maxW exact (mkSys p run timers) ->
  counted maxW exact (next now p run timers).
Proof.
  unfold counted, next; cbn [pool running retryTimers].
  intros (Hmax & Hkeys & Hle & Hcap & Hex).
  pose proof (processNextTask_dispatch now p) as Hd.
  destruct (dispatch p) as [[wid task]|].
  - destruct Hd as (rest & w & Hqueue & Hget & Hlt & ->).
    cbn [workers activeWorkers maxWorkers]. rewrite put_worker_keys.
    rewrite length_app. simpl.
    split; [done|]. split.
    + apply Forall_app. split; [done|]. constructor; [|constructor].
      simpl. apply get_worker_keys. by eexists.
    + split; [lia|]. split; [lia|]. intros He. specialize (Hex He). lia.
  - rewrite Hd. simpl. rewrite app_nil_r. done.
Qed.

Lemma workerDone_counted failed wid p :
  wid ∈ (workers p).*1 ->
  (workers (workerDone failed wid p)).*1 = (workers p).*1 /\
  activeWorkers (workerDone failed wid p) = activeWorkers p - 1 /\
  maxWorkers (workerDone failed wid p) = maxWorkers p.
Proof.
  intros Hin. apply get_worker_keys in Hin as [w Hw].
  unfold workerDone. rewrite Hw.
  destruct p; cbn [workers activeWorkers maxWorkers set_workers set_activeWorkers].
  by rewrite put_worker_keys.
Qed.

Lemma resetIfStuck_counted now p e :
  (workers (resetIfStuck now p e)).*1 = (workers p).*1 /\
  activeWorkers (resetIfStuck now p e) <= activeWorkers p /\
  maxWorkers (resetIfStuck now p e) = maxWorkers p.
Proof.
  unfold resetIfStuck. destruct e as [wid w].
  destruct (_ && _); [|split; [done|split; [lia|done]]].
  destruct w; simpl. destruct p; simpl.
  rewrite put_worker_keys. split; [done|]. split; [lia|done].
Qed.

Lemma performHealthCheck_counted now p :
  (workers (performHealthCheck now p)).*1 = (workers p).*1 /\
  activeWorkers (performHealthCheck now p) <= activeWorkers p /\
  maxWorkers (performHealthCheck now p) = maxWorkers p.
Proof.
  unfold performHealthCheck.
  assert (H : forall ws q,
             (workers (fold_left (resetIfStuck now) ws q)).*1 = (workers q).*1 /\
             activeWorkers (fold_left (resetIfStuck now) ws q) <= activeWorkers q /\
             maxWorkers (fold_left (resetIfStuck now) ws q) = maxWorkers q).
  { induction ws as [|e ws IH]; intros q; simpl.
    - split; [done|]. split; [lia|done].
    - destruct (IH (resetIfStuck now q e)) as (H1 & H2 & H3).
      destruct (resetIfStuck_counted now q e) as (H4 & H5 & H6).
      split; [congruence|]. split; [lia|congruence]. }
  apply H.
Qed.

Lemma length_delete_lookup {A} (l : list A) i x :
  l !! i = Some x -> S (length (delete i l)) = length l.
Proof.
  revert i. induction l as [|a l IH]; intros [|i]; simpl; try done.
  intros H. f_equal. by apply IH.
Qed.

Lemma step_counted maxW exact now ev sys :
  counted maxW exact sys ->
  counted maxW (exact && negb (is_health_check ev)) (step now ev sys).
Proof.
  intros Hc. pose proof Hc as (Hmax & Hkeys & Hle & Hcap & Hex).
  destruct sys as [p run timers]; cbn [pool running retryTimers] in *.
  destruct ev as [rnd request| |i|i|i]; cbn [step pool running retryTimers is_health_check];
    rewrite ?andb_true_r, ?andb_false_r.
  - apply next_counted. unfold counted; cbn [pool running retryTimers].
    by destruct p.
  - unfold counted; cbn [pool running retryTimers].
    destruct (performHealthCheck_counted now p) as (H1 & H2 & H3).
    rewrite H1. split; [congruence|]. split; [done|]. split; [lia|].
    split; [lia|done].
  - destruct (run !! i) as [[wid task]|] eqn:Hi; [|done].
    apply next_counted. unfold counted; cbn [pool running retryTimers].
    assert (Hin : wid ∈ (workers p).*1).
    { rewrite Forall_forall in Hkeys. apply (Hkeys (wid, task)).
      by eapply list_elem_of_lookup_2. }
    destruct (workerDone_counted false wid p Hin) as (H1 & H2 & H3).
    pose proof (length_delete_lookup _ _ _ Hi) as Hlen.
    rewrite H1, H2, H3. split; [done|].
    split; [by apply Forall_delete_nth|].
    split; [lia|]. split; [lia|]. intros He. specialize (Hex He). lia.
  - destruct (run !! i) as [[wid task]|] eqn:Hi; [|done].
    apply next_counted. unfold counted; cbn [pool running retryTimers].
    assert (Hin : wid ∈ (workers p).*1).
    { rewrite Forall_forall in Hkeys. apply (Hkeys (wid, task)).
      by eapply list_elem_of_lookup_2. }
    destruct (workerDone_counted true wid p Hin) as (H1 & H2 & H3).
    pose proof (length_delete_lookup _ _ _ Hi) as Hlen.
    rewrite H1, H2, H3. split; [done|].
    split; [by apply Forall_delete_nth|].
    split; [lia|]. split; [lia|]. intros He. specialize (Hex He). lia.
  - destruct (timers !! i) as [[[setAt d] task]|] eqn:Hi; [|done].
    destruct (now <? setAt + d); [done|].
    apply next_counted. unfold counted; cbn [pool running retryTimers].
    by destruct p.
Qed.

Definition no_health_check (evs : list (Z * Event)) : bool :=
  forallb (fun e => negb (is_health_check e.2)) evs.

Lemma run_counted maxW exact evs sys :
  counted maxW exact sys ->
  counted maxW (exact && no_health_check evs) (run evs sys).
Proof.
  revert exact sys. induction evs as [|[now ev] evs IH]; intros exact sys H.
  - simpl. by rewrite andb_true_r.
  - cbn [run no_health_check forallb snd]. rewrite andb_assoc.
    apply IH. by apply step_counted.
Qed.

(** The counter [activeWorkers] against the executions really in flight,
    in any state the event loop reaches from a fresh pool: the counter
    never exceeds [maxWorkers] nor the number of executions in flight;
    as long as no health check has run the two are equal, so at most
    [maxWorkers] tasks run at once. *)
Theorem active_counter_tracks_executions (ws : list (string * WorkerStats))
    (maxW timeout : Z) (evs : list (Z * Event)) :
  let sys := run evs (boot ws maxW timeout) in
  activeWorkers (pool sys) <= Z.of_nat (length (running sys)) /\
  activeWorkers (pool sys) <= Z.max 0 maxW /\
  (no_health_check evs = true ->
   activeWorkers (pool sys) = Z.of_nat (length (running sys)) /\
   Z.of_nat (length (running sys)) <= Z.max 0 maxW).
Proof.
  intros sys.
  assert (H : counted maxW (true && no_health_check evs) sys).
  { apply run_counted. unfold counted, boot; cbn [pool running retryTimers].
    simpl. split; [done|]. split; [constructor|]. lia. }
  destruct H as (_ & _ & Hle & Hcap & Hex). simpl in Hex.
  split; [done|]. split; [done|]. intros Hn. specialize (Hex Hn). lia.
Qed.

Lemma active_counter_tracks_executions_witness :
  let sys := run [(10, EvAddTask "k3j9x0q2a" sample_request)]
               (boot [("worker-1", idle_worker "worker-1")] 50 300000) in
  length (running sys) = 1%nat /\
  activeWorkers (pool sys) = Z.of_nat (length (running sys)) /\
  Z.of_nat (length (running sys)) <= Z.max 0 50.
Proof.
  split; [reflexivity|].
  apply (active_counter_tracks_executions [("worker-1", idle_worker "worker-1")]
           50 300000 [(10, EvAddTask "k3j9x0q2a" sample_request)]).
  reflexivity.
Defined.

(** *** The pool as it is constructed *)

(** The tasks that the [addTask] calls among [evs] create, in order. *)
Definition added (evs : list (Z * Event)) : list WorkerTask :=
  omap (fun e => match e.2 with
                 | EvAddTask rnd request => Some (newTask e.1 rnd request)
                 | _ => None
                 end) evs.

Definition idle_sys (queue : list WorkerTask) (maxW timeout : Z) : Sys :=
  mkSys (mkPool [] queue 0 maxW timeout) [] [].

Lemma step_no_workers now ev queue maxW timeout :
  step now ev (idle_sys queue maxW timeout)
  = idle_sys
      match ev with
      | EvAddTask rnd request => enqueue (newTask now rnd request) queue
      | _ => queue
      end maxW timeout.
Proof.
  destruct ev as [rnd request| |i|i|i]; try reflexivity.
  unfold step, idle_sys, next; cbn [pool running retryTimers taskQueue set_taskQueue].
  pose proof (processNextTask_dispatch now
                (mkPool [] (enqueue (newTask now rnd request) queue) 0 maxW timeout)) as Hd.
  destruct (dispatch _) as [[wid task]|] eqn:Hdis.
  - destruct Hd as (rest & w & _ & Hget & _). discriminate Hget.
  - by rewrite Hd.
Qed.

Lemma run_no_workers evs queue maxW timeout :
  run evs (idle_sys queue maxW timeout)
  = idle_sys (fold_left (fun q t => enqueue t q) (added evs) queue) maxW timeout.
Proof.
  revert queue. induction evs as [|[now ev] evs IH]; intros queue; [done|].
  cbn [run]. rewrite step_no_workers, IH. f_equal.
  destruct ev; reflexivity.
Qed.


Lemma fold_enqueue_prioritised ts queue :
  prioritised queue -> prioritised (fold_left (fun q t => enqueue t q) ts queue).
Proof.
  revert queue. induction ts as [|t ts IH]; intros queue Hq; [done|].
  simpl. apply IH.
  destruct (enqueue_position t queue) as (before & after & Hsplit & Henq & Hb & Ha).
  subst queue. apply prioritised_app_inv in Hq as (Hq1 & Hq2 & Hq3).
  rewrite Henq. apply prioritised_app; [done| |].
  - constructor; [done|].
    destruct after as [|a after]; [constructor|].
    pose proof Hq2 as Hq2'. apply StronglySorted_inv in Hq2' as [_ Hle].
    constructor; [unfold weight; lia|].
    eapply Forall_impl; [exact Hle|]. simpl. unfold weight in *. intros y Hy. lia.
  - rewrite Forall_forall in Hq3, Hb. apply Forall_forall. intros x Hx.
    constructor; [by apply Hb|by apply Hq3].
Qed.

(** The pool as its constructor leaves it has no worker, and nothing in
    the class registers one.  So whatever events follow, no task is ever
    handed to a worker: no execution is in flight, no retry is pending, the
    counter of active workers stays 0, and the queue holds every task ever
    added, in priority order, first-in first-out within a priority. *)
Theorem pool_without_workers_only_queues (maxW timeout : Z)
    (evs : list (Z * Event)) :
  let sys := run evs (boot [] maxW timeout) in
  workers (pool sys) = [] /\
  running sys = [] /\
  retryTimers sys = [] /\
  activeWorkers (pool sys) = 0 /\
  taskQueue (pool sys) = fold_left (fun q t => enqueue t q) (added evs) [] /\
  length (taskQueue (pool sys)) = length (added evs) /\
  prioritised (taskQueue (pool sys)).
Proof.
  cbv zeta. change (boot [] maxW timeout) with (idle_sys [] maxW timeout).
  rewrite run_no_workers. cbn [idle_sys pool running retryTimers workers
                                activeWorkers taskQueue].
  repeat (split; [done|]). split.
  - assert (H : forall ts queue,
               length (fold_left (fun q t => enqueue t q) ts queue)
               = (length ts + length queue)%nat).
    { induction ts as [|t ts IH]; intros queue; [done|].
      simpl. rewrite IH, enqueue_length. lia. }
    rewrite H. simpl. lia.
  - apply fold_enqueue_prioritised. constructor.
Qed.

End WorkerPoolMore.

(** * More on the IMAP worker and the queue sink *)

Module ImapWorkerMore.

Import ImapWorker ImapWorkerFacts.

(** The client resolved the batch command with at least one successful
    entry: the only answer [sendMessageBatch] does not turn into an error. *)
Definition took (client : Sqs.Client) (command : Sqs.SendMessageBatchCommand) : Prop :=
  exists first others failed,
    Sqs.sendBatch client command
    = Resolved (Sqs.mkBatchOutput (Some (first :: others)) failed).

Definition well_sized (command : Sqs.SendMessageBatchCommand) : Prop :=
  (1 <= length (Sqs.Entries command) <= 10)%nat.

(** How a run of commands ended: all taken, or all but the last, which was
    refused. *)
Definition settled_as (client : Sqs.Client)
    (commands : list Sqs.SendMessageBatchCommand) (outcome : Settled unit) : Prop :=
  match outcome with
  | Resolved _ => Forall (took client) commands
  | Rejected _ =>
      exists before last,
        commands = (before ++ [last])%list /\
        Forall (took client) before /\ ~ took client last
  end.

Lemma sendMessageBatch_cases now queueUrl client payloads :
  (length payloads <= 10)%nat ->
  let '(commands, outcome) := Sqs.sendMessageBatch now queueUrl client payloads in
  submittedPayloads commands = payloads /\
  Forall well_sized commands /\
  match outcome with
  | Resolved _ => Forall (took client) commands
  | Rejected _ => exists last, commands = [last] /\ ~ took client last
  end.
Proof.
  intros Hlen. unfold Sqs.sendMessageBatch.
  destruct payloads as [|p payloads]; [by repeat split|].
  cbn [length Nat.eqb].
  destruct (Nat.ltb_spec 10 (S (length payloads))) as [Hgt|_]; [simpl in Hlen; lia|].
  set (command := Sqs.sendMessageBatch_command now queueUrl (p :: payloads)).
  assert (Hpay : submittedPayloads [command] = p :: payloads).
  { unfold submittedPayloads; simpl. rewrite app_nil_r. f_equal.
    by apply payloadIn_imap. }
  assert (Hsize : Forall well_sized [command]).
  { constructor; [|constructor]. unfold well_sized, command; simpl.
    rewrite length_imap. simpl in Hlen. lia. }
  split; [done|]. split; [done|].
  destruct (Sqs.sendBatch client command) as [[ok failed]|err] eqn:Hsend.
  - destruct ok as [[|m ms]|]; simpl.
    + exists command. split; [done|].
      intros (f & o & fl & Ht). rewrite Hsend in Ht. discriminate.
    + constructor; [|constructor]. exists m, ms, failed. done.
    + exists command. split; [done|].
      intros (f & o & fl & Ht). rewrite Hsend in Ht. discriminate.
  - exists command. split; [done|].
    intros (f & o & fl & Ht). rewrite Hsend in Ht. discriminate.
Qed.

Lemma sendSlices_cases now queueUrl client messages starts submitted0 :
  Forall well_sized submitted0 ->
  Forall (took client) submitted0 ->
  let '(commands, outcome) :=
    sendSlices now queueUrl client messages starts submitted0 in
  exists sent,
    sent `prefix_of` starts /\
    submittedPayloads commands
    = (submittedPayloads submitted0
       ++ concat (List.map (fun i => slice10 i messages) sent))%list /\
    Forall well_sized commands /\
    settled_as client commands outcome /\
    (forall u, outcome = Resolved u -> sent = starts).
Proof.
  revert submitted0.
  induction starts as [|i starts IH]; intros submitted0 Hsz Htk.
  - simpl. exists []. split; [done|]. simpl. rewrite app_nil_r. done.
  - cbn [sendSlices].
    pose proof (sendMessageBatch_cases now queueUrl client (slice10 i messages)) as Hb.
    destruct (Sqs.sendMessageBatch now queueUrl client (slice10 i messages))
      as [commands outcome].
    destruct Hb as (Hpay & Hsize & Hout).
    { unfold slice10. rewrite length_take. lia. }
    destruct outcome as [ids|err].
    + specialize (IH (submitted0 ++ commands)%list).
      destruct (sendSlices now queueUrl client messages starts
                  (submitted0 ++ commands)%list) as [all outcome].
      destruct IH as (sent & Hpre & Hall & Hsz' & Hset & Hres).
      { by apply Forall_app. }
      { by apply Forall_app. }
      exists (i :: sent). split; [by apply prefix_cons|].
      split; [|split; [done|split; [done|]]].
      * rewrite Hall, submittedPayloads_app, Hpay, <- app_assoc. done.
      * intros u Hu. f_equal. by eapply Hres.
    + exists [i]. split; [apply prefix_cons, prefix_nil|].
      split; [|split; [by apply Forall_app|split; [|done]]].
      * rewrite submittedPayloads_app, Hpay. simpl. by rewrite app_nil_r.
      * destruct Hout as (last & -> & Hlast). by exists submitted0, last.
Qed.

Definition numbered (n : Z) : Sqs.QueuePayload :=
  sqsPayload (parseEmail 5000 (letter n (Some "<m@example.org>")) "acc-1").

Definition many_payloads : list Sqs.QueuePayload :=
  List.map (fun k => numbered (Z.of_nat k)) (seq 1 25).

Lemma sendCollected_cases (now : Z) (queueUrl : string)
    (client : Sqs.Client) (messages : list Sqs.QueuePayload) :
  let result := sendCollected now queueUrl client messages in
  Forall well_sized result.1 /\
  submittedPayloads result.1 `prefix_of` messages /\
  settled_as client result.1 result.2 /\
  (forall u, result.2 = Resolved u -> submittedPayloads result.1 = messages).
Proof.
  cbv zeta. unfold sendCollected.
  destruct (Nat.ltb_spec 0 (length messages)) as [Hpos|Hzero].
  - destruct (Nat.leb_spec (length messages) 10) as [Hle|Hgt].
    + pose proof (sendMessageBatch_cases now queueUrl client messages Hle) as Hb.
      destruct (Sqs.sendMessageBatch now queueUrl client messages)
        as [commands outcome].
      destruct Hb as (Hpay & Hsize & Hout). cbn [fst snd].
      split; [done|]. split; [by rewrite Hpay|]. split; [|done].
      destruct outcome as [ids|err]; simpl; [done|].
      destruct Hout as (last & -> & Hlast). exists [], last. done.
    + pose proof (sendSlices_cases now queueUrl client messages
                    (sliceStarts (length messages)) []) as Hs.
      destruct (sendSlices now queueUrl client messages
                  (sliceStarts (length messages)) []) as [commands outcome].
      destruct Hs as (sent & [rest Hpre] & Hall & Hsz & Hset & Hres);
        [constructor|constructor|].
      cbn [fst snd]. split; [done|]. simpl in Hall.
      split; [|split; [done|]].
      * rewrite Hall.
        exists (concat (List.map (fun i => slice10 i messages) rest)).
        rewrite <- concat_app, <- List.map_app, <- Hpre.
        symmetry. apply sliceStarts_tile.
      * intros u Hu. rewrite Hall, (Hres u Hu). apply sliceStarts_tile.
  - cbn [fst snd]. destruct messages; [|simpl in Hzero; lia].
    split; [constructor|]. split; [done|]. split; [constructor|done].
Qed.

(** Submission to the sink, whatever the sink answers: every batch command
    handed over has between one and ten entries; the envelopes handed over
    are a prefix of the collected ones, in their order, each once; if the
    call resolves they are all of them and every batch was taken; if it
    rejects, the refused batch is the last one handed over and nothing
    behind it is sent. *)
Theorem submission_stops_at_first_rejection (now : Z) (queueUrl : string)
    (client : Sqs.Client) (messages : list Sqs.QueuePayload) :
  let result := sendCollected now queueUrl client messages in
  Forall well_sized result.1 /\
  submittedPayloads result.1 `prefix_of` messages /\
  settled_as client result.1 result.2 /\
  (forall u, result.2 = Resolved u -> submittedPayloads result.1 = messages).
Proof. apply sendCollected_cases. Qed.

Lemma submission_stops_at_first_rejection_witness :
  (sendCollected 5000 "queue-url" willing_client many_payloads).2 = Resolved tt /\
  submittedPayloads (sendCollected 5000 "queue-url" willing_client many_payloads).1
  = many_payloads.
Proof.
  split; [reflexivity|].
  destruct (submission_stops_at_first_rejection 5000 "queue-url" willing_client
              many_payloads) as (_ & _ & _ & H).
  apply (H tt). reflexivity.
Defined.

(** ** The counters of a poll *)

Lemma processNewMessages_counts now queueUrl client connection aid
    startMessage endMessage stats :
  let run := processNewMessages now queueUrl client connection aid
               startMessage endMessage stats in
  let fetched := fetchedMessages connection startMessage endMessage in
  stats_after run = statsAfter now aid fetched stats /\
  submittedPayloads (submitted run) `prefix_of` payloadsOf now aid fetched /\
  (forall u, outcome run = Resolved u ->
     submittedPayloads (submitted run) = payloadsOf now aid fetched).
Proof.
  cbv zeta. unfold processNewMessages.
  pose proof (collectMessages_spec now connection aid startMessage endMessage stats)
    as Hc. cbv zeta in Hc. rewrite Hc.
  pose proof (sendCollected_cases now queueUrl client
                (payloadsOf now aid (fetchedMessages connection startMessage endMessage)))
    as Hs. cbv zeta in Hs.
  destruct (sendCollected now queueUrl client _) as [commands outcome].
  destruct Hs as (_ & Hpre & _ & Hres). done.
Qed.

(** The messages that a poll fetches: those of the range from the
    watermark to [EXISTS] when the connection was acquired, is valid,
    answers [noop] or reconnects, and grants the lock and the mailbox;
    none otherwise. *)
Definition polled (acquired : Settled Connection) (aid : string)
    : list FetchedMessage :=
  match acquired with
  | Rejected _ => []
  | Resolved connection =>
      if isConnectionValid connection
         && (noop connection || connect connection)
         && getMailboxLock connection
      then
        match mailboxOpen connection with
        | Some currentMessageCount =>
            fetchedMessages connection (getLastProcessedCount aid + 1)
              currentMessageCount
        | None => []
        end
      else []
  end.

(** The counters after a poll, however it ends.  [emailsFailed] grows by
    the number of fetched messages on which parsing throws, and
    [emailsProcessed] by the number of fetched messages that parse and
    have a Message-ID header.  That is at least the number of envelopes
    handed to the sink, and exactly that number when the poll resolves: a
    message is counted when it is collected, so a poll that the sink
    rejects has still counted everything it collected. *)
Theorem poll_counts_what_it_collects (now : Z) (queueUrl : string)
    (client : Sqs.Client) (acquired : Settled Connection) (aid : string)
    (stats : Stats) :
  let run := executePollTask now queueUrl client acquired aid stats in
  let handed := Z.of_nat (length (submittedPayloads (submitted run))) in
  let fetched := polled acquired aid in
  emailsFailed (stats_after run)
  = emailsFailed stats + Z.of_nat (length (List.filter unreadable fetched)) /\
  emailsProcessed (stats_after run)
  = emailsProcessed stats
    + Z.of_nat (length (List.filter hasMessageIdHeader (omap readable fetched))) /\
  emailsProcessed stats + handed <= emailsProcessed (stats_after run) /\
  (forall u, outcome run = Resolved u ->
     emailsProcessed (stats_after run) = emailsProcessed stats + handed).
Proof.
  cbv zeta. unfold executePollTask, polled.
  destruct acquired as [connection|err];
    [|simpl; repeat split; intros; lia].
  destruct (isConnectionValid connection);
    [|simpl; repeat split; intros; lia].
  destruct (noop connection), (connect connection), (getMailboxLock connection);
    cbn [negb andb orb]; try (simpl; repeat split; intros; lia).
  all: destruct (mailboxOpen connection) as [count|];
    [|simpl; repeat split; intros; lia].
  all: pose proof (processNewMessages_counts now queueUrl client connection aid
                     (getLastProcessedCount aid + 1) count stats) as Hp;
    cbv zeta in Hp.
  all: destruct (Z.gtb_spec count (getLastProcessedCount aid)) as [Hgt|Hle];
    [|unfold fetchedMessages, batchStarts, getLastProcessedCount in *;
      destruct (Z.leb_spec (0 + 1) count); [lia|];
      simpl; repeat split; intros; lia].
  all: set (run := processNewMessages now queueUrl client connection aid
                     (getLastProcessedCount aid + 1) count stats) in *.
  all: assert (Hsame : match outcome run with
                       | Resolved _ => run
                       | Rejected _ => run
                       end = run) by (by destruct (outcome run)).
  all: cbv zeta; rewrite Hsame.
  all: destruct Hp as (Hstats & Hpre & Hres); rewrite Hstats.
  all: unfold statsAfter, tally, failuresOf; cbn [emailsProcessed emailsFailed].
  all: assert (Hkept :
                 length (payloadsOf now aid
                           (fetchedMessages connection
                              (getLastProcessedCount aid + 1) count))
                 = length (List.filter hasMessageIdHeader
                             (omap readable
                                (fetchedMessages connection
                                   (getLastProcessedCount aid + 1) count))))
    by (unfold payloadsOf; apply length_map).
  all: split; [done|]; split; [by rewrite Hkept|]; split.
  all: try (apply prefix_length in Hpre; lia).
  all: intros u Hu; by rewrite (Hres u Hu).
Qed.

Lemma poll_counts_what_it_collects_witness :
  let run := executePollTask 5000 "queue-url" willing_client (Resolved mixed_mailbox)
               "acc-1" no_stats in
  outcome run = Resolved tt /\
  stats_after run = mkStats 2 1 /\
  emailsProcessed (stats_after run)
  = emailsProcessed no_stats
    + Z.of_nat (length (submittedPayloads (submitted run))).
Proof.
  split; [reflexivity|]. split; [reflexivity|].
  destruct (poll_counts_what_it_collects 5000 "queue-url" willing_client
              (Resolved mixed_mailbox) "acc-1" no_stats) as (_ & _ & _ & H).
  apply (H tt). reflexivity.
Defined.

(** ** The fetch ranges *)

(** The sequence numbers [a], [a + 1], ..., [b]. *)
Definition Z_range (a b : Z) : list Z :=
  List.map (fun k => a + Z.of_nat k) (seq 0 (Z.to_nat (b - a + 1))).

(** A server that answers [fetch a:b] with the messages numbered [a] to
    [b], the message numbered [n] being [mail n]. *)
Definition serves (mail : Z -> FetchedMessage) (connection : Connection) : Prop :=
  forall a b, fetch connection a b = Some (List.map mail (Z_range a b)).

Lemma seq_from a c : seq a c = List.map (Nat.add a) (seq 0 c).
Proof.
  change (List.map (Nat.add a) (seq 0 c)) with (Nat.add a <$> seq 0 c).
  by rewrite fmap_add_seq, Nat.add_0_r.
Qed.

Lemma Z_range_slice startMessage endMessage k :
  startMessage + batchSize * Z.of_nat k <= endMessage ->
  Z_range (startMessage + batchSize * Z.of_nat k)
    (Z.min (startMessage + batchSize * Z.of_nat k + batchSize - 1) endMessage)
  = List.map (fun j => startMessage + Z.of_nat j)
      (take 10 (drop (10 * k) (seq 0 (Z.to_nat (endMessage - startMessage + 1))))).
Proof.
  unfold batchSize, Z_range. intros Hk.
  rewrite drop_seq, take_seq, Nat.add_0_l, (seq_from (10 * k)), List.map_map.
  replace (Z.to_nat (Z.min (startMessage + 10 * Z.of_nat k + 10 - 1) endMessage
                     - (startMessage + 10 * Z.of_nat k) + 1))
    with (10 `min` (Z.to_nat (endMessage - startMessage + 1) - 10 * k))%nat by lia.
  apply List.map_ext. intros j. lia.
Qed.

Lemma fetchedMessages_serves mail connection startMessage endMessage :
  serves mail connection ->
  fetchedMessages connection startMessage endMessage
  = List.map mail (Z_range startMessage endMessage).
Proof.
  intros Hserve. unfold fetchedMessages, batchStarts.
  destruct (Z.leb_spec startMessage endMessage) as [Hle|Hgt].
  - rewrite List.map_map.
    transitivity
      (concat (List.map
                 (fun k => List.map (fun j => mail (startMessage + Z.of_nat j))
                     (take 10 (drop (10 * k)
                                 (seq 0 (Z.to_nat (endMessage - startMessage + 1))))))
                 (seq 0 (Z.to_nat ((endMessage - startMessage) / batchSize + 1))))).
    + f_equal. apply List.map_ext_in. intros k Hk. apply in_seq in Hk.
      rewrite Hserve. change (default [] (Some ?l)) with l.
      assert (Hin : startMessage + batchSize * Z.of_nat k <= endMessage).
      { unfold batchSize in *.
        assert (Z.of_nat k < (endMessage - startMessage) / 10 + 1) by lia.
        Z.div_mod_to_equations. lia. }
      rewrite (Z_range_slice _ _ _ Hin). by rewrite List.map_map.
    + unfold Z_range. rewrite List.map_map.
      set (L := seq 0 (Z.to_nat (endMessage - startMessage + 1))).
      transitivity
        (List.map (fun j => mail (startMessage + Z.of_nat j))
           (concat (List.map (fun k => take 10 (drop (10 * k) L))
                      (seq 0 (Z.to_nat ((endMessage - startMessage) / batchSize + 1)))))).
      * by rewrite concat_map, List.map_map.
      * rewrite slices_tile; [done|].
        unfold L. rewrite length_seq. unfold batchSize.
        Z.div_mod_to_equations. lia.
  - simpl. unfold Z_range.
    replace (Z.to_nat (endMessage - startMessage + 1)) with 0%nat by lia. done.
Qed.

(** Against a server that answers each [fetch a:b] with the messages
    numbered [a] to [b], the fetch loop looks at every message from
    [startMessage] to [endMessage] exactly once and in order: what it
    collects are the envelopes of those that parse and have a Message-ID
    header, in that order; [emailsProcessed] grows by their number and
    [emailsFailed] by the number of those on which parsing throws. *)
Theorem fetch_loop_covers_range_once (now : Z) (connection : Connection)
    (aid : string) (startMessage endMessage : Z) (stats : Stats)
    (mail : Z -> FetchedMessage) :
  serves mail connection ->
  let range := List.map mail (Z_range startMessage endMessage) in
  let kept := List.filter hasMessageIdHeader (omap readable range) in
  collectMessages now connection aid startMessage endMessage stats
  = (List.map (fun m => sqsPayload (parseEmail now m aid)) kept,
     mkStats (emailsProcessed stats + Z.of_nat (length kept))
       (emailsFailed stats + Z.of_nat (length (List.filter unreadable range)))).
Proof.
  intros Hserve. cbv zeta.
  pose proof (collectMessages_spec now connection aid startMessage endMessage stats)
    as Hc. cbv zeta in Hc.
  rewrite Hc, (fetchedMessages_serves mail) by done.
  unfold statsAfter, tally, failuresOf, payloadsOf. by rewrite length_map.
Qed.

(** Every second message has no Message-ID header, every fifth an
    unreadable date. *)
Definition numbered_mail (n : Z) : FetchedMessage :=
  let message := letter n (if n mod 2 =? 0 then None else Some "<m@example.org>") in
  if n mod 5 =? 0 then misdated message else yielded message.

Definition honest_mailbox : Connection :=
  mkConnection true true true true (Some 25)
    (fun a b => Some (List.map numbered_mail (Z_range a b))).

Lemma fetch_loop_covers_range_once_witness :
  (collectMessages 5000 honest_mailbox "acc-1" 1 25 no_stats).2 = mkStats 10 5.
Proof.
  rewrite (fetch_loop_covers_range_once 5000 honest_mailbox "acc-1" 1 25 no_stats
             numbered_mail).
  - reflexivity.
  - intros a b. reflexivity.
Defined.

(** ** Generated identifiers *)

Fixpoint no_underscore (s : string) : bool :=
  match s with
  | EmptyString => true
  | String c r => negb (Ascii.eqb c "_") && no_underscore r
  end.

Lemma pretty_N_char_no_underscore x : Ascii.eqb (pretty_N_char x) "_" = false.
Proof.
  destruct x as [|p]; [done|].
  do 4 (destruct p as [p|p|]; try done).
Qed.

Lemma pretty_N_go_no_underscore x s :
  no_underscore s = true -> no_underscore (pretty_N_go x s) = true.
Proof.
  revert s. induction (N.lt_wf_0 x) as [x _ IH]; intros s Hs.
  destruct (decide (x = 0)%N) as [->|Hx]; [by rewrite pretty_N_go_0|].
  rewrite pretty_N_go_step by lia.
  apply IH; [apply N.div_lt; lia|].
  simpl. by rewrite pretty_N_char_no_underscore.
Qed.

Lemma pretty_Z_no_underscore (x : Z) : no_underscore (pretty x) = true.
Proof.
  destruct x as [|p|p]; [done| |].
  - change (pretty (Z.pos p)) with (pretty (N.pos p)).
    unfold pretty, pretty_N. destruct (decide _); [done|].
    by apply pretty_N_go_no_underscore.
  - change (pretty (Z.neg p)) with ("-" +:+ pretty (N.pos p)).
    unfold pretty, pretty_N. destruct (decide _); [done|].
    simpl. by apply pretty_N_go_no_underscore.
Qed.

(** Two texts [a_b] with no underscore in [a] are equal only if both
    parts are. *)
Lemma underscore_split a1 a2 b1 b2 :
  no_underscore a1 = true -> no_underscore a2 = true ->
  a1 ++ String "_" b1 = a2 ++ String "_" b2 -> a1 = a2 /\ b1 = b2.
Proof.
  revert a2. induction a1 as [|c a1 IH]; intros [|d a2];
    cbn [no_underscore String.append].
  - by intros _ _ [= ->].
  - intros _ Hd [= <- _]. done.
  - intros Hc _ [= -> _]. done.
  - intros [_ H1]%andb_true_iff [_ H2]%andb_true_iff [= -> Heq].
    destruct (IH a2 H1 H2 Heq) as [-> ->]. done.
Qed.

Lemma pair_id_inj (prefix : string) (x1 x2 n1 n2 : Z) :
  prefix ++ String "_" (pretty x1 ++ String "_" (pretty n1))
  = prefix ++ String "_" (pretty x2 ++ String "_" (pretty n2)) ->
  x1 = x2 /\ n1 = n2.
Proof.
  intros Heq. apply String.app_inj in Heq. injection Heq as Heq.
  apply (underscore_split _ _ (pretty n1) (pretty n2)) in Heq as [H1 H2];
    try apply pretty_Z_no_underscore.
  split; by apply (inj pretty).
Qed.

(** The internal id that [parseEmail] generates tells the messages of one
    mailbox apart: two parsed messages of an account get the same internal
    id only if they have the same uid and were parsed at the same
    millisecond. *)
Theorem internal_id_identifies_message (now1 now2 : Z)
    (message1 message2 : FetchMessageObject) (aid : string) :
  internalMessageId (parseEmail now1 message1 aid)
  = internalMessageId (parseEmail now2 message2 aid) ->
  uid message1 = uid message2 /\ now1 = now2.
Proof.
  assert (Hid : forall now message,
             internalMessageId (parseEmail now message aid)
             = aid ++ String "_" (pretty (uid message) ++ String "_" (pretty now))).
  { intros now message. unfold parseEmail. by destruct (envelope message). }
  rewrite !Hid. apply pair_id_inj.
Qed.

Lemma internal_id_identifies_message_witness :
  uid (letter 11 None) = uid (letter 11 (Some "<a@example.org>")) /\ 5000 = 5000.
Proof.
  apply (internal_id_identifies_message 5000 5000 (letter 11 None)
           (letter 11 (Some "<a@example.org>")) "acc-1").
  reflexivity.
Defined.

(** The entries of a batch command have pairwise different [Id]s, as the
    queue service requires of a batch. *)
Theorem batch_entry_ids_distinct (now : Z) (queueUrl : string)
    (payloads : list Sqs.QueuePayload) :
  NoDup (List.map Sqs.Id
           (Sqs.Entries (Sqs.sendMessageBatch_command now queueUrl payloads))).
Proof.
  unfold Sqs.sendMessageBatch_command; cbn [Sqs.Entries].
  assert (Hids : List.map Sqs.Id (imap (Sqs.sendMessageBatch_entry now) payloads)
                 = (fun i => "msg_" ++ pretty (Z.of_nat i) ++ "_" ++ pretty now)
                     <$> seq 0 (length payloads)).
  { rewrite <- imap_seq_0.
    change (List.map Sqs.Id ?l) with (Sqs.Id <$> l).
    rewrite fmap_imap. apply imap_ext. done. }
  rewrite Hids. apply NoDup_fmap_2_strong; [|apply NoDup_seq].
  intros i j _ _ Heq.
  apply (pair_id_inj "msg" (Z.of_nat i) (Z.of_nat j) now now) in Heq as [Hij _]. lia.
Qed.

End ImapWorkerMore.

(** * Properties of the in-memory store *)

Module MemoryStorageFacts.

Import MemoryStorage.

Definition granted (oks : list bool) : Z :=
  Z.of_nat (length (List.filter (fun ok : bool => ok) oks)).

Lemma granted_cons ok oks :
  granted (ok :: oks) = (if ok then 1 else 0) + granted oks.
Proof. unfold granted. destruct ok; simpl; lia. Qed.

(** Calls inside an open window: granted until the count reaches the
    limit. *)
Lemma checkRateLimits_open times accountId limit window store c reset :
  store !! rateKey accountId = Some (mkRate c reset) ->
  Forall (fun now => now <= reset) times ->
  let result := checkRateLimits times accountId limit window store in
  granted result.1 = Z.min (Z.of_nat (length times)) (Z.max 0 (limit - c)) /\
  result.2 !! rateKey accountId = Some (mkRate (c + granted result.1) reset).
Proof.
  revert store c. induction times as [|now times IH]; intros store c Hc Htimes.
  - unfold granted. cbn [checkRateLimits fst snd List.filter length].
    change (Z.of_nat 0) with 0. split; [lia|]. by rewrite Z.add_0_r.
  - apply Forall_cons in Htimes as [Hnow Htimes].
    cbv zeta. cbn [checkRateLimits].
    assert (Hstep : checkRateLimit now accountId limit window store
                    = if c >=? limit then (false, store)
                      else (true, <[rateKey accountId := mkRate (c + 1) reset]> store)).
    { unfold checkRateLimit. rewrite Hc. cbn [resetTime count].
      destruct (Z.gtb_spec now reset) as [Hgt|_]; [lia|done]. }
    rewrite Hstep.
    destruct (Z.geb_spec c limit) as [Hfull|Hroom].
    + specialize (IH store c Hc Htimes). cbv zeta in IH.
      destruct (checkRateLimits times accountId limit window store) as [oks store'].
      cbn [fst snd] in *. destruct IH as [IH1 IH2].
      rewrite granted_cons. cbn iota. rewrite Z.add_0_l. split; [|done].
      rewrite IH1. cbn [length]. lia.
    + specialize (IH (<[rateKey accountId := mkRate (c + 1) reset]> store) (c + 1)).
      cbv zeta in IH.
      destruct (checkRateLimits times accountId limit window _) as [oks store'].
      cbn [fst snd] in *.
      destruct IH as [IH1 IH2]; [by apply lookup_insert_eq|done|].
      rewrite granted_cons. cbn iota. split.
      * rewrite IH1. cbn [length]. lia.
      * rewrite IH2. do 2 f_equal. lia.
Qed.

(** The limiter within one window.  Let the first call at [now] open a
    window (the account has no entry, or its window has run out) and let
    the later calls come no later than the end of that window,
    [now + window * 1000].  Then the number of calls answered [true] is
    the number of calls, capped at [limit] -- but never below one: the
    call that opens a window is granted whatever the limit.  The stored
    count is that number. *)
Theorem rate_limit_within_window (now : Z) (later : list Z) (accountId : string)
    (limit window : Z) (store : gmap string RateEntry) :
  (forall current, store !! rateKey accountId = Some current ->
                   now > resetTime current) ->
  Forall (fun t => t <= now + window * 1000) later ->
  let result := checkRateLimits (now :: later) accountId limit window store in
  granted result.1 = Z.min (Z.of_nat (length (now :: later))) (Z.max 1 limit) /\
  getRateLimitCount accountId result.2 = granted result.1.
Proof.
  intros Hopen Hlater. cbv zeta. cbn [checkRateLimits].
  assert (Hfirst : checkRateLimit now accountId limit window store
                   = (true, <[rateKey accountId := mkRate 1 (now + window * 1000)]> store)).
  { unfold checkRateLimit.
    destruct (store !! rateKey accountId) as [current|] eqn:Hcur; [|done].
    specialize (Hopen current eq_refl).
    destruct (Z.gtb_spec now (resetTime current)); [done|lia]. }
  rewrite Hfirst.
  pose proof (checkRateLimits_open later accountId limit window
                (<[rateKey accountId := mkRate 1 (now + window * 1000)]> store)
                1 (now + window * 1000)) as Hrest.
  cbv zeta in Hrest.
  destruct (checkRateLimits later accountId limit window _) as [oks store'].
  cbn [fst snd] in *.
  destruct Hrest as [H1 H2]; [by apply lookup_insert_eq|done|].
  unfold getRateLimitCount. rewrite H2, granted_cons. cbn iota. cbn [count length].
  split; lia.
Qed.

Lemma rate_limit_within_window_witness :
  let result := checkRateLimits [1000; 1500; 2000; 61000] "acc-1" 2 60 ∅ in
  result.1 = [true; true; false; false] /\
  granted result.1 = Z.min 4 (Z.max 1 2) /\
  getRateLimitCount "acc-1" result.2 = granted result.1.
Proof.
  split; [reflexivity|].
  apply (rate_limit_within_window 1000 [1500; 2000; 61000] "acc-1" 2 60 ∅).
  - intros current Hcur. rewrite lookup_empty in Hcur. discriminate.
  - repeat constructor; lia.
Defined.

End MemoryStorageFacts.

(** * Properties of the orchestrator *)

Module OrchestratorFacts.

Import Orchestrator.

(** What the scheduler's [updateAccountVolume] leaves under [aid]: an
    entry still, as active as before, of the same priority, and in the
    reported volume tier. *)
Lemma scheduler_volume_entry now aid emailCount sch s :
  Scheduler.schedules sch !! aid = Some s ->
  exists s1,
    Scheduler.schedules (Scheduler.updateAccountVolume now aid emailCount sch) !! aid
    = Some s1 /\
    Scheduler.isActive s1 = Scheduler.isActive s /\
    Scheduler.priority s1 = Scheduler.priority s /\
    Scheduler.emailVolume s1 = Scheduler.classifyVolume emailCount.
Proof.
  intros Hs. unfold Scheduler.updateAccountVolume. rewrite Hs.
  destruct (decide _) as [Heq|Hne]; [by exists s|].
  destruct (_ >? 0).
  - rewrite SchedulerFacts.lookup_store_scheduleNextPoll.
    eexists. split; [done|]. by destruct s.
  - rewrite SchedulerFacts.lookup_store.
    eexists. split; [done|]. by destruct s.
Qed.

Definition business_account : EmailAccountsCredentials :=
  mkAccount "acc-1" "ann@example.org" "imap.gmail.com" 993 (Some 2000) true.

Definition one_account : State := addAccount 1000 business_account empty.

(** A volume report through the orchestrator.  When the count falls in
    another priority tier than the one the orchestrator has on record
    (above 1000 high, above 100 medium, otherwise low), the schedule of an
    active account ends with that priority, the base interval of that
    priority, and its next poll a full base interval from now with the
    timer set accordingly -- whatever interval the scheduler's own
    volume classification had chosen a moment earlier, and however soon
    the poll was due before.  The scheduler's volume tier is the
    reported one. *)
Theorem volume_report_resets_to_priority_interval (now : Z) (aid : string)
    (emailCount : Z) (st : State) (acct : EmailAccountsCredentials)
    (s : Scheduler.PollingSchedule) :
  accounts st !! aid = Some acct ->
  Scheduler.schedules (pollingScheduler st) !! aid = Some s ->
  Scheduler.isActive s = true ->
  accountPriorities st !! aid <> Some (priorityOfVolume emailCount) ->
  let tier := priorityOfVolume emailCount in
  let st' := updateAccountVolume now aid emailCount st in
  accountPriorities st' !! aid = Some tier /\
  exists s',
    Scheduler.schedules (pollingScheduler st') !! aid = Some s' /\
    Scheduler.priority s' = tier /\
    Scheduler.interval s' = Scheduler.baseIntervals tier /\
    Scheduler.nextPoll s' = now + Scheduler.baseIntervals tier /\
    Scheduler.emailVolume s' = Scheduler.classifyVolume emailCount /\
    Scheduler.pollingTimers (pollingScheduler st') !! aid
    = Some (now + Scheduler.baseIntervals tier).
Proof.
  intros Hacct Hs Hact Hprio. cbv zeta.
  unfold updateAccountVolume. rewrite Hacct. cbn [accountPriorities].
  destruct (decide _) as [Heq|_]; [by destruct Hprio|].
  unfold updateAccountPriority. cbn [accounts accountPriorities pollingScheduler].
  rewrite Hacct. cbn [accountPriorities pollingScheduler].
  split; [apply lookup_insert_eq|].
  destruct (scheduler_volume_entry now aid emailCount (pollingScheduler st) s Hs)
    as (s1 & Hs1 & Hact1 & _ & Hvol1).
  unfold Scheduler.updateAccountPriority. rewrite Hs1.
  rewrite SchedulerFacts.lookup_store_scheduleNextPoll.
  eexists. split; [done|].
  rewrite SchedulerFacts.timer_store_scheduleNextPoll
    by (destruct s1; simpl in *; congruence).
  destruct s1; simpl in *.
  repeat (split; [done|]). f_equal.
  destruct (priorityOfVolume emailCount); simpl; lia.
Qed.

Lemma volume_report_resets_to_priority_interval_witness :
  let st' := updateAccountVolume 2000 "acc-1" 500 one_account in
  accountPriorities st' !! "acc-1" = Some medium /\
  exists s',
    Scheduler.schedules (pollingScheduler st') !! "acc-1" = Some s' /\
    Scheduler.priority s' = medium /\
    Scheduler.interval s' = 300000 /\
    Scheduler.nextPoll s' = 2000 + 300000 /\
    Scheduler.emailVolume s' = Scheduler.highVolume /\
    Scheduler.pollingTimers (pollingScheduler st') !! "acc-1" = Some (2000 + 300000).
Proof.
  assert (Hs : exists s,
             Scheduler.schedules (pollingScheduler one_account) !! "acc-1" = Some s /\
             Scheduler.isActive s = true).
  { eexists. split; [reflexivity|reflexivity]. }
  destruct Hs as (s & Hs & Hact).
  apply (volume_report_resets_to_priority_interval 2000 "acc-1" 500 one_account
           business_account s).
  - reflexivity.
  - exact Hs.
  - exact Hact.
  - vm_compute. discriminate.
Defined.

(** ** The registry and the scheduler *)

Definition in_step (st : State) : Prop :=
  (forall aid, is_Some (accounts st !! aid) <-> is_Some (accountPriorities st !! aid)) /\
  (forall aid,
     is_Some (Scheduler.schedules (pollingScheduler st) !! aid) ->
     is_Some (accounts st !! aid)) /\
  (forall aid,
     is_Some (Scheduler.pollingTimers (pollingScheduler st) !! aid) ->
     is_Some (Scheduler.schedules (pollingScheduler st) !! aid)).

Lemma scheduleNextPoll_timer now aid sch aid' :
  is_Some (Scheduler.pollingTimers (Scheduler.scheduleNextPoll now aid sch) !! aid') ->
  is_Some (Scheduler.pollingTimers sch !! aid') \/
  (aid' = aid /\ is_Some (Scheduler.schedules sch !! aid)).
Proof.
  unfold Scheduler.scheduleNextPoll.
  destruct (Scheduler.schedules sch !! aid) as [s|] eqn:Hs; [|by left].
  destruct (negb _); [by left|]. simpl.
  destruct (decide (aid' = aid)) as [->|Hne].
  - intros _. right. split; [done|by eexists].
  - rewrite lookup_insert_ne by done. by left.
Qed.

(** The scheduler's own bookkeeping: a timer only for a scheduled account. *)
Definition timers_scheduled (sch : Scheduler.State) : Prop :=
  forall aid, is_Some (Scheduler.pollingTimers sch !! aid) ->
              is_Some (Scheduler.schedules sch !! aid).

Lemma timers_scheduled_store_next now aid s sch :
  timers_scheduled sch ->
  timers_scheduled (Scheduler.scheduleNextPoll now aid (Scheduler.store aid s sch)).
Proof.
  intros Ht aid' Htimer.
  rewrite SchedulerFacts.schedules_scheduleNextPoll.
  apply scheduleNextPoll_timer in Htimer as [Htimer|[-> _]].
  - unfold Scheduler.store in *; simpl in *.
    destruct (decide (aid' = aid)) as [->|Hne].
    + rewrite lookup_insert_eq. by eexists.
    + rewrite lookup_insert_ne by done. by apply Ht.
  - unfold Scheduler.store; simpl. rewrite lookup_insert_eq. by eexists.
Qed.

Lemma timers_scheduled_store aid s sch :
  timers_scheduled sch -> timers_scheduled (Scheduler.store aid s sch).
Proof.
  intros Ht aid' Htimer. unfold Scheduler.store in *; simpl in *.
  destruct (decide (aid' = aid)) as [->|Hne].
  - rewrite lookup_insert_eq. by eexists.
  - rewrite lookup_insert_ne by done. by apply Ht.
Qed.

Lemma timers_scheduled_removeAccount aid sch :
  timers_scheduled sch -> timers_scheduled (Scheduler.removeAccount aid sch).
Proof.
  intros Ht aid'. unfold Scheduler.removeAccount; simpl.
  destruct (decide (aid' = aid)) as [->|Hne].
  - rewrite lookup_delete_eq. by intros [? ?].
  - rewrite !lookup_delete_ne by done. apply Ht.
Qed.

Lemma timers_scheduled_addAccount now acct p sch :
  timers_scheduled sch -> timers_scheduled (Scheduler.addAccount now acct p sch).
Proof.
  intros Ht. unfold Scheduler.addAccount.
  by apply timers_scheduled_store_next, timers_scheduled_removeAccount.
Qed.

Lemma timers_scheduled_updateAccountPriority now aid p sch :
  timers_scheduled sch ->
  timers_scheduled (Scheduler.updateAccountPriority now aid p sch).
Proof.
  intros Ht. unfold Scheduler.updateAccountPriority.
  destruct (Scheduler.schedules sch !! aid); [|done].
  by apply timers_scheduled_store_next.
Qed.

Lemma timers_scheduled_updateAccountVolume now aid n sch :
  timers_scheduled sch ->
  timers_scheduled (Scheduler.updateAccountVolume now aid n sch).
Proof.
  intros Ht. unfold Scheduler.updateAccountVolume.
  destruct (Scheduler.schedules sch !! aid); [|done].
  destruct (decide _); [done|].
  destruct (_ >? 0).
  - by apply timers_scheduled_store_next.
  - by apply timers_scheduled_store.
Qed.

(** Which accounts a scheduler operation leaves scheduled. *)
Lemma scheduled_addAccount now acct p sch aid :
  is_Some (Scheduler.schedules (Scheduler.addAccount now acct p sch) !! aid) ->
  aid = id acct \/ is_Some (Scheduler.schedules sch !! aid).
Proof.
  unfold Scheduler.addAccount.
  rewrite SchedulerFacts.schedules_scheduleNextPoll.
  unfold Scheduler.store, Scheduler.removeAccount; simpl.
  destruct (decide (aid = id acct)) as [->|Hne]; [by left|].
  rewrite lookup_insert_ne, lookup_delete_ne by done. by right.
Qed.

Lemma scheduled_updateAccountPriority now aid0 p sch aid :
  is_Some (Scheduler.schedules (Scheduler.updateAccountPriority now aid0 p sch) !! aid) ->
  is_Some (Scheduler.schedules sch !! aid).
Proof.
  unfold Scheduler.updateAccountPriority.
  destruct (Scheduler.schedules sch !! aid0) as [s|] eqn:Hs; [|done].
  rewrite SchedulerFacts.schedules_scheduleNextPoll. unfold Scheduler.store; simpl.
  destruct (decide (aid = aid0)) as [->|Hne]; [by rewrite Hs; eexists|].
  by rewrite lookup_insert_ne.
Qed.

Lemma scheduler_volume_none now aid emailCount sch :
  Scheduler.schedules sch !! aid = None ->
  Scheduler.updateAccountVolume now aid emailCount sch = sch.
Proof. intros H. unfold Scheduler.updateAccountVolume. by rewrite H. Qed.

Lemma scheduled_updateAccountVolume now aid0 n sch aid :
  is_Some (Scheduler.schedules (Scheduler.updateAccountVolume now aid0 n sch) !! aid) ->
  is_Some (Scheduler.schedules sch !! aid).
Proof.
  destruct (decide (aid = aid0)) as [->|Hne].
  - destruct (Scheduler.schedules sch !! aid0) as [s|] eqn:Hs; [by eexists|].
    by rewrite scheduler_volume_none, Hs.
  - unfold Scheduler.updateAccountVolume.
    destruct (Scheduler.schedules sch !! aid0) as [s|] eqn:Hs; [|done].
    destruct (decide _); [done|].
    destruct (_ >? 0).
    + rewrite SchedulerFacts.schedules_scheduleNextPoll. unfold Scheduler.store; simpl.
      by rewrite lookup_insert_ne.
    + unfold Scheduler.store; simpl. by rewrite lookup_insert_ne.
Qed.

Lemma in_step_updateAccountPriority now aid p st :
  in_step st -> in_step (updateAccountPriority now aid p st).
Proof.
  intros (Hdom & Hsch & Ht). unfold updateAccountPriority.
  destruct (accounts st !! aid) as [acct|] eqn:Hacct; [|done].
  split; [|split]; cbn [accounts accountPriorities pollingScheduler].
  - intros aid'. destruct (decide (aid' = aid)) as [->|Hne].
    + rewrite lookup_insert_eq, Hacct. split; by eexists.
    + rewrite lookup_insert_ne by done. apply Hdom.
  - intros aid' Hs'. by apply scheduled_updateAccountPriority, Hsch in Hs'.
  - by apply timers_scheduled_updateAccountPriority.
Qed.

Lemma in_step_step now op st : in_step st -> in_step (step now op st).
Proof.
  intros Hin. pose proof Hin as (Hdom & Hsch & Ht).
  destruct op as [acct|aid|aid p|aid emailCount]; cbn [step].
  - unfold addAccount. split; [|split]; cbn [accounts accountPriorities pollingScheduler].
    + intros aid'. destruct (decide (aid' = id acct)) as [->|Hne].
      * rewrite !lookup_insert_eq. split; by eexists.
      * rewrite !lookup_insert_ne by done. apply Hdom.
    + intros aid' Hs'. destruct (decide (aid' = id acct)) as [->|Hne].
      * rewrite lookup_insert_eq. by eexists.
      * rewrite lookup_insert_ne by done. apply Hsch.
        destruct (acc_isActive acct); [|done].
        by apply scheduled_addAccount in Hs' as [?|?].
    + destruct (acc_isActive acct); [|done].
      by apply timers_scheduled_addAccount.
  - unfold removeAccount.
    destruct (accounts st !! aid) as [acct|] eqn:Hacct; [|done].
    split; [|split]; cbn [accounts accountPriorities pollingScheduler].
    + intros aid'. destruct (decide (aid' = aid)) as [->|Hne].
      * rewrite !lookup_delete_eq. split; by intros [? ?].
      * rewrite !lookup_delete_ne by done. apply Hdom.
    + intros aid'. unfold Scheduler.removeAccount; simpl.
      destruct (decide (aid' = aid)) as [->|Hne].
      * rewrite lookup_delete_eq. by intros [? ?].
      * rewrite !lookup_delete_ne by done. apply Hsch.
    + by apply timers_scheduled_removeAccount.
  - by apply in_step_updateAccountPriority.
  - unfold updateAccountVolume.
    destruct (accounts st !! aid) as [acct|] eqn:Hacct; [|done].
    assert (Hmid : in_step
              (mkOrchestrator (accounts st) (accountPriorities st)
                 (Scheduler.updateAccountVolume now aid emailCount (pollingScheduler st)))).
    { split; [|split]; cbn [accounts accountPriorities pollingScheduler].
      - done.
      - intros aid' Hs'. by apply scheduled_updateAccountVolume, Hsch in Hs'.
      - by apply timers_scheduled_updateAccountVolume. }
    cbv zeta. destruct (decide _); [done|].
    by apply in_step_updateAccountPriority.
Qed.

(** The registry and the scheduler stay in step under the orchestrator's
    account operations: an account has a recorded priority exactly when it
    is registered, only registered accounts are scheduled, and only
    scheduled accounts have a polling timer -- so removing an account
    leaves neither a schedule nor a timer behind. *)
Theorem registry_and_scheduler_in_step (st : State) (aid : string) :
  reachable st ->
  (is_Some (accounts st !! aid) <-> is_Some (accountPriorities st !! aid)) /\
  (is_Some (Scheduler.schedules (pollingScheduler st) !! aid) ->
   is_Some (accounts st !! aid)) /\
  (is_Some (Scheduler.pollingTimers (pollingScheduler st) !! aid) ->
   is_Some (Scheduler.schedules (pollingScheduler st) !! aid)).
Proof.
  intros Hreach.
  assert (H : in_step st).
  { induction Hreach as [|now op st _ IH]; [|by apply in_step_step].
    split; [|split]; simpl.
    - intros a. rewrite !lookup_empty. split; by intros [? ?].
    - intros a. rewrite !lookup_empty. by intros [? ?].
    - intros a. rewrite !lookup_empty. by intros [? ?]. }
  destruct H as (Hdom & Hsch & Ht). split; [apply Hdom|]. split; [apply Hsch|apply Ht].
Qed.

Lemma registry_and_scheduler_in_step_witness :
  let st := step 3000 (OpRemoveAccount "acc-1") one_account in
  (is_Some (accounts st !! "acc-1") <-> is_Some (accountPriorities st !! "acc-1")) /\
  (is_Some (Scheduler.schedules (pollingScheduler st) !! "acc-1") ->
   is_Some (accounts st !! "acc-1")) /\
  (is_Some (Scheduler.pollingTimers (pollingScheduler st) !! "acc-1") ->
   is_Some (Scheduler.schedules (pollingScheduler st) !! "acc-1")).
Proof.
  apply (registry_and_scheduler_in_step
           (step 3000 (OpRemoveAccount "acc-1") one_account) "acc-1").
  apply reachable_step. apply (reachable_step 1000 (OpAddAccount business_account)).
  apply reachable_empty.
Defined.

(** ** The account figures *)

Lemma filter_split_length {A} (p : A -> bool) (l : list A) :
  length l = (length (List.filter p l) + length (List.filter (fun a => negb (p a)) l))%nat.
Proof.
  induction l as [|a l IH]; simpl; [done|].
  destruct (p a); simpl; lia.
Qed.

(** The account figures of [getStats]: every account that is not active
    is counted as failed, so the paused figure is always zero and active
    and failed accounts add up to the total. *)
Theorem stats_never_report_paused (st : State) :
  let stats := getStats_accounts st in
  pausedAccounts stats = 0 /\
  activeAccounts stats + failedAccounts stats = totalAccounts stats /\
  totalAccounts stats = Z.of_nat (size (accounts st)).
Proof.
  cbv zeta. unfold getStats_accounts; cbn [pausedAccounts activeAccounts
                                            failedAccounts totalAccounts].
  pose proof (filter_split_length acc_isActive (map_to_list (accounts st)).*2) as H.
  split; [lia|]. split; [lia|].
  by rewrite length_fmap, length_map_to_list.
Qed.

End OrchestratorFacts.

(** * More on the status store *)

Module StatusStoreMore.

Import StatusStore.

Lemma fold_pushIfAbsent ids acc :
  exists extra,
    fold_left pushIfAbsent ids acc = (acc ++ extra)%list /\
    NoDup extra /\
    (forall aid, aid ∈ extra <-> aid ∈ ids /\ aid ∉ acc).
Proof.
  revert acc. induction ids as [|i ids IH]; intros acc; simpl.
  - exists []. rewrite app_nil_r. split; [done|]. split; [constructor|].
    intros aid. rewrite !elem_of_nil. tauto.
  - unfold pushIfAbsent at 2. destruct (bool_decide_reflect (i ∈ acc)) as [Hin|Hout].
    + destruct (IH acc) as (extra & Heq & Hnd & Hel).
      exists extra. split; [done|]. split; [done|].
      intros aid. rewrite Hel, elem_of_cons. split; [tauto|].
      intros [[->|?] ?]; tauto.
    + destruct (IH (acc ++ [i])%list) as (extra & Heq & Hnd & Hel).
      exists (i :: extra). split; [by rewrite Heq, <- app_assoc|]. split.
      * constructor; [|done]. rewrite Hel, elem_of_app, list_elem_of_singleton. tauto.
      * intros aid. rewrite !elem_of_cons, Hel, elem_of_app, list_elem_of_singleton.
        destruct (decide (aid = i)) as [->|Hne]; [tauto|]. tauto.
Qed.

Definition needy (emailAccountId : string) (status : ConnectionStatus)
    : ImapConnectionStatus :=
  mkStatus emailAccountId "ann@example.org" status 3 1 2 0 true.

(** The reconnection list of the IMAP service.  It begins with what the
    service finds by itself -- the active in-memory records in state
    DISCONNECTED or ERROR, then the clients whose NOOP fails -- and ends
    with the ids that only the store reports, each once.  An id is listed
    exactly when one of the three sources names it; the store never adds
    a duplicate; and when the store's query fails the list is the
    service's own. *)
Theorem reconnection_list_merges_sources
    (connectionStatuses : list (string * ImapConnectionStatus))
    (clients : list (string * bool)) (db : Supabase) :
  let own :=
    (inMemoryNeedingReconnection connectionStatuses
     ++ List.map fst (List.filter (fun c : string * bool => negb c.2) clients))%list in
  let result :=
    IMAPService_getAccountsNeedingReconnection connectionStatuses clients db in
  own `prefix_of` result /\
  (forall aid,
     aid ∈ result <->
     aid ∈ own \/
     exists ids, getAccountsNeedingReconnection db = Resolved ids /\ aid ∈ ids) /\
  (NoDup own -> NoDup result) /\
  (forall err, getAccountsNeedingReconnection db = Rejected err -> result = own).
Proof.
  cbv zeta. unfold IMAPService_getAccountsNeedingReconnection.
  set (own := (inMemoryNeedingReconnection connectionStatuses ++ _)%list).
  destruct (getAccountsNeedingReconnection db) as [ids|err].
  - destruct (fold_pushIfAbsent ids own) as (extra & -> & Hnd & Hel).
    split; [by exists extra|]. split; [|split; [|done]].
    + intros aid. rewrite elem_of_app, Hel. split.
      * intros [?|[? ?]]; [by left|]. right. by exists ids.
      * intros [?|(ids' & [= <-] & Hin)]; [by left|].
        destruct (decide (aid ∈ own)); [by left|by right].
    + intros Hown. apply NoDup_app. split; [done|]. split; [|done].
      intros aid Hin Hex. apply Hel in Hex as [_ Hout]. done.
  - split; [done|]. split; [|done].
    intros aid. split; [by left|]. intros [?|(ids & Hids & _)]; [done|discriminate].
Qed.

Lemma reconnection_list_merges_sources_witness :
  let result :=
    IMAPService_getAccountsNeedingReconnection
      [("acc-1", needy "acc-1" ERROR); ("acc-2", needy "acc-2" CONNECTED)]
      [("acc-3", false)]
      (mkSupabase [needy "acc-1" ERROR; needy "acc-4" DISCONNECTED] None) in
  result = ["acc-1"; "acc-3"; "acc-4"] /\ NoDup result.
Proof.
  split; [reflexivity|].
  destruct (reconnection_list_merges_sources
              [("acc-1", needy "acc-1" ERROR); ("acc-2", needy "acc-2" CONNECTED)]
              [("acc-3", false)]
              (mkSupabase [needy "acc-1" ERROR; needy "acc-4" DISCONNECTED] None))
    as (_ & _ & H & _).
  apply H. apply (bool_decide_unpack _). reflexivity.
Defined.

End StatusStoreMore.

(** * Properties of the IMAP service's status records *)

Module ImapServiceFacts.

Import StatusStore ImapService.

Lemma Map_set_keys {A} k (v : A) m :
  (Map_set k v m).*1 = if bool_decide (k ∈ m.*1) then m.*1 else (m.*1 ++ [k])%list.
Proof.
  induction m as [|[k0 v0] m IH]; [done|]. cbn [Map_set].
  destruct (String.eqb k0 k) eqn:Hk0.
  - apply String.eqb_eq in Hk0 as ->. rewrite !fmap_cons. cbn [fst].
    rewrite bool_decide_eq_true_2; [done|]. apply elem_of_cons. by left.
  - apply String.eqb_neq in Hk0. rewrite !fmap_cons, IH. cbn [fst].
    destruct (bool_decide_reflect (k ∈ m.*1)) as [Hin|Hout].
    + rewrite bool_decide_eq_true_2; [done|]. apply elem_of_cons. by right.
    + rewrite bool_decide_eq_false_2; [done|].
      intros [?|?]%elem_of_cons; [congruence|done].
Qed.

Lemma Map_set_Forall {A} (Q : string -> A -> Prop) k v m :
  Forall (fun e => Q e.1 e.2) m -> Q k v ->
  Forall (fun e => Q e.1 e.2) (Map_set k v m).
Proof.
  intros H Hv. induction H as [|[k0 v0] m Hv0 H IH]; simpl.
  - by repeat constructor.
  - destruct (String.eqb k0 k) eqn:Hk0.
    + apply String.eqb_eq in Hk0 as ->. by constructor.
    + by constructor.
Qed.

Lemma Map_get_Forall {A} (Q : string -> A -> Prop) k v m :
  Forall (fun e => Q e.1 e.2) m -> Map_get k m = Some v -> Q k v.
Proof.
  intros H. induction H as [|[k0 v0] m Hv0 H IH]; simpl; [discriminate|].
  destruct (String.eqb k0 k) eqn:Hk0; [|done].
  apply String.eqb_eq in Hk0 as ->. by intros [= <-].
Qed.

(** What holds of every record, under the key it is stored at. *)
Definition record_ok (key : string) (r : StatusRecord) : Prop :=
  rec_id r = key /\ rec_emailAccountId r = key /\
  rec_isActive r = true /\
  0 <= rec_successfulConnections r /\ 0 <= rec_failedConnections r /\
  0 <= rec_emailsProcessed r /\
  rec_connectionAttempts r = rec_successfulConnections r + rec_failedConnections r.

Definition statuses_ok (m : list (string * StatusRecord)) : Prop :=
  NoDup m.*1 /\ Forall (fun e => record_ok e.1 e.2) m.

Lemma Map_set_ok k r m : statuses_ok m -> record_ok k r -> statuses_ok (Map_set k r m).
Proof.
  intros [Hnd Hall] Hr. split.
  - rewrite Map_set_keys. destruct (bool_decide_reflect (k ∈ m.*1)); [done|].
    apply NoDup_app. split; [done|]. split; [|apply NoDup_singleton].
    intros x Hx ->%list_elem_of_singleton. done.
  - by apply (Map_set_Forall record_ok).
Qed.

Lemma updateConnectionStatus_ok now accountId status email errorMessage m :
  statuses_ok m ->
  statuses_ok (updateConnectionStatus now accountId status email errorMessage m).1.
Proof.
  intros Hm. unfold updateConnectionStatus. cbn [fst].
  apply Map_set_ok; [done|].
  destruct (Map_get accountId m) as [r|] eqn:Hget.
  - pose proof (Map_get_Forall record_ok _ _ _ (proj2 Hm) Hget) as Hr.
    destruct r, status; unfold record_ok in *; simpl in *; intuition lia.
  - destruct status; unfold record_ok; simpl; intuition lia.
Qed.

Lemma updateEmailProcessed_ok now accountId m :
  statuses_ok m -> statuses_ok (updateEmailProcessed now accountId m).
Proof.
  intros Hm. unfold updateEmailProcessed.
  destruct (Map_get accountId m) as [r|] eqn:Hget; [|done].
  pose proof (Map_get_Forall record_ok _ _ _ (proj2 Hm) Hget) as Hr.
  destruct r. apply Map_set_ok; [done|].
  unfold record_ok in *; simpl in *; intuition lia.
Qed.

Lemma healthCheck_ok now clients m :
  statuses_ok m -> statuses_ok (healthCheck now clients m).2.
Proof.
  intros Hm. unfold healthCheck.
  destruct (Nat.eqb _ 0); [done|]. cbn [snd].
  revert m Hm. induction clients as [|c clients IH]; intros m Hm; [done|].
  simpl. apply IH. unfold markFailed.
  destruct (c.2); [by apply updateConnectionStatus_ok|done].
Qed.

Definition sample_history : list (string * StatusRecord) :=
  step 4000 (OpUpdateEmailProcessed "acc-1")
    (step 3000 (OpUpdateConnectionStatus "acc-1" CONNECTED None None)
       (step 2000 (OpHealthCheck [("acc-1", Some "socket closed")])
          (step 1000 (OpUpdateConnectionStatus "acc-1" CONNECTED (Some "ann@example.org") None)
             []))).

(** The status records of the IMAP service, in whatever state the
    service's updates have left them: each account has one record, stored
    under its id and carrying that id; the record counts one attempt for
    every connection that succeeded or failed, no more and no less; its
    counters are never negative; and it is never marked inactive. *)
Theorem status_records_stay_consistent (m : list (string * StatusRecord))
    (accountId : string) (r : StatusRecord) :
  reachable m ->
  Map_get accountId m = Some r ->
  NoDup m.*1 /\
  rec_id r = accountId /\ rec_emailAccountId r = accountId /\
  rec_isActive r = true /\
  rec_connectionAttempts r = rec_successfulConnections r + rec_failedConnections r /\
  0 <= rec_successfulConnections r /\ 0 <= rec_failedConnections r /\
  0 <= rec_emailsProcessed r.
Proof.
  intros Hreach Hget.
  assert (Hm : statuses_ok m).
  { clear Hget. induction Hreach as [|now op m _ IH].
    - split; [constructor|constructor].
    - destruct op; simpl.
      + by apply updateConnectionStatus_ok.
      + by apply updateEmailProcessed_ok.
      + by apply healthCheck_ok. }
  destruct Hm as [Hnd Hall]. split; [done|].
  pose proof (Map_get_Forall record_ok _ _ _ Hall Hget) as Hr.
  unfold record_ok in Hr. intuition.
Qed.

Lemma status_records_stay_consistent_witness :
  exists r,
    Map_get "acc-1" sample_history = Some r /\
    rec_connectionAttempts r = 3 /\
    rec_connectionAttempts r = rec_successfulConnections r + rec_failedConnections r.
Proof.
  eexists. split; [reflexivity|]. split; [reflexivity|].
  eapply (status_records_stay_consistent sample_history "acc-1").
  - unfold sample_history. repeat apply reachable_step. apply reachable_start.
  - reflexivity.
Defined.

End ImapServiceFacts.

(** * Properties of the connection manager's server groups *)

Module ConnectionManagerFacts.

Import ConnectionManager.

Lemma lower_ascii_idem c : Js.lower_ascii (Js.lower_ascii c) = Js.lower_ascii c.
Proof. destruct c as [[] [] [] [] [] [] [] []]; reflexivity. Qed.

Lemma toLowerCase_idem s : Js.toLowerCase (Js.toLowerCase s) = Js.toLowerCase s.
Proof.
  induction s as [|c s IH]; simpl; [done|]. by rewrite lower_ascii_idem, IH.
Qed.

Definition with_host (host : string) (acct : EmailAccountsCredentials)
    : EmailAccountsCredentials :=
  mkAccount (id acct) (email acct) host (imapPort acct) (dailyLimit acct)
    (acc_isActive acct).

(** The server group is a canonical name: it is in lower case, and taken
    as a host name it is in its own group.  So regrouping by group name
    changes nothing, and accounts whose hosts differ only in case are
    grouped together. *)
Theorem server_group_is_canonical (acct other : EmailAccountsCredentials) :
  Js.toLowerCase (getServerHost acct) = getServerHost acct /\
  getServerHost (with_host (getServerHost acct) other) = getServerHost acct /\
  (Js.toLowerCase (imapHost acct) = Js.toLowerCase (imapHost other) ->
   getServerHost acct = getServerHost other).
Proof.
  split; [|split].
  - unfold getServerHost.
    repeat (destruct (_ || _) || destruct (Js.includes _ _)); try reflexivity.
    apply toLowerCase_idem.
  - unfold with_host, getServerHost; cbn [imapHost].
    set (host := Js.toLowerCase (imapHost acct)).
    assert (Hlow : Js.toLowerCase host = host) by apply toLowerCase_idem.
    destruct (Js.includes host "gmail.com" || Js.includes host "google") eqn:H1;
      [reflexivity|].
    destruct (Js.includes host "outlook.com" || Js.includes host "office365.com")
      eqn:H2; [reflexivity|].
    destruct (Js.includes host "yahoo.com") eqn:H3; [reflexivity|].
    destruct (Js.includes host "mailscale") eqn:H4; [reflexivity|].
    rewrite Hlow, H1, H2, H3, H4. reflexivity.
  - intros Heq. unfold getServerHost. by rewrite Heq.
Qed.

Lemma server_group_is_canonical_witness :
  getServerHost (mkAccount "a" "ann@example.org" "IMAP.Gmail.com" 993 None true)
  = getServerHost (mkAccount "b" "bob@example.org" "imap.gmail.COM" 993 None true).
Proof.
  apply (server_group_is_canonical
           (mkAccount "a" "ann@example.org" "IMAP.Gmail.com" 993 None true)
           (mkAccount "b" "bob@example.org" "imap.gmail.COM" 993 None true)).
  reflexivity.
Defined.

End ConnectionManagerFacts.

(** * Properties of the monitoring endpoint *)

Module MonitoringFacts.

Import Monitoring.

(** The queue's health check answers [true] whatever the queue service
    answered: [getQueueAttributes] has already turned a failure into an
    empty result. *)
Lemma sqsHealthCheck_true response : sqsHealthCheck response = Resolved true.
Proof. by destruct response as [[a|]|err]. Qed.

(** The health report never says [healthy] and never says [unhealthy].
    The two check results are destructured into three names, so the third
    flag is always undefined and the report is at best [degraded]; the
    first flag holds the queue's check, which always succeeds, so the
    report is never [unhealthy] either.  The flags are shifted by one
    against their labels: [memory] shows the queue's check and [sqs] the
    IMAP check. *)
Theorem health_report_is_always_degraded (now : Z)
    (response : AttributesResponse) (clients : list (string * option string))
    (connectionStatuses : list (string * ImapService.StatusRecord))
    (figures : MetricFigures) :
  let report := reportedHealth now response clients connectionStatuses figures in
  status report = degraded /\
  memory (services report) = Some true /\
  sqs (services report)
  = Some (ImapService.healthCheck now clients connectionStatuses).1 /\
  imap (services report) = None.
Proof.
  cbv zeta. unfold reportedHealth. rewrite sqsHealthCheck_true.
  unfold getHealthStatus. simpl.
  by destruct (ImapService.healthCheck now clients connectionStatuses).1.
Qed.

End MonitoringFacts.
